(** * layercparse: tokenizer, macro expansion and symbol table

    A shallow embedding of the parts of layercparse that the specification
    makes checkable statements about:
    - [ctoken.py]   : [Token], [TokenList] with [range], [xFromText],
                      [filterCode] and [filterCode_r],
                      [get_pre_comment], [get_post_comment];
    - [common.py]   : [lineno], [linepos], [clean_text_sz];
    - [macro.py]    : [re_token_preproc], [is_wellformed], [MacroParts],
                      [MacroParts.fromStatement], [c_string_escape],
                      [Macros] with [add], [upsert], [expand] and its
                      helpers;
    - [function.py] : [FunctionParts] with [update];
    - [codebase.py] : [Definition] with [get_priority] and [update],
                      [_dict_upsert_def], [_get_visibility_and_module],
                      the branch of [updateFromText] for functions,
                      [Codebase.untypedef].

    Python [str] values are lists of characters.  The model covers ASCII
    text: [\w] is [A-Za-z0-9_], and a character above 127 is neither a word
    character nor white space.

    [internal.py], [statement.py], [record.py] and [variable.py] are not
    part of the sources at hand.  What the code above uses of them is
    either a parameter of the definitions that need it, or, where a
    definition is needed to compute, modelled and marked as such.  The
    patterns are compiled with [re_flags] of [internal.py]; they are laid
    out with spaces and comments and use [\\.] for an escaped line end, and
    are read here as the flags VERBOSE and DOTALL make them. *)

From Stdlib Require Import List Ascii String Bool Arith Lia ZArith.
From stdpp Require Import gmap strings.
Import ListNotations.

Open Scope nat_scope.
Open Scope list_scope.

(** ** Python strings *)

Abbreviation str := (list ascii).

(** A literal. *)
Definition s (x : string) : str := list_ascii_of_string x.

Definition nl : ascii := ascii_of_nat 10.
Definition tab : ascii := ascii_of_nat 9.
Definition cr : ascii := ascii_of_nat 13.
Definition bslash : ascii := ascii_of_nat 92.
Definition dquote : ascii := ascii_of_nat 34.
Definition squote : ascii := ascii_of_nat 39.

Definition ascii_eqb (a b : ascii) : bool := Ascii.eqb a b.

Fixpoint str_eqb (a b : str) : bool :=
  match a, b with
  | [], [] => true
  | x :: a', y :: b' => ascii_eqb x y && str_eqb a' b'
  | _, _ => false
  end.

(** [x[i:j]] for [0 <= i <= j]. *)
Definition slice (x : str) (i j : nat) : str := firstn (j - i) (skipn i x).

(** [x.startswith(p)]. *)
Fixpoint starts_with (p x : str) : bool :=
  match p, x with
  | [], _ => true
  | c :: p', d :: x' => ascii_eqb c d && starts_with p' x'
  | _ :: _, [] => false
  end.

(** [x in l] for a list (or the keys of a dict) of strings. *)
Definition str_in (x : str) (l : list str) : bool := existsb (str_eqb x) l.

(** [\w], on ASCII. *)
Definition is_word (c : ascii) : bool :=
  let n := nat_of_ascii c in
  ((48 <=? n) && (n <=? 57)) || ((65 <=? n) && (n <=? 90))
  || ((97 <=? n) && (n <=? 122)) || (n =? 95).

(** [\s] of the regex module, on ASCII: TAB, LF, VT, FF, CR and space. *)
Definition is_space (c : ascii) : bool :=
  let n := nat_of_ascii c in ((9 <=? n) && (n <=? 13)) || (n =? 32).

(** [str.isspace], which decides what [str.strip()] removes, on ASCII:
    the characters of [\s] and the separators 28 to 31. *)
Definition py_isspace (c : ascii) : bool :=
  let n := nat_of_ascii c in
  ((9 <=? n) && (n <=? 13)) || ((28 <=? n) && (n <=? 32)).

(** [x.strip()]. *)
Fixpoint lstrip (x : str) : str :=
  match x with
  | c :: x' => if py_isspace c then lstrip x' else x
  | [] => []
  end.

Definition rstrip (x : str) : str := rev (lstrip (rev x)).

Definition strip (x : str) : str := rstrip (lstrip x).

(** [x.replace(old, new)] for a non-empty [old]: the occurrences are taken
    from left to right and do not overlap.  [skip] counts the characters of
    an occurrence that are still to be dropped. *)
Fixpoint replace_from (old new : str) (skip : nat) (x : str) : str :=
  match x with
  | [] => []
  | c :: x' =>
      match skip with
      | S k => replace_from old new k x'
      | 0 =>
          if starts_with old x
          then new ++ replace_from old new (length old - 1) x'
          else c :: replace_from old new 0 x'
      end
  end.

Definition replace (old new x : str) : str := replace_from old new 0 x.

(** ** Results of a computation that can raise

    [OutOfFuel] is not a Python outcome: it marks a recursion that was cut
    off by the bound given to [expand_fragment]. *)

Inductive exn : Type := IndexError | KeyError | NameError | TypeError.

Inductive result (A : Type) : Type :=
| Ok (a : A)
| Raise (e : exn)
| OutOfFuel.

Arguments Ok {A} a.
Arguments Raise {A} e.
Arguments OutOfFuel {A}.

Definition bind {A B : Type} (m : result A) (k : A -> result B) : result B :=
  match m with
  | Ok a => k a
  | Raise e => Raise e
  | OutOfFuel => OutOfFuel
  end.

Notation "'let*' x ':=' m 'in' k" := (bind m (fun x => k))
  (at level 10, x binder, k at level 200).

(** ** The regular-expression engine

    The patterns of the program are written for the [regex] module: ordered
    alternation, greedy and possessive repetition, atomic groups, word
    boundaries, named lists and a call of the group [TOKEN].  [run] lists
    the positions at which a match of [r] started at [p] can end, in the
    order in which a backtracking matcher tries them; a match is the head of
    that list.

    Whether the matcher may re-enter a called group on backtracking is
    a property of the engine that the program text does not fix;
    it is the parameter [atomic_calls], and every result below holds for
    both values. *)

Module Regex.

Inductive re : Type :=
| Eps                          (* the empty pattern *)
| Chr (c : ascii)              (* one literal character *)
| Cls (p : ascii -> bool)      (* a character class, or [.] with DOTALL *)
| Seq (a b : re)               (* a b *)
| Alt (a b : re)               (* a | b *)
| Star (a : re)                (* a*, greedy *)
| Atomic (a : re)              (* (?> a) *)
| Bnd                          (* \b *)
| OneOf (l : list str)         (* \L<names> *)
| Call.                        (* (?&TOKEN) *)

(** a*+ *)
Definition Poss (a : re) : re := Atomic (Star a).
(** a++ *)
Definition Poss1 (a : re) : re := Atomic (Seq a (Star a)).

Fixpoint Lit (x : str) : re :=
  match x with
  | [] => Eps
  | [c] => Chr c
  | c :: x' => Seq (Chr c) (Lit x')
  end.

Fixpoint Seqs (l : list re) : re :=
  match l with
  | [] => Eps
  | [a] => a
  | a :: l' => Seq a (Seqs l')
  end.

Fixpoint Alts (l : list re) : re :=
  match l with
  | [] => Cls (fun _ => false)
  | [a] => a
  | a :: l' => Alt a (Alts l')
  end.

Definition any : re := Cls (fun _ => true).
Definition none_of (l : list ascii) : re :=
  Cls (fun c => negb (existsb (ascii_eqb c) l)).
Definition one_of (l : list ascii) : re :=
  Cls (fun c => existsb (ascii_eqb c) l).

Section Engine.
Variable atomic_calls : bool.
(** The body of the definition [(?<TOKEN> ...)]. *)
Variable defs : re.
Variable txt : str.

Definition word_at (p : nat) : bool :=
  match nth_error txt p with Some c => is_word c | None => false end.

Definition at_boundary (p : nat) : bool :=
  xorb (match p with 0 => false | S q => word_at q end) (word_at p).

(** Greedy repetition of the matcher [m]: one more round first, then
    stopping here.  A round that consumes nothing ends the repetition. *)
Section Repeat.
Variable m : nat -> list nat.
Fixpoint star_loop (n : nat) (q : nat) {struct n} : list nat :=
  match n with
  | 0 => [q]
  | S n' =>
      flat_map (fun e => if q <? e then star_loop n' e else []) (m q)
      ++ [q]
  end.
End Repeat.

Section Go.
(** What a call of [TOKEN] yields at a position. *)
Variable call : nat -> list nat.

Fixpoint go (r : re) (p : nat) {struct r} : list nat :=
  match r with
  | Eps => [p]
  | Chr c =>
      match nth_error txt p with
      | Some d => if ascii_eqb c d then [S p] else []
      | None => []
      end
  | Cls f =>
      match nth_error txt p with
      | Some d => if f d then [S p] else []
      | None => []
      end
  | Seq a b => flat_map (go b) (go a p)
  | Alt a b => go a p ++ go b p
  | Star a => star_loop (go a) (length txt - p) p
  | Atomic a => firstn 1 (go a p)
  | Bnd => if at_boundary p then [p] else []
  | OneOf l =>
      flat_map (fun x => if starts_with x (skipn p txt)
                         then [p + length x] else []) l
  | Call => call p
  end.
End Go.

Fixpoint run (fuel : nat) (r : re) (p : nat) {struct fuel} : list nat :=
  go (fun q =>
        match fuel with
        | 0 => []
        | S f =>
            let rs := run f defs q in
            if atomic_calls then firstn 1 rs else rs
        end) r p.

(** The match of [r] at [p].  In the token grammars a call nests only
    behind an opening bracket, so the length of the text bounds the
    depth of the calls. *)
Definition match_at (r : re) (p : nat) : option nat :=
  hd_error (run (S (length txt)) r p).

(** [finditer]: the matches from left to right, each search starting
    where the last match ended.  None of the patterns of the program
    matches the empty string; an empty match is reported and the scan
    moves on by one character. *)
Fixpoint finditer_from (r : re) (n : nat) (p : nat) : list (nat * nat) :=
  match n with
  | 0 => []
  | S n' =>
      if length txt <? p then []
      else
        match match_at r p with
        | Some e => (p, e) :: finditer_from r n' (if p <? e then e else S p)
        | None => finditer_from r n' (S p)
        end
  end.

End Engine.

Definition finditer (atomic_calls : bool) (defs r : re) (txt : str)
  : list (nat * nat) :=
  finditer_from atomic_calls defs txt r (S (length txt)) 0.

(** [pattern.sub(repl, txt)] with a function [repl]: the text between the
    matches is copied, each match is replaced by what [repl] returns for it.
    [matcher p] is the match of the pattern at [p], if any, and [stop] its
    end. *)
Section Sub.
Context {M : Type}.
Variable matcher : nat -> option M.
Variable stop : M -> nat.
Variable txt : str.

Section Pure.
Variable repl : nat -> M -> str.

Fixpoint sub_from (n : nat) (p : nat) : str :=
  match n with
  | 0 => []
  | S n' =>
      match nth_error txt p with
      | None => []
      | Some c =>
          match matcher p with
          | None => c :: sub_from n' (S p)
          | Some m =>
              if p <? stop m
              then repl p m ++ sub_from n' (stop m)
              else repl p m ++ c :: sub_from n' (S p)
          end
      end
  end.

Definition sub : str := sub_from (length txt) 0.
End Pure.

(** The same when [repl] reads and changes a state and can raise. *)
Section Stateful.
Context {S : Type}.
Variable repl : nat -> M -> S -> result (str * S).

Fixpoint sub_st_from (n : nat) (p : nat) (st : S) : result (str * S) :=
  match n with
  | 0 => Ok ([], st)
  | Datatypes.S n' =>
      match nth_error txt p with
      | None => Ok ([], st)
      | Some c =>
          match matcher p with
          | None =>
              let* '(r, st') := sub_st_from n' (Datatypes.S p) st in
              Ok (c :: r, st')
          | Some m =>
              let* '(x, st1) := repl p m st in
              if p <? stop m
              then let* '(r, st2) := sub_st_from n' (stop m) st1 in
                   Ok (x ++ r, st2)
              else let* '(r, st2) := sub_st_from n' (Datatypes.S p) st1 in
                   Ok (x ++ c :: r, st2)
          end
      end
  end.

Definition sub_st (st : S) : result (str * S) :=
  sub_st_from (length txt) 0 st.
End Stateful.
End Sub.

(** A pattern without a call of [TOKEN], matched at [p]. *)
Definition match_plain (r : re) (txt : str) (p : nat) : option nat :=
  match_at false Eps txt r p.

End Regex.

Import Regex.

(** ** The token grammars *)

Module Grammar.

(** The operator alternative of [re_token_preproc] ([macro.py], lines 26 to
    34), in the order of the source, repetitions included. *)
Definition operators_preproc : list string :=
  [ ","; ";"; "?"; ":";
    "!"; "~";
    "<<="; ">>=";
    "##"; "++"; "--"; "->"; "++"; "--"; "<<"; ">>"; "<="; ">="; "=="; "!=";
    "&&"; "||"; "+="; "-="; "*="; "/="; "%="; "&="; "^="; "|=";
    "#"; "."; "+"; "-"; "*"; "&"; "/"; "%"; "+"; "-"; "<"; ">";
    "&"; "^"; "|"; "=";
    "@" ]%string.

(** Modelled from the spec: [internal.py], which holds [re_token], is not
    part of the sources at hand.  Section 4.1 lists its alternatives, and
    [macro.py] (line 14) states the one difference from [re_token_preproc]:
    [#] and [##] are preprocessor directives rather than operators. *)
Definition operators : list string :=
  [ ","; ";"; "?"; ":";
    "!"; "~";
    "<<="; ">>=";
    "++"; "--"; "->"; "++"; "--"; "<<"; ">>"; "<="; ">="; "=="; "!=";
    "&&"; "||"; "+="; "-="; "*="; "/="; "%="; "&="; "^="; "|=";
    "."; "+"; "-"; "*"; "&"; "/"; "%"; "+"; "-"; "<"; ">";
    "&"; "^"; "|"; "=";
    "@" ]%string.

(** (?: [^\\\n] | \\. )*+ *)
Definition line_rest : re :=
  Poss (Alt (none_of [bslash; nl]) (Seq (Chr bslash) any)).

(** (?> \/\/ (?: [^\\\n] | \\. )*+ \n) *)
Definition line_comment : re :=
  Atomic (Seqs [Lit (s "//"); line_rest; Chr nl]).

(** (?> (?: \# | \/\/ ) (?: [^\\\n] | \\. )*+ \n), the first alternative
    of the pattern of [Macros.expand] ([macro.py], line 139). *)
Definition directive_or_line_comment : re :=
  Atomic (Seqs [Alt (Lit (s "#")) (Lit (s "//")); line_rest; Chr nl]).

(** (?> \/\* (?: [^*] | \*[^\/] )*+ \*\/ ) *)
Definition block_comment : re :=
  Atomic (Seqs [Lit (s "/*");
                Poss (Alt (none_of ["*"%char])
                          (Seq (Chr "*") (none_of ["/"%char])));
                Lit (s "*/")]).

(** (?> Q (?> [^\\Q] | \\. )* Q ), where Q is the double quote. *)
Definition string_literal : re :=
  Atomic (Seqs [Chr dquote;
                Star (Atomic (Alt (none_of [bslash; dquote])
                                  (Seq (Chr bslash) any)));
                Chr dquote]).

(** (?> ' (?> [^\\'] | \\. )* ' ) *)
Definition char_literal : re :=
  Atomic (Seqs [Chr squote;
                Star (Atomic (Alt (none_of [bslash; squote])
                                  (Seq (Chr bslash) any)));
                Chr squote]).

(** (?> \{ (?&TOKEN)* \} ), and the same for the other brackets. *)
Definition group (l r : ascii) : re :=
  Atomic (Seqs [Chr l; Star Call; Chr r]).

(** The alternatives that the two grammars share, after the first. *)
Definition token_tail (ops : list string) : list re :=
  [ block_comment;
    string_literal;
    char_literal;
    group "{" "}";
    group "(" ")";
    group "[" "]";
    Atomic (Chr nl);
    Poss1 (one_of [cr; tab; " "%char]);
    Atomic (Seq (Chr bslash) any);
    Atomic (Alts (map (fun o => Lit (s o)) ops));
    Poss1 (Cls is_word) ].

(** [re_token_preproc] ([macro.py], lines 15 to 36). *)
Definition re_token_preproc : re :=
  Alts (line_comment :: token_tail operators_preproc).

(** Modelled from the spec: [re_token] of [internal.py] (see [operators]).
    Its first alternative takes a directive line or a line comment, as the
    pattern of [Macros.expand] does. *)
Definition re_token : re :=
  Alts (directive_or_line_comment :: token_tail operators).

End Grammar.

(** ** ctoken.py *)

Module CToken.

Record Token : Type := mkToken {
  idx : nat;            (* index in the stream of tokens *)
  range : nat * nat;    (* character range in the text *)
  value : str           (* text *)
}.

Section Tokens.
Variable atomic_calls : bool.
(** The grammar: [re_token] for [reg_token]. *)
Variable grammar : re.

(** reg_token = regex.compile(r"(?&TOKEN)" + re_token, re_flags) *)
Definition reg_token_spans (txt : str) : list (nat * nat) :=
  finditer atomic_calls grammar Call txt.

Fixpoint number_tokens (txt : str) (i : nat) (l : list (nat * nat))
  : list Token :=
  match l with
  | [] => []
  | (a, b) :: l' => mkToken i (a, b) (slice txt a b)
                    :: number_tokens txt (S i) l'
  end.

(** [TokenList.xFromText]. *)
Definition xFromText (txt : str) : list Token :=
  number_tokens txt 0 (reg_token_spans txt).

(** [is_wellformed] of [macro.py], over the grammar at hand: the loop
    returns [False] at the first match that does not start where the
    last one ended. *)
Fixpoint wellformed_loop (l : list (nat * nat)) (offset : nat)
  : option nat :=
  match l with
  | [] => Some offset
  | (a, b) :: l' =>
      if negb (a =? offset) then None else wellformed_loop l' b
  end.

Definition is_wellformed (txt : str) : bool :=
  match wellformed_loop (reg_token_spans txt) 0 with
  | None => false
  | Some offset => offset =? length txt
  end.
End Tokens.

(** [TokenList.range]: from the start of the first token to the end of
    the last, and [(0, 0)] for no token. *)
Definition TokenList_range (self : list Token) : nat * nat :=
  match self with
  | [] => (0, 0)
  | t :: rest => (fst (range t), snd (range (List.last rest t)))
  end.

(** [t.value[0]], which raises for an empty text. *)
Definition first_char (t : Token) : result ascii :=
  match value t with
  | c :: _ => Ok c
  | [] => Raise IndexError
  end.

(** [c in l] for a list of characters. *)
Definition char_in (c : ascii) (l : list ascii) : bool :=
  existsb (ascii_eqb c) l.

(** The first characters of what is not code: white space, directives,
    comments, commas and semicolons. *)
Definition not_code : list ascii :=
  [" "%char; tab; nl; "#"%char; "/"%char; ","%char; ";"%char].

(** [TokenList.xxFilterCode], the generator run to its end. *)
Fixpoint xxFilterCode (tokens : list Token) : result (list Token) :=
  match tokens with
  | [] => Ok []
  | t :: rest =>
      let* c := first_char t in
      let* r := xxFilterCode rest in
      Ok (if negb (char_in c not_code) then t :: r else r)
  end.

(** [TokenList.filterCode]. *)
Definition filterCode (self : list Token) : result (list Token) :=
  xxFilterCode self.

(** [TokenList.filterCode_r]: the same loop over [reversed(self)]. *)
Definition filterCode_r (self : list Token) : result (list Token) :=
  xxFilterCode (rev self).

(** The loop of [get_pre_comment] from the token of index [i] on.  When
    the tokens run out the loop variable holds the last index. *)
Fixpoint get_pre_comment_from (tokens : list Token) (i : nat)
  : result (option Token * nat) :=
  match tokens with
  | [] => Ok (None, i)
  | token :: rest =>
      let* c := first_char token in
      if char_in c [" "%char; tab; nl] then get_pre_comment_from rest (S i)
      else if ascii_eqb c "/" then Ok (Some token, S i)
      else Ok (None, i)
  end.

(** [get_pre_comment].  For no token at all the loop variable is unbound
    at the last line. *)
Definition get_pre_comment (tokens : list Token)
  : result (option Token * nat) :=
  match tokens with
  | [] => Raise NameError
  | _ => get_pre_comment_from tokens 0
  end.

(** The loop of [get_post_comment] over the tokens in the order in which
    it meets them. *)
Fixpoint get_post_comment_loop (tokens : list Token) : result (option Token) :=
  match tokens with
  | [] => Ok None
  | token :: rest =>
      let* c := first_char token in
      if char_in c [" "%char; tab; nl] then get_post_comment_loop rest
      else if ascii_eqb c "/" then Ok (Some token)
      else Ok None
  end.

(** [get_post_comment]. *)
Definition get_post_comment (tokens : list Token) : result (option Token) :=
  get_post_comment_loop (rev tokens).

End CToken.

Import CToken.


(** ** common.py *)

Module Common.

Section Clean.
(** [reg_clean] and [getTokenKind] are defined in [internal.py], which is
    not part of the sources at hand: they are parameters. *)
Variable atomic_calls : bool.
Variable reg_clean : re.
Variable getTokenKind : str -> str.

(** Modelled from the spec: [reg_cr] of [internal.py].  [clean_text_sz]
    is documented in [common.py] as preserving newlines and text size:
    [reg_cr] takes one character that is not a newline. *)
Definition reg_cr : re := none_of [nl].

(** reg_cr.sub(" ", x) *)
Definition blank (x : str) : str :=
  sub (match_plain reg_cr x) (fun e => e) x (fun _ _ => s " ").

(** [clean_text_sz]. *)
Definition clean_text_sz (txt : str) : str :=
  sub (match_at atomic_calls Grammar.re_token txt reg_clean) (fun e => e) txt
      (fun p e =>
         let m := slice txt p e in
         if str_in (getTokenKind m) [s "#"; s "/"] then blank m else m).
End Clean.

(** The end of the range [0:pos] of a text, as [str.count] and
    [str.rfind] read it: [None] is the length of the text, a negative
    number counts from the end, and the range is cut at both ends. *)
Definition range_end (txt : str) (pos : option Z) : nat :=
  match pos with
  | None => length txt
  | Some z =>
      if (z <? 0)%Z then Z.to_nat (Z.of_nat (length txt) + z)
      else Nat.min (Z.to_nat z) (length txt)
  end.

(** x.count("\n") *)
Definition count_nl (x : str) : nat :=
  length (List.filter (ascii_eqb nl) x).

(** [lineno]. *)
Definition lineno (txt : str) (pos : option Z) : nat :=
  count_nl (firstn (range_end txt pos) txt) + 1.

(** x.rfind("\n"): the highest index of a newline, and -1 for none. *)
Fixpoint rfind_nl (x : str) : Z :=
  match x with
  | [] => -1
  | c :: x' =>
      let r := rfind_nl x' in
      if (0 <=? r)%Z then r + 1
      else if ascii_eqb nl c then 0 else -1
  end%Z.

(** [linepos]. *)
Definition linepos (txt : str) (pos : option Z) : Z :=
  (let off := rfind_nl (firstn (range_end txt pos) txt) in
   let pos := match pos with
              | None => Z.of_nat (length txt)
              | Some z => z
              end in
   if 0 <=? off then pos - off + 1 else pos + 1)%Z.

End Common.

(** ** macro.py *)

Module Macro.

(** [is_wellformed] runs over [reg_token_preproc]. *)
Definition is_wellformed (atomic_calls : bool) (txt : str) : bool :=
  CToken.is_wellformed atomic_calls Grammar.re_token_preproc txt.

Record MacroParts : Type := mkMacroParts {
  name : Token;
  args : option (list Token);
  body : option Token;
  preComment : option Token;
  is_va_args : bool;
  is_wellformed_flag : bool    (* the field [is_wellformed] *)
}.

(** The constructor of the dataclass, with [__post_init__]. *)
Definition MacroParts_new (atomic_calls : bool) (name : Token)
    (args : option (list Token)) (body : option Token)
    (preComment : option Token) (is_va_args : bool) : MacroParts :=
  mkMacroParts name args body preComment is_va_args
    (match body with
     | Some b => is_wellformed atomic_calls (value b)
     | None => true
     end).

(** *** [reg_define]

    ^\#define \s++ (?P<name>\w++) \s*+ (?P<args> \( (?P<args_in> [^)]*+ ) \) )? \s*+ (?P<body> .* ) $

    Every repetition before the body is possessive and the body takes the
    rest of the text, so the groups are found from left to right. *)
Record define_match : Type := mkDefineMatch {
  dm_name : nat * nat;
  dm_args_in : option (nat * nat);
  dm_body : nat * nat
}.

Definition spaces : re := Poss (Cls is_space).
Definition spaces1 : re := Poss1 (Cls is_space).
Definition word : re := Poss1 (Cls is_word).

Definition reg_define_match (x : str) : option define_match :=
  match match_plain (Seq (Lit (s "#define")) spaces1) x 0 with
  | None => None
  | Some p1 =>
      match match_plain word x p1 with
      | None => None
      | Some p2 =>
          match match_plain spaces x p2 with
          | None => None
          | Some p3 =>
              let args :=
                match match_plain
                        (Seqs [Chr "("; Poss (none_of [")"%char]); Chr ")"])
                        x p3 with
                | Some p4 => (Some (S p3, p4 - 1), p4)
                | None => (None, p3)
                end in
              match match_plain spaces x (snd args) with
              | None => None
              | Some p5 =>
                  Some (mkDefineMatch (p1, p2) (fst args) (p5, length x))
              end
          end
      end
  end.

(** reg_whole_word = [\w\.]++ *)
Definition reg_whole_word : re :=
  Poss1 (Cls (fun c => is_word c || ascii_eqb c ".")).

(** The text of the body as [fromStatement] stores it (line 101). *)
Definition normalize_body (clean_text_sz : str -> str) (b : str) : str :=
  clean_text_sz (strip (replace (bslash :: [nl]) (" "%char :: [nl]) b)).

Fixpoint set_last_value (l : list Token) (v : str) : list Token :=
  match l with
  | [] => []
  | [t] => [mkToken (idx t) (range t) v]
  | t :: l' => t :: set_last_value l' v
  end.

Section FromStatement.
Variable atomic_calls : bool.
(** [Token.getKind] and [clean_text_sz]'s pattern are not part of the
    sources at hand. *)
Variable getKind : Token -> str.
Variable clean_text_sz : str -> str.

(** The loop of lines 79 to 87: the first token that is neither a
    comment nor white space must be the directive.  The loop leaves
    [match] unbound when there is no such token. *)
Fixpoint find_define (tokens : list Token) (preComment : option Token)
  : result (option (Token * define_match * option Token)) :=
  match tokens with
  | [] => Raise NameError
  | token :: rest =>
      if match preComment with None => true | Some _ => false end
         && str_eqb (getKind token) (s "/")
      then find_define rest (Some token)
      else if str_in (getKind token) [s " "; s "/"]
      then find_define rest preComment
      else match reg_define_match (value token) with
           | Some m => Ok (Some (token, m, preComment))
           | None => Ok None
           end
  end.

(** [MacroParts.fromStatement], over the tokens of the statement. *)
Definition fromStatement (tokens : list Token) : result (option MacroParts) :=
  let* found := find_define tokens None in
  match found with
  | None => Ok None
  | Some (token, m, preComment) =>
      let x := value token in
      let offset := fst (range token) in
      let tok (i : nat) (r : nat * nat) :=
        mkToken i (offset + fst r, offset + snd r)
                (slice x (fst r) (snd r)) in
      let args0 :=
        match dm_args_in m with
        | None => None
        | Some (a, b) =>
            let inner := slice x a b in
            Some (map (fun t => mkToken (idx t)
                                  (offset + a + fst (range t),
                                   offset + a + snd (range t))
                                  (value t))
                      (number_tokens inner 0
                         (finditer false Eps reg_whole_word inner)))
        end in
      let va :=
        match args0 with
        | Some l =>
            match last l with
            | Some t => str_eqb (value t) (s "...")
            | None => false
            end
        | None => false
        end in
      let args1 :=
        if va then option_map (fun l => set_last_value l (s "__VA_ARGS__"))
                              args0
        else args0 in
      let body0 := tok 0 (dm_body m) in
      let body1 := mkToken (idx body0) (range body0)
                     (normalize_body clean_text_sz (value body0)) in
      Ok (Some (MacroParts_new atomic_calls (tok 0 (dm_name m)) args1
                               (Some body1) preComment va))
  end.
End FromStatement.

(** [c_string_escape]. *)
Definition c_string_escape (txt : str) : str :=
  replace [dquote] (bslash :: [dquote])
    (replace [tab] (bslash :: s "t")
       (replace [nl] (bslash :: s "n")
          (replace [bslash] (bslash :: [bslash]) txt))).


(** *** The registry *)

(** [Macros.macros]: a dict in insertion order. *)
Definition macro_dict := list (str * MacroParts).

Fixpoint lookup (k : str) (d : macro_dict) : option MacroParts :=
  match d with
  | [] => None
  | (k', v) :: d' => if str_eqb k k' then Some v else lookup k d'
  end.

(** d[k] = v *)
Fixpoint dict_set (k : str) (v : MacroParts) (d : macro_dict) : macro_dict :=
  match d with
  | [] => [(k, v)]
  | (k', v') :: d' =>
      if str_eqb k k' then (k, v) :: d' else (k', v') :: dict_set k v d'
  end.

(** [Macros.add]. *)
Definition add (macro : MacroParts) (d : macro_dict) : macro_dict :=
  dict_set (value (name macro)) macro d.

(** [MacroParts.update]: only [preComment] changes; the messages are
    dropped by [Macros.upsert]. *)
Definition MacroParts_update (self other : MacroParts) : MacroParts :=
  match preComment self with
  | None => mkMacroParts (name self) (args self) (body self)
              (preComment other) (is_va_args self) (is_wellformed_flag self)
  | Some _ => self
  end.

(** [Macros.upsert]. *)
Definition upsert (other : MacroParts) (d : macro_dict) : macro_dict :=
  match lookup (value (name other)) d with
  | Some m => dict_set (value (name other)) (MacroParts_update m other) d
  | None => add other d
  end.

(** An entry of [Macros.errors]: macro NAME: got only GOT arguments,
    expected EXPECTED. *)
Record arity_error : Type := mkArityError {
  err_name : str;
  err_got : nat;
  err_expected : nat
}.

(** The class [Macros]. *)
Record Macros : Type := mkMacros {
  macros : macro_dict;
  errors : list arity_error
}.

(** What an expansion reads and changes of the registry: [_in_use],
    [_in_use_stack], and [errors] under the name [recorded]. *)
Record state : Type := mkState {
  in_use : list str;
  in_use_stack : list str;
  recorded : list arity_error
}.

Definition state0 : state := mkState [] [] [].

(** self._in_use.add(name); self._in_use_stack.append(name) *)
Definition enter (nm : str) (st : state) : state :=
  mkState (if str_in nm (in_use st) then in_use st else nm :: in_use st)
          (in_use_stack st ++ [nm]) (recorded st).

(** self._in_use_stack.pop(); self._in_use.remove(name), which raises
    when the name is not in the set. *)
Definition leave (nm : str) (st : state) : result state :=
  if str_in nm (in_use st)
  then Ok (mkState (List.filter (fun x => negb (str_eqb nm x)) (in_use st))
                   (removelast (in_use_stack st)) (recorded st))
  else Raise KeyError.

Definition record_error (e : arity_error) (st : state) : state :=
  mkState (in_use st) (in_use_stack st) (recorded st ++ [e]).

(** *** The pattern of [expand] *)

Inductive name_match : Type :=
| MSkip (e : nat)                       (* a comment, directive or literal *)
| MObj (nm : str) (e : nat)             (* an object-like name *)
| MFn (nm : str) (ls le : nat) (e : nat).
    (* a function-like name, the span of the group [list], the end *)

Definition name_match_end (m : name_match) : nat :=
  match m with MSkip e => e | MObj _ e => e | MFn _ _ _ e => e end.

(** The four alternatives that are copied (lines 139 to 142). *)
Definition skipped : re :=
  Alts [Grammar.directive_or_line_comment; Grammar.block_comment;
        Grammar.string_literal; Grammar.char_literal].

(** \b(?:\L<names>)\b.  The names are words ([reg_define] takes the name
    of a macro and [reg_whole_word] its parameters), so between two word
    boundaries at most one of them matches. *)
Definition whole_name (names : list str) : re := Seqs [Bnd; OneOf names; Bnd].

Section NamesReg.
Variable atomic_calls : bool.
Variable obj_like_names fn_like_names : list str.
Variable txt : str.

(** (?P<args>(?P<spc>\s*+)\((?P<list>(?&TOKEN)*+)\)) after a name that
    ends at [e1]. *)
Definition match_args (e1 : nat) : option (nat * nat * nat) :=
  match match_plain (Seq spaces (Chr "(")) txt e1 with
  | None => None
  | Some ls =>
      match match_at atomic_calls Grammar.re_token txt (Poss Call) ls with
      | None => None
      | Some le =>
          match match_plain (Chr ")") txt le with
          | None => None
          | Some e => Some (ls, le, e)
          end
      end
  end.

Fixpoint first_call (p : nat) (ends : list nat) : option name_match :=
  match ends with
  | [] => None
  | e1 :: ends' =>
      match match_args e1 with
      | Some (ls, le, e) => Some (MFn (slice txt p e1) ls le e)
      | None => first_call p ends'
      end
  end.

(** The match of [_names_reg] at [p]: the alternatives in order. *)
Definition names_reg_match (p : nat) : option name_match :=
  match match_plain skipped txt p with
  | Some e => Some (MSkip e)
  | None =>
      match
        match obj_like_names with
        | [] => None
        | _ => match_plain (whole_name obj_like_names) txt p
        end
      with
      | Some e => Some (MObj (slice txt p e) e)
      | None =>
          match fn_like_names with
          | [] => None
          | _ => first_call p
                   (run false Eps txt 0 (whole_name fn_like_names) p)
          end
      end
  end.
End NamesReg.

(** *** The substitution pattern of [_expand_fn_like] (lines 218 to 222) *)

Inductive subst_match : Type :=
| SStringize (n : str) (e : nat)        (* group h *)
| SPaste (ns : list str) (e : nat)      (* group hh, the captures of n *)
| SParam (n : str) (e : nat).           (* a parameter name *)

Definition subst_match_end (m : subst_match) : nat :=
  match m with SStringize _ e => e | SPaste _ e => e | SParam _ e => e end.

Section SubstReg.
Variable names : list str.
Variable txt : str.

(** (?>\s*+(\#\#)\s*+(?P<n>\w++))++ from [q] on, possessive: the rounds
    that match, at least one. *)
Fixpoint paste_rounds (n : nat) (q : nat) : list str * nat :=
  match n with
  | 0 => ([], q)
  | S n' =>
      match match_plain (Seqs [spaces; Lit (s "##"); spaces]) txt q with
      | None => ([], q)
      | Some q1 =>
          match match_plain word txt q1 with
          | None => ([], q)
          | Some q2 =>
              let '(ns, e) := paste_rounds n' q2 in
              (slice txt q1 q2 :: ns, e)
          end
      end
  end.

Definition reg_macro_subst_match (p : nat) : option subst_match :=
  match
    match match_plain (Seq (Chr "#") spaces) txt p with
    | None => None
    | Some p1 =>
        match match_plain word txt p1 with
        | None => None
        | Some e => Some (SStringize (slice txt p1 e) e)
        end
    end
  with
  | Some m => Some m
  | None =>
      match
        match match_plain word txt p with
        | None => None
        | Some q =>
            match paste_rounds (length txt) q with
            | ([], _) => None
            | (ns, e) => Some (SPaste (slice txt p q :: ns) e)
            end
        end
      with
      | Some m => Some m
      | None =>
          match match_plain (whole_name names) txt p with
          | Some e => Some (SParam (slice txt p e) e)
          | None => None
          end
      end
  end.
End SubstReg.

(** *** Expansion *)

(** args_val[-1].append(token) *)
Fixpoint append_last (l : list (list Token)) (t : Token)
  : list (list Token) :=
  match l with
  | [] => []
  | [a] => [a ++ [t]]
  | a :: l' => a :: append_last l' t
  end.

(** The loop of lines 192 to 203 over the tokens of the argument list. *)
Fixpoint parse_args (nparams : nat) (va : bool) (tokens : list Token)
    (args_val : list (list Token)) : list (list Token) :=
  match tokens with
  | [] => args_val
  | token_arg :: rest =>
      if str_eqb (value token_arg) (s ",")
      then if length args_val <? nparams
           then parse_args nparams va rest (args_val ++ [[]])
           else if negb va
                then args_val
                else parse_args nparams va rest
                       (append_last args_val token_arg)
      else parse_args nparams va rest (append_last args_val token_arg)
  end.

(** A dict from parameter names to argument texts, in insertion order. *)
Definition arg_dict := list (str * str).

Fixpoint arg_lookup (k : str) (d : arg_dict) : option str :=
  match d with
  | [] => None
  | (k', v) :: d' => if str_eqb k k' then Some v else arg_lookup k d'
  end.

Fixpoint arg_set (k : str) (v : str) (d : arg_dict) : arg_dict :=
  match d with
  | [] => [(k, v)]
  | (k', v') :: d' =>
      if str_eqb k k' then (k, v) :: d' else (k', v') :: arg_set k v d'
  end.

(** {k.value: "".join(v.strings()).strip() for k, v in zip(args, args_val)} *)
Fixpoint make_args_dict (params : list Token) (args_val : list (list Token))
    (d : arg_dict) : arg_dict :=
  match params, args_val with
  | k :: params', v :: args_val' =>
      make_args_dict params' args_val'
        (arg_set (value k) (strip (concat (map value v))) d)
  | _, _ => d
  end.

(** _concat_hh *)
Definition concat_hh (args_dict : arg_dict) (ns : list str) : str :=
  concat (map (fun n => match arg_lookup n args_dict with
                        | Some v => v
                        | None => n
                        end) ns).

(** _arg_c_escape *)
Definition arg_c_escape (args_dict : arg_dict) (n : str) : str :=
  match arg_lookup n args_dict with
  | Some v => [dquote] ++ c_string_escape v ++ [dquote]
  | None => [dquote; dquote]
  end.

(** The substitution pass of lines 229 to 233.  The third alternative
    matches a key of [args_dict] only, and [args_dict_expanded] has the
    same keys. *)
Definition substitute (args_dict args_dict_expanded : arg_dict)
    (replacement : str) : str :=
  sub (reg_macro_subst_match (map fst args_dict) replacement)
      subst_match_end replacement
      (fun _ m =>
         match m with
         | SStringize n _ => arg_c_escape args_dict n
         | SPaste ns _ => concat_hh args_dict ns
         | SParam n _ =>
             match arg_lookup n args_dict_expanded with
             | Some v => v
             | None => []
             end
         end).

Section Expand.
Variable atomic_calls : bool.
Variable self : Macros.

Definition obj_like_names : list str :=
  map fst (List.filter (fun kv => match args (snd kv) with
                                  | None => true
                                  | Some _ => false
                                  end) (macros self)).

Definition fn_like_names : list str :=
  map fst (List.filter (fun kv => match args (snd kv) with
                                  | None => false
                                  | Some _ => true
                                  end) (macros self)).

Section Callbacks.
(** [self._expand_fragment], for the calls from the two callbacks. *)
Variable expand_fragment : str -> state -> result (str * state).

(** [_expand_obj_like]; [whole] is [match[0]]. *)
Definition expand_obj_like (nm whole : str) (st : state)
  : result (str * state) :=
  if str_in nm (in_use st) then Ok (whole, st)
  else
    match lookup nm (macros self) with
    | None => Raise KeyError
    | Some macro =>
        match body macro with
        | None => Ok ([], st)
        | Some b =>
            let* '(replacement, st1) :=
              expand_fragment (value b) (enter nm st) in
            let* st2 := leave nm st1 in
            Ok (replacement, st2)
        end
    end.

(** The dict comprehension of lines 214 and 215. *)
Fixpoint expand_args (d : arg_dict) (st : state)
  : result (arg_dict * state) :=
  match d with
  | [] => Ok ([], st)
  | (k, v) :: d' =>
      let* '(v', st1) := expand_fragment v st in
      let* '(r, st2) := expand_args d' st1 in
      Ok ((k, v') :: r, st2)
  end.

(** [_expand_fn_like]; [whole] is [match[0]], [lst] is the group
    [list]. *)
Definition expand_fn_like (nm whole lst : str) (st : state)
  : result (str * state) :=
  if str_in nm (in_use st) then Ok (whole, st)
  else
    match lookup nm (macros self) with
    | None => Raise KeyError
    | Some macro =>
        match body macro with
        | None => Ok ([], st)
        | Some b =>
            match args macro with
            | None => Raise TypeError
            | Some params =>
                let args_val :=
                  parse_args (length params) (is_va_args macro)
                    (xFromText atomic_calls Grammar.re_token lst) [[]] in
                if length args_val <? length params
                then Ok (whole,
                         record_error
                           (mkArityError nm (length args_val)
                                         (length params)) st)
                else
                  let* '(replacement, st1) :=
                    match params with
                    | [] => Ok (value b, st)
                    | _ =>
                        let args_dict :=
                          make_args_dict params args_val [] in
                        let* '(args_dict_expanded, st1) :=
                          expand_args args_dict st in
                        Ok (substitute args_dict args_dict_expanded
                                       (value b), st1)
                    end in
                  let* '(replacement', st2) :=
                    expand_fragment replacement (enter nm st1) in
                  let* st3 := leave nm st2 in
                  Ok (replacement', st3)
            end
        end
    end.

(** The function given to [sub] in [_expand_fragment].  It reads the
    group [args] first, and the pattern has a group of that name only
    when there is a function-like macro. *)
Definition expand_match (txt : str) (p : nat) (m : name_match)
    (st : state) : result (str * state) :=
  match fn_like_names with
  | [] => Raise IndexError
  | _ =>
      let whole := slice txt p (name_match_end m) in
      match m with
      | MFn nm ls le _ => expand_fn_like nm whole (slice txt ls le) st
      | MObj nm _ => expand_obj_like nm whole st
      | MSkip _ => Ok (whole, st)
      end
  end.
End Callbacks.

(** [_expand_fragment].  [fuel] bounds the depth of the recursion through
    the two callbacks. *)
Fixpoint expand_fragment (fuel : nat) (txt : str) (st : state)
  : result (str * state) :=
  match fuel with
  | 0 => OutOfFuel
  | S fuel' =>
      sub_st (names_reg_match atomic_calls obj_like_names fn_like_names txt)
             name_match_end txt
             (expand_match (expand_fragment fuel') txt) st
  end.

(** [Macros.expand]: the text returned, and [errors] after the call.
    With no macro the text is returned at once. *)
Definition expand_run (fuel : nat) (txt : str)
  : result (str * list arity_error) :=
  match macros self with
  | [] => Ok (txt, errors self)
  | _ =>
      let* '(r, st) := expand_fragment fuel txt state0 in
      Ok (r, recorded st)
  end.

Definition expand (fuel : nat) (txt : str) : result str :=
  let* '(r, _) := expand_run fuel txt in Ok r.
End Expand.

End Macro.

(** ** function.py *)

Module Function.

(** Tokens compare by their text: [idx] and [range] are declared with
    [compare=False]. *)
Definition token_eqb (a b : Token) : bool := str_eqb (value a) (value b).

Fixpoint tokens_eqb (a b : list Token) : bool :=
  match a, b with
  | [], [] => true
  | x :: a', y :: b' => token_eqb x y && tokens_eqb a' b'
  | _, _ => false
  end.

Record FunctionParts : Type := mkFunctionParts {
  typename : list Token;
  name : Token;
  args : Token;
  body : option Token;
  preComment : option Token;
  postComment : option Token
}.

(** The messages of [FunctionParts.update]. *)
Inductive conflict : Type :=
| RetTypeMismatch
| NameMismatch
| ArgsMismatch
| Redefinition.

Definition or_else {A : Type} (a b : option A) : option A :=
  match a with Some _ => a | None => b end.

(** [FunctionParts.update]: the object after the call and the messages. *)
Definition update (self other : FunctionParts)
  : FunctionParts * list conflict :=
  (mkFunctionParts (typename self) (name self) (args self) (body self)
     (or_else (preComment self) (preComment other))
     (or_else (postComment self) (postComment other)),
   (if tokens_eqb (typename self) (typename other) then []
    else [RetTypeMismatch])
   ++ (if token_eqb (name self) (name other) then [] else [NameMismatch])
   ++ (if token_eqb (args self) (args other) then [] else [ArgsMismatch])
   ++ (match body self, body other with
       | Some b1, Some b2 => if token_eqb b1 b2 then [] else [Redefinition]
       | _, _ => []
       end)).

End Function.

(** ** codebase.py *)

Module Codebase.

Section Model.
(** [record.py], [variable.py] and [internal.py] are not part of the
    sources at hand.  What [codebase.py] uses of them is a parameter:
    the two classes with their [update], the [body] of a record, and
    [get_file_priority]. *)
Variable RecordParts : Type.
Variable record_body : RecordParts -> option Token.
Variable record_update :
  RecordParts -> RecordParts -> RecordParts * list Function.conflict.
Variable VariableParts : Type.
Variable variable_update :
  VariableParts -> VariableParts -> VariableParts * list Function.conflict.
Variable get_file_priority : str -> Z.

(** Details: TypeAlias = FunctionParts | RecordParts | Variable *)
Inductive Details : Type :=
| DFunction (f : Function.FunctionParts)
| DRecord (r : RecordParts)
| DVariable (v : VariableParts).

(** The class [Definition]; [scope] is kept as the name of its file. *)
Record Defn : Type := mkDefn {
  name : str;
  kind : str;
  scope : str;
  offset : nat;
  module : str;
  is_private : option bool;
  details : option Details;
  preComments : list Token;
  postComments : list Token
}.

(** bool(self.is_private) *)
Definition truthy (b : option bool) : bool :=
  match b with Some true => true | _ => false end.

(** [Definition.get_priority]. *)
Definition get_priority (self : Defn) : Z :=
  (let ret := (if truthy (is_private self) then 1 else 0) * 10
              + get_file_priority (scope self) in
   match details self with
   | Some (DFunction f) =>
       ret + (match Function.body f with Some _ => 1 | None => 0 end) * 100
   | Some (DRecord r) =>
       ret + (match record_body r with Some _ => 1 | None => 0 end) * 100
   | _ => ret
   end)%Z.

(** The calls of [WARNING], three for each conflict. *)
Inductive warning : Type :=
| KindConflict
| ModuleConflict
| DetailsTypeConflict
| DetailsConflict (errors : list Function.conflict).

(** type(self.details).__name__ *)
Definition details_type (d : option Details) : nat :=
  match d with
  | None => 0
  | Some (DFunction _) => 1
  | Some (DRecord _) => 2
  | Some (DVariable _) => 3
  end.

(** self.details.update(other.details) for two details of one class. *)
Definition details_update (a b : option Details)
  : option Details * list Function.conflict :=
  match a, b with
  | Some (DFunction f), Some (DFunction g) =>
      let '(f', e) := Function.update f g in (Some (DFunction f'), e)
  | Some (DRecord f), Some (DRecord g) =>
      let '(f', e) := record_update f g in (Some (DRecord f'), e)
  | Some (DVariable f), Some (DVariable g) =>
      let '(f', e) := variable_update f g in (Some (DVariable f'), e)
  | _, _ => (a, [])
  end.

(** The body of [Definition.update] after the test of the priorities:
    [self] after the call, and the warnings.  [other] is only read. *)
Definition fold_into (self other : Defn) : Defn * list warning :=
  let w1 := if str_eqb (kind self) (kind other) then [] else [KindConflict] in
  let w2 := if str_eqb (module self) (module other) then []
            else [ModuleConflict] in
  let priv := if truthy (is_private other) then Some true
              else is_private self in
  let '(det, w3) :=
    if negb (details_type (details self) =? details_type (details other))
    then (details self, [DetailsTypeConflict])
    else
      let '(d, errors) := details_update (details self) (details other) in
      (d, match errors with [] => [] | _ => [DetailsConflict errors] end) in
  (mkDefn (name self) (kind self) (scope self) (offset self) (module self)
          priv det
          (preComments self ++ preComments other)
          (postComments self ++ postComments other),
   w1 ++ w2 ++ w3).

(** Objects live in a store of references: a dict holds references, and
    [update] changes the object it is called on. *)
Local Abbreviation ref := nat.
Local Abbreviation store := (gmap nat Defn).

(** [Definition.update] on two stored objects.  When [other] has the
    higher priority the roles are swapped and it is [other] that
    changes. *)
Definition update (h : store) (self other : ref) (check_riority : bool)
  : store * list warning :=
  match h !! self, h !! other with
  | Some d_self, Some d_other =>
      if check_riority
         && (get_priority d_self <? get_priority d_other)%Z
      then let '(d, w) := fold_into d_other d_self in (<[other := d]> h, w)
      else let '(d, w) := fold_into d_self d_other in (<[self := d]> h, w)
  | _, _ => (h, [])
  end.

(** [_dict_upsert_def]: the dict and the store after the call. *)
Definition _dict_upsert_def (h : store) (d : gmap str ref) (other : ref)
  : store * gmap str ref * list warning :=
  match h !! other with
  | None => (h, d, [])
  | Some d_other =>
      match d !! name d_other with
      | Some self => let '(h', w) := update h self other true in (h', d, w)
      | None => (h, <[name d_other := other]> d, [])
      end
  end.

Record Codebase : Type := mkCodebase {
  objects : store;
  types : gmap str ref;
  types_restricted : gmap str ref;
  fields : gmap str (gmap str ref);
  names : gmap str ref;
  names_restricted : gmap str ref;
  typedefs : gmap str str
}.

Definition empty : Codebase := mkCodebase ∅ ∅ ∅ ∅ ∅ ∅ ∅.

(** A new object. *)
Definition alloc (h : store) (d : Defn) : store * ref :=
  let r := fresh (dom h) in (<[r := d]> h, r).

(** The object that a table holds for a name. *)
Definition entry (h : store) (d : gmap str ref) (k : str) : option Defn :=
  match d !! k with Some r => h !! r | None => None end.

(** *** [_get_visibility_and_module]

    \#(?>(public)|(private))\b(?>\((\w++)\))?  is searched in the comment
    before the declaration, then in the one after it. *)
Definition annotation_at (x : str) (p : nat) : option (bool * option str) :=
  match match_plain (Chr "#") x p with
  | None => None
  | Some p1 =>
      match
        match match_plain (Lit (s "public")) x p1 with
        | Some p2 => Some (false, p2)
        | None =>
            match match_plain (Lit (s "private")) x p1 with
            | Some p2 => Some (true, p2)
            | None => None
            end
        end
      with
      | None => None
      | Some (priv, p2) =>
          match match_plain Bnd x p2 with
          | None => None
          | Some _ =>
              match match_plain (Seq (Chr "(") Macro.word) x p2 with
              | Some p3 =>
                  match match_plain (Chr ")") x p3 with
                  | Some _ => Some (priv, Some (slice x (S p2) p3))
                  | None => Some (priv, None)
                  end
              | None => Some (priv, None)
              end
          end
      end
  end.

Fixpoint search_annotation (x : str) (n : nat) (p : nat)
  : option (bool * option str) :=
  match n with
  | 0 => None
  | S n' =>
      match annotation_at x p with
      | Some r => Some r
      | None => search_annotation x n' (S p)
      end
  end.

Definition annotation (c : option Token) : option (bool * option str) :=
  match c with
  | Some t => search_annotation (value t) (length (value t)) 0
  | None => None
  end.

Definition module_or (m : option str) (default_module : str) : str :=
  match m with
  | Some (c :: x) => c :: x
  | _ => default_module
  end.

(** [_get_visibility_and_module] for a declaration that is not nested
    (the case of a function). *)
Definition _get_visibility_and_module (preComment postComment : option Token)
    (default_private : option bool) (default_module : str)
  : option bool * str :=
  match annotation preComment with
  | Some (priv, m) => (Some priv, module_or m default_module)
  | None =>
      match annotation postComment with
      | Some (priv, m) => (Some priv, module_or m default_module)
      | None => (default_private, default_module)
      end
  end.

(** The branch of [updateFromText] for a statement that is a function
    definition (lines 179 to 192); [func] is what
    [FunctionParts.fromStatement] returned, [file] and [scope_module]
    describe the scope. *)
Definition add_function (file scope_module : str)
    (func : option Function.FunctionParts) (cb : Codebase) : Codebase :=
  match func with
  | None => cb
  | Some f =>
      match Function.body f with
      | None => cb
      | Some _ =>
          let '(priv, local_module) :=
            _get_visibility_and_module (Function.preComment f)
              (Function.postComment f) None scope_module in
          let nm := value (Function.name f) in
          let '(h1, r) :=
            alloc (objects cb)
              (mkDefn nm (s "function") file
                      (fst (range (Function.name f))) local_module priv
                      (Some (DFunction f)) [] []) in
          let '(h2, names2, _) := _dict_upsert_def h1 (names cb) r in
          let restricted :=
            if truthy priv
            then match names2 !! nm with
                 | Some r' => <[nm := r']> (names_restricted cb)
                 | None => names_restricted cb
                 end
            else names_restricted cb in
          mkCodebase h2 (types cb) (types_restricted cb) (fields cb)
                     names2 restricted (typedefs cb)
      end
  end.

(** *** [untypedef] *)

Definition nonempty (x : str) : bool :=
  match x with [] => false | _ => true end.

(** The loop of lines 110 to 116; [fuel] bounds the number of rounds. *)
Fixpoint untypedef_loop (cb : Codebase) (fuel : nat) (nm name1 name2 : str)
  : result str :=
  match typedefs cb !! nm with
  | None => Ok (if nonempty name2 then name2
                else if nonempty name1 then name1 else nm)
  | Some target =>
      match fuel with
      | 0 => OutOfFuel
      | S fuel' =>
          untypedef_loop cb fuel' target
            (match types cb !! nm with Some _ => target | None => name1 end)
            (match fields cb !! nm with Some _ => target | None => name2 end)
      end
  end.

Definition untypedef (cb : Codebase) (fuel : nat) (nm : str) : result str :=
  untypedef_loop cb fuel nm [] [].

(** The choice between the three names as section 4.5 of the
    specification words it: the record name first, then the name with
    fields, then the last target. *)
Fixpoint untypedef_spec_loop (cb : Codebase) (fuel : nat)
    (nm name1 name2 : str) : result str :=
  match typedefs cb !! nm with
  | None => Ok (if nonempty name1 then name1
                else if nonempty name2 then name2 else nm)
  | Some target =>
      match fuel with
      | 0 => OutOfFuel
      | S fuel' =>
          untypedef_spec_loop cb fuel' target
            (match types cb !! nm with Some _ => target | None => name1 end)
            (match fields cb !! nm with Some _ => target | None => name2 end)
      end
  end.

Definition untypedef_spec (cb : Codebase) (fuel : nat) (nm : str)
  : result str :=
  untypedef_spec_loop cb fuel nm [] [].
End Model.

End Codebase.

(** * Sample inputs *)

Module Samples.

Definition tok (x : string) : Token := mkToken 0 (0, 0) (s x).

(** The macro that [#define NAME BODY] defines. *)
Definition object_like (atomic_calls : bool) (nm body : string)
  : Macro.MacroParts :=
  Macro.MacroParts_new atomic_calls (tok nm) None (Some (tok body)) None false.

(** The macro that [#define NAME(PARAMS) BODY] defines. *)
Definition function_like (atomic_calls : bool) (nm : string)
    (params : list string) (body : string) : Macro.MacroParts :=
  Macro.MacroParts_new atomic_calls (tok nm) (Some (map tok params))
                       (Some (tok body)) None false.

(** A registry to which the macros were added in order. *)
Definition registry (l : list Macro.MacroParts) : Macro.Macros :=
  Macro.mkMacros (fold_left (fun d m => Macro.add m d) l []) [].

(** The directive [#define A 1] with the line end that closes it, at
    offset 10 of a file. *)
Definition define_A_1 : Token :=
  mkToken 0 (10, 22) (s "#define A 1" ++ [nl]).

(** Two definitions of one function [f] in one file: the second carries
    the annotation [#private] in the comment before it. *)
Definition f_public : Function.FunctionParts :=
  Function.mkFunctionParts [tok "void"] (tok "f") (tok "int x")
                           (Some (tok " return; ")) None None.

Definition f_private : Function.FunctionParts :=
  Function.mkFunctionParts [tok "void"] (tok "f") (tok "int x")
                           (Some (tok " return; "))
                           (Some (tok "/* #private */")) None.

(** The declaration [void f(int);], which has no body. *)
Definition f_declared : Function.FunctionParts :=
  Function.mkFunctionParts [tok "void"] (tok "f") (tok "int")
                           None None None.

(** The object that [updateFromText] makes for a function definition. *)
Definition sighting {R V : Type} (file module : str) (priv : option bool)
    (f : Function.FunctionParts) : Codebase.Defn R V :=
  Codebase.mkDefn R V (value (Function.name f)) (s "function") file
                  (fst (range (Function.name f))) module priv
                  (Some (Codebase.DFunction R V f)) [] [].

(** The table that holds one definition of [f], as object 0. *)
Definition one_function {R V : Type} (file : str) (priv : option bool)
    (f : Function.FunctionParts) : Codebase.Codebase R V :=
  Codebase.mkCodebase R V
    {[0 := sighting file (s "m") priv f]} ∅ ∅ ∅ {[s "f" := 0]}
    (if Codebase.truthy priv then {[s "f" := 0]} else ∅) ∅.

(** The table after [typedef struct foo BAR; typedef BAR BAZ;]. *)
Definition bar_baz : Codebase.Codebase unit unit :=
  Codebase.mkCodebase unit unit ∅ ∅ ∅ ∅ ∅ ∅
    {[s "BAR" := s "foo"; s "BAZ" := s "BAR"]}.

(** [A] is a typedef for [B] and [B] one for [C]; [A] is also the name
    of a record, and [B] the name of one with fields. *)
Definition a_b_c : Codebase.Codebase unit unit :=
  Codebase.mkCodebase unit unit ∅ {[s "A" := 0]} ∅ {[s "B" := ∅]} ∅ ∅
    {[s "A" := s "B"; s "B" := s "C"]}.

(** The table after [typedef struct foo foo;]. *)
Definition foo_foo : Codebase.Codebase unit unit :=
  Codebase.mkCodebase unit unit ∅ ∅ ∅ ∅ ∅ ∅ {[s "foo" := s "foo"]}.

(** A stand-in for [Token.getKind]: the first character of the token. *)
Definition kind_by_first_char (t : Token) : str := firstn 1 (value t).

(** The directive [#define FOO(x) \] that goes on with
    [    do { x; } while (0)] on the next line, at the start of a file:
    one token of 41 characters, the escaped line end at the offsets 15
    and 16. *)
Definition define_FOO : Token :=
  mkToken 0 (0, 41)
    (s "#define FOO(x) " ++ [bslash; nl]
     ++ s "    do { x; } while (0)" ++ [nl]).

End Samples.

(** * Statements

    The predicates in which the properties below are stated. *)

Module Props.

(** A matcher ends between its start and the end of the text. *)
Definition bounded (txt : str) (m : nat -> list nat) : Prop :=
  forall q e, q <= length txt -> In e (m q) -> q <= e <= length txt.

(** A matcher never ends before its start, and one that makes progress
    ends behind it. *)
Definition forward (c : nat -> list nat) : Prop :=
  forall q e, In e (c q) -> q <= e.

Definition progressing (c : nat -> list nat) : Prop :=
  forall q e, In e (c q) -> q < e.

(** Every match of the pattern takes at least one character (a call of
    [TOKEN] counts as taking one). *)
Fixpoint consuming (r : re) : bool :=
  match r with
  | Eps | Bnd | Star _ => false
  | Chr _ | Cls _ | Call => true
  | Seq a b => consuming a || consuming b
  | Alt a b => consuming a && consuming b
  | Atomic a => consuming a
  | OneOf l => forallb (fun x => match x with [] => false | _ => true end) l
  end.

(** The pattern calls [TOKEN] only behind something that takes a
    character: there is no call at the position where a match starts. *)
Fixpoint guarded (r : re) : bool :=
  match r with
  | Call => false
  | Seq a b => guarded a && (consuming a || guarded b)
  | Alt a b => guarded a && guarded b
  | Star a | Atomic a => guarded a
  | Eps | Chr _ | Cls _ | Bnd | OneOf _ => true
  end.

(** Spans in order and without overlap: each one lies inside the text and
    starts at or after [lo], the end of the span before it. *)
Fixpoint ordered_from (txt : str) (lo : nat) (l : list (nat * nat)) : Prop :=
  match l with
  | [] => True
  | (a, b) :: l' =>
      lo <= a /\ a <= b /\ b <= length txt /\ ordered_from txt b l'
  end.

(** Spans that partition the range from [lo] to [hi]: the first starts at
    [lo], each one starts where the last ended, the last ends at [hi]. *)
Fixpoint partitions (lo : nat) (l : list (nat * nat)) (hi : nat) : Prop :=
  match l with
  | [] => lo = hi
  | (a, b) :: l' => a = lo /\ partitions b l' hi
  end.

(** A text in double quotes. *)
Definition quoted (x : str) : str := [dquote] ++ x ++ [dquote].

(** A macro with its field [is_wellformed] set to [b], and a registry in
    which [f] chooses that field for every macro. *)
Definition with_flag (b : bool) (m : Macro.MacroParts) : Macro.MacroParts :=
  Macro.mkMacroParts (Macro.name m) (Macro.args m) (Macro.body m)
                     (Macro.preComment m) (Macro.is_va_args m) b.

Definition reflag (f : Macro.MacroParts -> bool) (self : Macro.Macros)
  : Macro.Macros :=
  Macro.mkMacros
    (map (fun kv => (fst kv, with_flag (f (snd kv)) (snd kv)))
         (Macro.macros self))
    (Macro.errors self).

(** The names that [untypedef] goes through from [nm]: each with its
    target in [typedefs], down to [final], which is no key of it. *)
Inductive typedef_chain {R V : Type} (cb : Codebase.Codebase R V)
  : str -> list (str * str) -> str -> Prop :=
| chain_end (nm : str) :
    Codebase.typedefs R V cb !! nm = None -> typedef_chain cb nm [] nm
| chain_step (nm target : str) (l : list (str * str)) (final : str) :
    Codebase.typedefs R V cb !! nm = Some target ->
    typedef_chain cb target l final ->
    typedef_chain cb nm ((nm, target) :: l) final.

(** The target of the last name of the chain that is a key of the dict
    [d], and [start] when there is none: what the loop of [untypedef] has
    in [name1] or [name2] at its end, from what it had at the start. *)
Definition picked {A : Type} (d : gmap str A) (l : list (str * str))
    (start : str) : str :=
  match last (List.filter
                (fun kt => match d !! fst kt with
                           | Some _ => true
                           | None => false
                           end) l) with
  | Some (_, target) => target
  | None => start
  end.

(** The number of registered macros that are not being expanded. *)
Definition avail (self : Macro.Macros) (used : list str) : nat :=
  length (List.filter (fun k => negb (str_in k used))
                      (map fst (Macro.macros self))).

(** The number of characters in the arguments of a call. *)
Definition weight (args_val : list (list Token)) : nat :=
  list_sum (map (fun v => length (concat (map value v))) args_val).

(** The outcome [r] leaves [_in_use] as [used]. *)
Definition keeps_in_use {A : Type} (used : list str)
    (r : result (A * Macro.state)) : Prop :=
  match r with
  | Ok (_, st) => Macro.in_use st = used
  | Raise _ => True
  | OutOfFuel => False
  end.

(** From some bound on, the computation [f] has the one outcome [r]. *)
Definition settles_to {A : Type} (f : nat -> result A) (r : result A)
  : Prop :=
  exists bound, forall fuel, bound <= fuel -> f fuel = r.

(** From some bound on, the expansion of [txt] from a state whose
    [_in_use] is [used] has one outcome, which leaves [_in_use] as it
    was. *)
Definition returns (atomic_calls : bool) (self : Macro.Macros)
    (used : list str) (txt : str) : Prop :=
  forall st, Macro.in_use st = used ->
    exists r,
      settles_to
        (fun fuel => Macro.expand_fragment atomic_calls self fuel txt st) r
      /\ keeps_in_use used r.

(** White space, as [get_pre_comment] and [get_post_comment] test it. *)
Definition white : list ascii := [" "%char; tab; nl].

(** The text of the token starts with one of the characters [l]. *)
Definition starts_in (l : list ascii) (t : Token) : bool :=
  match value t with
  | c :: _ => char_in c l
  | [] => false
  end.

(** A token that [filterCode] keeps. *)
Definition is_code (t : Token) : bool :=
  match value t with
  | c :: _ => negb (char_in c not_code)
  | [] => false
  end.

(** What [c_string_escape] makes of one character. *)
Definition escape_char (c : ascii) : str :=
  if ascii_eqb c bslash then [bslash; bslash]
  else if ascii_eqb c nl then bslash :: s "n"
  else if ascii_eqb c tab then bslash :: s "t"
  else if ascii_eqb c dquote then [bslash; dquote]
  else [c].

(** Reading an escaped text back: a backslash stands with the character
    behind it for one character. *)
Fixpoint unescape (x : str) : str :=
  match x with
  | [] => []
  | c :: x' =>
      if ascii_eqb c bslash
      then match x' with
           | d :: x'' =>
               (if ascii_eqb d "n" then nl
                else if ascii_eqb d "t" then tab else d) :: unescape x''
           | [] => [c]
           end
      else c :: unescape x'
  end.

(** The number of tokens in the arguments of a call. *)
Definition tokens_in (args_val : list (list Token)) : nat :=
  list_sum (map (@length Token) args_val).

(** The state [st'] is the state [st] with errors recorded since:
    [_in_use] and [_in_use_stack] are the same. *)
Definition extends (st st' : Macro.state) : Prop :=
  Macro.in_use st' = Macro.in_use st
  /\ Macro.in_use_stack st' = Macro.in_use_stack st
  /\ exists l, Macro.recorded st' = Macro.recorded st ++ l.

(** A character that is neither a double quote nor a backslash. *)
Definition plain (c : ascii) : bool :=
  negb (ascii_eqb c dquote) && negb (ascii_eqb c bslash).

(** The object has details with a body. *)
Definition has_body {R V : Type} (record_body : R -> option Token)
    (d : Codebase.Defn R V) : bool :=
  match Codebase.details R V d with
  | Some (Codebase.DFunction _ _ f) =>
      match Function.body f with Some _ => true | None => false end
  | Some (Codebase.DRecord _ _ r) =>
      match record_body r with Some _ => true | None => false end
  | _ => false
  end.

(** What a merge keeps of an object: its name, kind, scope, offset and
    module, and its being private. *)
Definition same_identity {R V : Type} (d0 d1 : Codebase.Defn R V) : Prop :=
  Codebase.name R V d1 = Codebase.name R V d0
  /\ Codebase.kind R V d1 = Codebase.kind R V d0
  /\ Codebase.scope R V d1 = Codebase.scope R V d0
  /\ Codebase.offset R V d1 = Codebase.offset R V d0
  /\ Codebase.module R V d1 = Codebase.module R V d0
  /\ (Codebase.truthy (Codebase.is_private R V d0) = true ->
      Codebase.truthy (Codebase.is_private R V d1) = true).

(** The tables of names agree with the objects: a name in [names]
    refers to an object of that name, and [names_restricted] holds only
    what [names] holds. *)
Definition tables_consistent {R V : Type} (cb : Codebase.Codebase R V)
  : Prop :=
  (forall k r, Codebase.names R V cb !! k = Some r ->
     exists d, Codebase.objects R V cb !! r = Some d
               /\ Codebase.name R V d = k)
  /\ (forall k r, Codebase.names_restricted R V cb !! k = Some r ->
        Codebase.names R V cb !! k = Some r).

(** The name that [k] steps through [typedefs] lead to from [nm]. *)
Fixpoint follow {R V : Type} (cb : Codebase.Codebase R V) (k : nat)
    (nm : str) : option str :=
  match k with
  | 0 => Some nm
  | S k' =>
      match Codebase.typedefs R V cb !! nm with
      | Some target => follow cb k' target
      | None => None
      end
  end.

(** The comment, if there is one, has no [#] in it. *)
Definition no_hash (c : option Token) : bool :=
  match c with
  | Some t => forallb (fun ch => negb (ascii_eqb "#" ch)) (value t)
  | None => true
  end.

(** The pattern of [expand] matches somewhere in the text. *)
Definition matches_somewhere (atomic_calls : bool) (self : Macro.Macros)
    (txt : str) : bool :=
  existsb (fun p =>
             match Macro.names_reg_match atomic_calls
                     (Macro.obj_like_names self) (Macro.fn_like_names self)
                     txt p with
             | Some _ => true
             | None => false
             end)
          (seq 0 (length txt)).

(** The pattern has no match that starts with the character [c]: a
    sufficient test on the first characters that the pattern asks for. *)
Fixpoint rejects (r : re) (c : ascii) : bool :=
  match r with
  | Chr d => negb (ascii_eqb d c)
  | Cls f => negb (f c)
  | Seq a _ => rejects a c
  | Alt a b => rejects a c && rejects b c
  | Atomic a => rejects a c
  | Eps | Star _ | Bnd | OneOf _ | Call => false
  end.

(** The matches that [sub] hands to its function when it scans [txt]
    from [p] on, each with the position where it starts: the scan of
    [sub_st_from], without the replacements. *)
Fixpoint matches_from {M : Type} (matcher : nat -> option M)
    (stop : M -> nat) (txt : str) (n p : nat) : list (nat * M) :=
  match n with
  | 0 => []
  | S n' =>
      match nth_error txt p with
      | None => []
      | Some _ =>
          match matcher p with
          | None => matches_from matcher stop txt n' (S p)
          | Some m =>
              (p, m)
              :: matches_from matcher stop txt n'
                   (if p <? stop m then stop m else S p)
          end
      end
  end.

(** The matches of the pattern of [expand] in the text given to it: the
    comments, literals, names and calls that are not inside a call, a
    body or an argument. *)
Definition top_level (atomic_calls : bool) (self : Macro.Macros)
    (txt : str) : list (nat * Macro.name_match) :=
  matches_from
    (Macro.names_reg_match atomic_calls (Macro.obj_like_names self)
                           (Macro.fn_like_names self) txt)
    Macro.name_match_end txt (length txt) 0.

(** No two of the strings are equal: the keys of a dict. *)
Fixpoint distinct (l : list str) : bool :=
  match l with
  | [] => true
  | x :: l' => negb (str_in x l') && distinct l'
  end.

(** The outcome is no exception. *)
Definition no_raise {A : Type} (r : result A) : Prop :=
  match r with
  | Raise _ => False
  | _ => True
  end.

(** Each value of [d'] is what [rec] returns for the value that [d] has
    under the same key; the calls are made in the order of the keys,
    from the state [st] to the state [st']. *)
Inductive expanded_by
    (rec : str -> Macro.state -> result (str * Macro.state))
  : Macro.arg_dict -> Macro.state -> Macro.arg_dict -> Macro.state -> Prop :=
| expanded_nil (st : Macro.state) : expanded_by rec [] st [] st
| expanded_cons (k raw expanded : str) (d d' : Macro.arg_dict)
    (st st1 st2 : Macro.state) :
    rec raw st = Ok (expanded, st1) ->
    expanded_by rec d st1 d' st2 ->
    expanded_by rec ((k, raw) :: d) st ((k, expanded) :: d') st2.

(** A text in which no match of the substitution pattern starts: it has
    no [#] and no word character. *)
Definition inert (x : str) : bool :=
  forallb (fun c => negb (ascii_eqb c "#") && negb (is_word c)) x.

(** A name: word characters, at least one. *)
Definition is_name (n : str) : bool :=
  match n with
  | [] => false
  | _ => forallb is_word n
  end.

(** White space only, or nothing. *)
Definition blanks (x : str) : bool := forallb is_space x.

(** A run of names pasted with [##]: the first name, and for each of the
    others the white space before the [##], the white space behind it
    and the name. *)
Definition pasted (n0 : str) (l : list (str * str * str)) : str :=
  n0 ++ concat (map (fun t => fst (fst t) ++ s "##" ++ snd (fst t) ++ snd t)
                    l).

Definition pasted_ok (n0 : str) (l : list (str * str * str)) : bool :=
  is_name n0
  && forallb (fun t => blanks (fst (fst t)) && blanks (snd (fst t))
                       && is_name (snd t)) l.

(** The raw text of the argument for the parameter [n], and [n] itself
    when it is no parameter. *)
Definition raw_or_name (raw : Macro.arg_dict) (n : str) : str :=
  match Macro.arg_lookup n raw with
  | Some v => v
  | None => n
  end.

(** The text does not go on with a character of the class [f]. *)
Definition stops (f : ascii -> bool) (x : str) : bool :=
  match x with
  | [] => true
  | c :: _ => negb (f c)
  end.

(** The text does not go on with white space and [##]. *)
Fixpoint no_mark (x : str) : bool :=
  match x with
  | [] => true
  | c :: x' =>
      if is_space c then no_mark x'
      else negb (ascii_eqb c "#"
                 && match x' with
                    | d :: _ => ascii_eqb d "#"
                    | [] => false
                    end)
  end.

(** The parts of a body: a text in which no match of the substitution
    pattern starts, [#] with white space and a name, a run of names
    pasted with [##], and a parameter that stands alone. *)
Inductive piece : Type :=
| Text (t : str)
| Stringize (sp n : str)
| Paste (n0 : str) (l : list (str * str * str))
| Param (n : str).

(** The part as it is written in the body. *)
Definition source (f : piece) : str :=
  match f with
  | Text t => t
  | Stringize sp n => s "#" ++ sp ++ n
  | Paste n0 l => pasted n0 l
  | Param n => n
  end.

Definition piece_ok (keys : list str) (f : piece) : bool :=
  match f with
  | Text t => inert t
  | Stringize sp n => blanks sp && is_name n
  | Paste n0 l =>
      pasted_ok n0 l && match l with [] => false | _ => true end
  | Param n => str_in n keys
  end.

(** Every part is well formed, and a form is followed by a text that is
    not empty, or by nothing. *)
Fixpoint separated (keys : list str) (ps : list piece) : bool :=
  match ps with
  | [] => true
  | f :: r =>
      piece_ok keys f
      && match f, r with
         | Text _, _ => true
         | _, [] => true
         | _, Text (_ :: _) :: _ => true
         | _, _ => false
         end
      && separated keys r
  end.

(** What the claim has the pass put for the part: the text itself; the
    raw argument, escaped and in double quotes, or two double quotes;
    the raw arguments, or the names that are no parameters, side by
    side; the expanded argument. *)
Definition replaced (raw expanded : Macro.arg_dict) (f : piece) : str :=
  match f with
  | Text t => t
  | Stringize _ n =>
      match Macro.arg_lookup n raw with
      | Some v => quoted (Macro.c_string_escape v)
      | None => [dquote; dquote]
      end
  | Paste n0 l => concat (map (raw_or_name raw) (n0 :: map snd l))
  | Param n =>
      match Macro.arg_lookup n expanded with
      | Some v => v
      | None => []
      end
  end.

End Props.

(** * Properties *)

(** ** The engine: a match lies inside the text *)

Module RegexFacts.

Import Props.

Lemma starts_with_length (x y : str) :
  starts_with x y = true -> length x <= length y.
Proof.
  revert y; induction x as [|c x IH]; intros [|d y]; simpl; try lia;
    try discriminate.
  intros H; apply andb_prop in H as [_ H]. apply IH in H. lia.
Qed.

Lemma in_firstn_1 (l : list nat) (e : nat) : In e (firstn 1 l) -> In e l.
Proof. destruct l; simpl; tauto. Qed.

Section Bounds.
Variable atomic_calls : bool.
Variable defs : re.
Variable txt : str.

Local Abbreviation bounded := (Props.bounded txt).
Local Abbreviation ordered_from := (Props.ordered_from txt).

Lemma star_loop_bounded (m : nat -> list nat) (n : nat) :
  bounded m -> bounded (star_loop m n).
Proof.
  intros Hm; induction n as [|n IH]; intros q e Hq; simpl.
  - intros [<-|[]]; lia.
  - rewrite in_app_iff, in_flat_map. intros [(x & Hx & He)|[<-|[]]]; try lia.
    destruct (Nat.ltb_spec q x); [|destruct He].
    apply Hm in Hx; [|exact Hq]. apply IH in He; lia.
Qed.

Lemma go_bounded (call : nat -> list nat) (r : re) :
  bounded call -> bounded (go txt call r).
Proof.
  intros Hc; induction r as [|c|f|a IHa b IHb|a IHa b IHb|a IHa|a IHa| |l|];
    intros p e Hp; simpl.
  - intros [<-|[]]; lia.
  - destruct (nth_error txt p) eqn:E; [|intros []].
    assert (p < length txt) by (apply nth_error_Some; congruence).
    destruct (ascii_eqb c a); [intros [<-|[]]; lia|intros []].
  - destruct (nth_error txt p) eqn:E; [|intros []].
    assert (p < length txt) by (apply nth_error_Some; congruence).
    destruct (f a); [intros [<-|[]]; lia|intros []].
  - rewrite in_flat_map. intros (x & Hx & He).
    apply IHa in Hx; [|exact Hp]. apply IHb in He; lia.
  - rewrite in_app_iff. intros [H|H]; [apply IHa in H|apply IHb in H]; lia.
  - apply star_loop_bounded; assumption.
  - intros H; apply in_firstn_1 in H. apply IHa; assumption.
  - destruct (at_boundary txt p); [intros [<-|[]]; lia|intros []].
  - rewrite in_flat_map. intros (x & _ & He).
    destruct (starts_with x (skipn p txt)) eqn:E; [|destruct He].
    apply starts_with_length in E. rewrite length_skipn in E.
    destruct He as [<-|[]]; lia.
  - apply Hc; assumption.
Qed.

Lemma run_bounded (fuel : nat) (r : re) :
  bounded (run atomic_calls defs txt fuel r).
Proof.
  revert r; induction fuel as [|fuel IH]; intros r; simpl;
    apply go_bounded; intros q e Hq.
  - intros [].
  - specialize (IH defs q e Hq).
    destruct atomic_calls; [intros H; apply in_firstn_1 in H|]; auto.
Qed.

Lemma match_at_bounded (r : re) (p e : nat) :
  p <= length txt -> match_at atomic_calls defs txt r p = Some e ->
  p <= e <= length txt.
Proof.
  unfold match_at. intros Hp H.
  apply (run_bounded (S (length txt)) r p e Hp).
  destruct (run _ _ _ _ r p); simpl in H; [discriminate|].
  injection H as ->. now left.
Qed.

Lemma ordered_from_weaken (lo lo' : nat) (l : list (nat * nat)) :
  lo' <= lo -> ordered_from lo l -> ordered_from lo' l.
Proof. destruct l as [|[a b] l]; simpl; [tauto|]. intuition lia. Qed.

Lemma finditer_from_ordered (r : re) (n p : nat) :
  ordered_from p (finditer_from atomic_calls defs txt r n p).
Proof.
  revert p; induction n as [|n IH]; intros p; simpl; [exact I|].
  destruct (Nat.ltb_spec (length txt) p) as [Hp|Hp]; [exact I|].
  destruct (match_at atomic_calls defs txt r p) as [e|] eqn:E.
  - pose proof (match_at_bounded r p e Hp E) as Hb.
    simpl. repeat split; try lia.
    destruct (Nat.ltb_spec p e).
    + apply IH.
    + apply ordered_from_weaken with (S p); [lia|apply IH].
  - apply ordered_from_weaken with (S p); [lia|apply IH].
Qed.
End Bounds.

(** *** The bound on the depth of the calls

    [match_at] lets a call of [TOKEN] nest as deep as the text is long.
    For a grammar that calls [TOKEN] only behind a character, as the two
    token grammars do behind an opening bracket, that is enough: a larger
    bound gives the same matches. *)

Lemma flat_map_ext_in {A B : Type} (f g : A -> list B) (l : list A) :
  (forall x, In x l -> f x = g x) -> flat_map f l = flat_map g l.
Proof.
  induction l as [|x l IH]; intros H; simpl; [reflexivity|].
  rewrite H by now left. rewrite IH; [reflexivity|].
  intros y Hy. apply H. now right.
Qed.

Lemma flat_map_nil {A B : Type} (f : A -> list B) (l : list A) :
  (forall x, In x l -> f x = []) -> flat_map f l = [].
Proof.
  induction l as [|x l IH]; intros H; simpl; [reflexivity|].
  rewrite H by now left. apply IH. intros y Hy. apply H. now right.
Qed.

Section Depth.
Variable atomic_calls : bool.
Variable defs : re.
Variable txt : str.

Lemma star_loop_forward (m : nat -> list nat) (n : nat) :
  forward m -> forward (star_loop m n).
Proof.
  intros Hm; induction n as [|n IH]; intros q e; simpl.
  - intros [<-|[]]; lia.
  - rewrite in_app_iff, in_flat_map. intros [(x & Hx & He)|[<-|[]]]; try lia.
    destruct (Nat.ltb_spec q x); [|destruct He].
    apply IH in He; lia.
Qed.

Lemma go_forward (c : nat -> list nat) (r : re) :
  forward c -> forward (go txt c r).
Proof.
  intros Hc; induction r as [|ch|f|a IHa b IHb|a IHa b IHb|a IHa|a IHa| |l|];
    intros p e; simpl.
  - intros [<-|[]]; lia.
  - destruct (nth_error txt p); [|intros []].
    destruct (ascii_eqb ch a); [intros [<-|[]]; lia|intros []].
  - destruct (nth_error txt p); [|intros []].
    destruct (f a); [intros [<-|[]]; lia|intros []].
  - rewrite in_flat_map. intros (x & Hx & He).
    apply IHa in Hx. apply IHb in He. lia.
  - rewrite in_app_iff. intros [H|H]; [apply IHa in H|apply IHb in H]; lia.
  - apply star_loop_forward; assumption.
  - intros H; apply in_firstn_1 in H. now apply IHa.
  - destruct (at_boundary txt p); [intros [<-|[]]; lia|intros []].
  - rewrite in_flat_map. intros (x & _ & He).
    destruct (starts_with x (skipn p txt)); [|destruct He].
    destruct He as [<-|[]]; lia.
  - apply Hc.
Qed.

Lemma go_progressing (c : nat -> list nat) (r : re) :
  progressing c -> consuming r = true -> progressing (go txt c r).
Proof.
  intros Hc.
  assert (Hf : forward c) by (intros q e H; apply Hc in H; lia).
  induction r as [|ch|f|a IHa b IHb|a IHa b IHb|a IHa|a IHa| |l|];
    intros Hr p e; simpl in *; try discriminate.
  - destruct (nth_error txt p); [|intros []].
    destruct (ascii_eqb ch a); [intros [<-|[]]; lia|intros []].
  - destruct (nth_error txt p); [|intros []].
    destruct (f a); [intros [<-|[]]; lia|intros []].
  - rewrite in_flat_map. intros (x & Hx & He).
    pose proof (go_forward c a Hf p x Hx).
    pose proof (go_forward c b Hf x e He).
    apply orb_prop in Hr as [Hr|Hr].
    + apply (IHa Hr) in Hx. lia.
    + apply (IHb Hr) in He. lia.
  - apply andb_prop in Hr as [Ha Hb]. rewrite in_app_iff.
    intros [H|H]; [apply (IHa Ha) in H|apply (IHb Hb) in H]; lia.
  - intros H; apply in_firstn_1 in H. now apply (IHa Hr).
  - rewrite in_flat_map. intros (x & Hx & He).
    rewrite forallb_forall in Hr. specialize (Hr x Hx).
    destruct x as [|y x]; [discriminate|].
    destruct (starts_with _ _); [|destruct He].
    destruct He as [<-|[]]. simpl. lia.
  - apply Hc.
Qed.

Lemma star_loop_ext (m1 m2 : nat -> list nat) (n p : nat) :
  forward m1 -> (forall q, p <= q -> m1 q = m2 q) ->
  star_loop m1 n p = star_loop m2 n p.
Proof.
  intros Hf. revert p; induction n as [|n IH]; intros p H; simpl;
    [reflexivity|].
  rewrite <- (H p) by lia. f_equal. apply flat_map_ext_in.
  intros e He. destruct (Nat.ltb_spec p e); [|reflexivity].
  apply IH. intros q Hq. apply H. lia.
Qed.

(** Two handlers of the calls that agree from [p] on give the same
    matches from [p]. *)
Lemma go_ext (c1 c2 : nat -> list nat) (r : re) (p : nat) :
  forward c1 -> (forall q, p <= q -> c1 q = c2 q) ->
  go txt c1 r p = go txt c2 r p.
Proof.
  intros Hf. revert p.
  induction r as [|ch|f|a IHa b IHb|a IHa b IHb|a IHa|a IHa| |l|];
    intros p H; simpl; try reflexivity.
  - rewrite <- (IHa p H). apply flat_map_ext_in. intros e He.
    apply IHb. intros q Hq. apply H.
    pose proof (go_forward c1 a Hf p e He). lia.
  - now rewrite (IHa p H), (IHb p H).
  - apply star_loop_ext; [now apply go_forward|].
    intros q Hq. apply IHa. intros q' Hq'. apply H. lia.
  - now rewrite (IHa p H).
  - apply H. lia.
Qed.

(** For a guarded pattern it is enough that they agree behind [p]. *)
Lemma go_ext_guarded (c1 c2 : nat -> list nat) (r : re) (p : nat) :
  progressing c1 -> guarded r = true ->
  (forall q, p < q -> c1 q = c2 q) ->
  go txt c1 r p = go txt c2 r p.
Proof.
  intros Hc.
  assert (Hf : forward c1) by (intros q e H; apply Hc in H; lia).
  revert p.
  induction r as [|ch|f|a IHa b IHb|a IHa b IHb|a IHa|a IHa| |l|];
    intros p Hg H; simpl in *; try reflexivity; try discriminate.
  - apply andb_prop in Hg as [Ha Hb].
    rewrite <- (IHa p Ha H). apply flat_map_ext_in. intros e He.
    apply orb_prop in Hb as [Hb|Hb].
    + apply go_ext; [exact Hf|]. intros q Hq. apply H.
      pose proof (go_progressing c1 a Hc Hb p e He). lia.
    + apply IHb; [exact Hb|]. intros q Hq. apply H.
      pose proof (go_forward c1 a Hf p e He). lia.
  - apply andb_prop in Hg as [Ha Hb].
    now rewrite (IHa p Ha H), (IHb p Hb H).
  - generalize (length txt - p). intros n. revert p H.
    induction n as [|n IHn]; intros p H; simpl; [reflexivity|].
    rewrite <- (IHa p Hg H). f_equal. apply flat_map_ext_in.
    intros e He. destruct (Nat.ltb_spec p e); [|reflexivity].
    apply IHn. intros q Hq. apply H. lia.
  - now rewrite (IHa p Hg H).
Qed.

Lemma go_past_end (c : nat -> list nat) (r : re) (p : nat) :
  forward c -> (forall q, length txt <= q -> c q = []) ->
  consuming r = true -> length txt <= p -> go txt c r p = [].
Proof.
  intros Hf Hc. revert p.
  induction r as [|ch|f|a IHa b IHb|a IHa b IHb|a IHa|a IHa| |l|];
    intros p Hr Hp; simpl in *; try discriminate.
  - apply nth_error_None in Hp. now rewrite Hp.
  - apply nth_error_None in Hp. now rewrite Hp.
  - apply orb_prop in Hr as [Hr|Hr].
    + now rewrite (IHa p Hr Hp).
    + apply flat_map_nil. intros e He. apply IHb; [exact Hr|].
      pose proof (go_forward c a Hf p e He). lia.
  - apply andb_prop in Hr as [Ha Hb].
    now rewrite (IHa p Ha Hp), (IHb p Hb Hp).
  - now rewrite (IHa p Hr Hp).
  - apply flat_map_nil. intros x Hx.
    rewrite forallb_forall in Hr. specialize (Hr x Hx).
    destruct x as [|y x]; [discriminate|].
    rewrite skipn_all2 by exact Hp. reflexivity.
  - now apply Hc.
Qed.

Hypothesis defs_consuming : consuming defs = true.
Hypothesis defs_guarded : guarded defs = true.

Local Abbreviation handler fuel :=
  (fun q => match fuel with
            | 0 => []
            | S f =>
                let rs := run atomic_calls defs txt f defs q in
                if atomic_calls then firstn 1 rs else rs
            end).

Lemma run_defs_progressing (fuel : nat) :
  progressing (run atomic_calls defs txt fuel defs).
Proof.
  induction fuel as [|fuel IH]; simpl;
    apply go_progressing; try exact defs_consuming; intros q e.
  - intros [].
  - specialize (IH q e).
    destruct atomic_calls; [intros H; apply in_firstn_1 in H|]; auto.
Qed.

Lemma handler_progressing (fuel : nat) : progressing (handler fuel).
Proof.
  intros q e. destruct fuel as [|f]; [intros []|].
  pose proof (run_defs_progressing f q e) as H. cbv zeta.
  destruct atomic_calls; [intros H'; apply in_firstn_1 in H'|]; auto.
Qed.

Lemma run_defs_past_end (fuel q : nat) :
  length txt <= q -> run atomic_calls defs txt fuel defs q = [].
Proof.
  revert q; induction fuel as [|fuel IH]; intros q Hq; simpl.
  - apply go_past_end; auto. intros ? ? [].
  - apply go_past_end; auto.
    + intros x e H. apply (handler_progressing (S fuel)) in H. lia.
    + intros x Hx. rewrite (IH x Hx). now destruct atomic_calls.
Qed.

Lemma run_defs_stable (n : nat) :
  forall q fuel, length txt - q <= n -> n <= fuel ->
  run atomic_calls defs txt fuel defs q = run atomic_calls defs txt n defs q.
Proof.
  induction n as [|n IH]; intros q fuel Hq Hf.
  - rewrite !run_defs_past_end by lia. reflexivity.
  - destruct fuel as [|fuel]; [lia|]. simpl.
    apply go_ext_guarded; [apply (handler_progressing (S fuel))
                          |exact defs_guarded|].
    intros x Hx. now rewrite (IH x fuel) by lia.
Qed.

(** A bound above the length of the text gives the matches of
    [match_at]. *)
Theorem run_fuel_enough (r : re) (p fuel : nat) :
  length txt < fuel ->
  run atomic_calls defs txt fuel r p
  = run atomic_calls defs txt (S (length txt)) r p.
Proof.
  intros Hf. destruct fuel as [|fuel]; [lia|]. simpl.
  apply go_ext; [|intros q _].
  - intros q e H. apply (handler_progressing (S fuel)) in H. lia.
  - now rewrite (run_defs_stable (length txt) q fuel) by lia.
Qed.
End Depth.

(** The two token grammars call [TOKEN] only behind an opening bracket, and
    every alternative takes a character. *)
Lemma token_grammars_guarded :
  consuming Grammar.re_token = true /\ guarded Grammar.re_token = true
  /\ consuming Grammar.re_token_preproc = true
  /\ guarded Grammar.re_token_preproc = true.
Proof. split; [|split; [|split]]; vm_compute; reflexivity. Qed.

End RegexFacts.

(** ** The tokenizer *)

Module TokenFacts.

Import Props.

Lemma slice_app (x : str) (a b c : nat) :
  a <= b -> b <= c -> slice x a b ++ slice x b c = slice x a c.
Proof.
  intros Hab Hbc. unfold slice.
  replace (skipn b x) with (skipn (b - a) (skipn a x))
    by (rewrite skipn_skipn; f_equal; lia).
  replace (c - a) with ((b - a) + (c - b)) by lia.
  generalize (skipn a x) (b - a) (c - b). clear.
  intros l n; revert l; induction n as [|n IH]; intros [|y l] m; simpl;
    try reflexivity.
  - now rewrite firstn_nil.
  - now rewrite IH.
Qed.

Lemma slice_all (x : str) : slice x 0 (length x) = x.
Proof. unfold slice. simpl. rewrite Nat.sub_0_r. apply firstn_all. Qed.

Lemma slice_empty (x : str) (a : nat) : slice x a a = [].
Proof. unfold slice. now rewrite Nat.sub_diag. Qed.

Section Tokens.
Variable atomic_calls : bool.
Variable grammar : re.
Variable txt : str.

Lemma number_tokens_range (l : list (nat * nat)) (i : nat) :
  map range (number_tokens txt i l) = l.
Proof.
  revert i; induction l as [|[a b] l IH]; intros i; simpl;
    [reflexivity|now rewrite IH].
Qed.

Lemma number_tokens_idx (l : list (nat * nat)) (i : nat) :
  map idx (number_tokens txt i l) = seq i (length l).
Proof.
  revert i; induction l as [|[a b] l IH]; intros i; simpl;
    [reflexivity|now rewrite IH].
Qed.

Lemma number_tokens_value (l : list (nat * nat)) (i : nat) :
  Forall (fun t => value t = slice txt (fst (range t)) (snd (range t)))
         (number_tokens txt i l).
Proof.
  revert i; induction l as [|[a b] l IH]; intros i; simpl; constructor;
    [reflexivity|apply IH].
Qed.

Lemma number_tokens_concat (l : list (nat * nat)) (i lo hi : nat) :
  ordered_from txt lo l -> partitions lo l hi ->
  lo <= hi /\ concat (map value (number_tokens txt i l)) = slice txt lo hi.
Proof.
  revert i lo; induction l as [|[a b] l IH]; intros i lo; simpl.
  - intros _ <-. split; [lia|]. now rewrite slice_empty.
  - intros (_ & Hab & _ & Ho) (-> & Hp).
    destruct (IH (S i) b Ho Hp) as [Hb ->].
    split; [lia|]. apply slice_app; assumption.
Qed.

Lemma wellformed_loop_partitions (l : list (nat * nat)) (lo hi : nat) :
  wellformed_loop l lo = Some hi <-> partitions lo l hi.
Proof.
  revert lo; induction l as [|[a b] l IH]; intros lo; simpl.
  - split; [now intros [= ->]|now intros ->].
  - destruct (Nat.eqb_spec a lo) as [->|Hne]; simpl.
    + rewrite IH. tauto.
    + split; [discriminate|]. intros [H _]; contradiction.
Qed.

Lemma is_wellformed_partitions :
  is_wellformed atomic_calls grammar txt = true <->
  partitions 0 (reg_token_spans atomic_calls grammar txt) (length txt).
Proof.
  unfold is_wellformed. rewrite <- wellformed_loop_partitions.
  destruct (wellformed_loop _ 0) as [off|].
  - rewrite Nat.eqb_eq. split; [now intros ->|now intros [= ->]].
  - split; discriminate.
Qed.
End Tokens.

(** C1, as the code has it.  For every text and every token grammar the
    token ranges are in order, do not overlap and lie inside the text,
    each token carries the slice of the text at its range, and the tokens
    are numbered from 0.  The ranges partition the text exactly when the
    text passes the residue check [is_wellformed] of that grammar, and
    then the token texts concatenate to the text. *)
Theorem xFromText_ordered_partition_iff_wellformed
    (atomic_calls : bool) (grammar : re) (txt : str) :
  let tokens := xFromText atomic_calls grammar txt in
  ordered_from txt 0 (map range tokens)
  /\ Forall (fun t => value t = slice txt (fst (range t)) (snd (range t)))
            tokens
  /\ map idx tokens = seq 0 (length tokens)
  /\ (partitions 0 (map range tokens) (length txt)
      <-> is_wellformed atomic_calls grammar txt = true)
  /\ (partitions 0 (map range tokens) (length txt)
      -> concat (map value tokens) = txt).
Proof.
  unfold xFromText. simpl. rewrite number_tokens_range.
  assert (Ho : ordered_from txt 0 (reg_token_spans atomic_calls grammar txt))
    by apply RegexFacts.finditer_from_ordered.
  split; [|split; [|split; [|split; [split|]]]].
  - exact Ho.
  - apply number_tokens_value.
  - rewrite number_tokens_idx. f_equal.
    rewrite <- (number_tokens_range txt (reg_token_spans _ _ _) 0) at 1.
    now rewrite length_map.
  - apply is_wellformed_partitions.
  - apply is_wellformed_partitions.
  - intros Hp.
    destruct (number_tokens_concat txt _ 0 0 _ Ho Hp) as [_ ->].
    apply slice_all.
Qed.

(** The theorem at [f(a, b) ;], which every character of belongs to a
    token. *)
Lemma xFromText_ordered_partition_iff_wellformed_witness :
  partitions 0 (map range (xFromText true Grammar.re_token (s "f(a, b) ;")))
             (length (s "f(a, b) ;"))
  /\ concat (map value (xFromText true Grammar.re_token (s "f(a, b) ;")))
     = s "f(a, b) ;".
Proof.
  assert (H : partitions 0
                (map range (xFromText true Grammar.re_token (s "f(a, b) ;")))
                (length (s "f(a, b) ;"))).
  { vm_compute. repeat split. }
  split; [exact H|].
  exact (proj2 (proj2 (proj2 (proj2
           (xFromText_ordered_partition_iff_wellformed
              true Grammar.re_token (s "f(a, b) ;"))))) H).
Defined.

(** C1 as the specification states it fails: a closing bracket without its
    opening one starts no token and is skipped, so the ranges of the
    tokens of [a ) b] leave a gap and their texts concatenate to a
    different text.  Both grammars do so. *)
Lemma xFromText_gap :
  (forall atomic_calls,
     map range (xFromText atomic_calls Grammar.re_token (s "a ) b"))
     = [(0, 1); (1, 2); (3, 4); (4, 5)]
     /\ map range (xFromText atomic_calls Grammar.re_token_preproc
                             (s "a ) b"))
        = [(0, 1); (1, 2); (3, 4); (4, 5)])
  /\ ~ (forall atomic_calls txt,
          partitions 0
            (map range (xFromText atomic_calls Grammar.re_token txt))
            (length txt)
          /\ concat (map value (xFromText atomic_calls Grammar.re_token txt))
             = txt).
Proof.
  split.
  - intros []; split; vm_compute; reflexivity.
  - intros H. destruct (H true (s "a ) b")) as [_ H1].
    vm_compute in H1. discriminate.
Qed.

End TokenFacts.

(** ** The body of a macro definition *)

Module BodyFacts.

Lemma slice_length (x : str) (a b : nat) :
  length (slice x a b) = Nat.min (b - a) (length x - a).
Proof. unfold slice. now rewrite length_firstn, length_skipn. Qed.

Section SubLength.
Context {M : Type}.
Variable matcher : nat -> option M.
Variable stop : M -> nat.
Variable txt : str.
Variable repl : nat -> M -> str.

(** A substitution that gives each match a text of its own length keeps
    the length of the text. *)
Lemma sub_from_length (n p : nat) :
  (forall q m, matcher q = Some m ->
               length (repl q m) = length (slice txt q (stop m))) ->
  length txt - p <= n ->
  length (sub_from matcher stop txt repl n p) = length txt - p.
Proof.
  intros Hrepl. revert p; induction n as [|n IH]; intros p Hn; simpl.
  - lia.
  - destruct (nth_error txt p) as [c|] eqn:E.
    + assert (p < length txt) by (apply nth_error_Some; congruence).
      destruct (matcher p) as [m|] eqn:Em.
      * pose proof (Hrepl p m Em) as Hl. rewrite slice_length in Hl.
        destruct (Nat.ltb_spec p (stop m)).
        -- rewrite length_app, Hl, IH by lia. lia.
        -- rewrite length_app. simpl. rewrite Hl, IH by lia. lia.
      * simpl. rewrite IH by lia. lia.
    + apply nth_error_None in E. simpl. lia.
Qed.

Lemma sub_length :
  (forall q m, matcher q = Some m ->
               length (repl q m) = length (slice txt q (stop m))) ->
  length (sub matcher stop txt repl) = length txt.
Proof.
  intros H. unfold sub. rewrite sub_from_length by (assumption || lia). lia.
Qed.
End SubLength.

Lemma lstrip_length (x : str) : length (lstrip x) <= length x.
Proof.
  induction x as [|c x IH]; simpl; [lia|].
  destruct (py_isspace c); simpl; lia.
Qed.

Lemma lstrip_same (x : str) : length (lstrip x) = length x -> lstrip x = x.
Proof.
  destruct x as [|c x]; simpl; [reflexivity|].
  destruct (py_isspace c); [|reflexivity].
  pose proof (lstrip_length x). lia.
Qed.

Lemma rstrip_length (x : str) : length (rstrip x) <= length x.
Proof.
  unfold rstrip. rewrite length_rev.
  pose proof (lstrip_length (rev x)) as H. now rewrite length_rev in H.
Qed.

Lemma rstrip_same (x : str) : length (rstrip x) = length x -> rstrip x = x.
Proof.
  unfold rstrip. rewrite length_rev. intros H.
  rewrite lstrip_same by now rewrite length_rev.
  apply rev_involutive.
Qed.

Lemma strip_length (x : str) : length (strip x) <= length x.
Proof.
  unfold strip. pose proof (rstrip_length (lstrip x)).
  pose proof (lstrip_length x). lia.
Qed.

Lemma strip_same (x : str) : length (strip x) = length x <-> strip x = x.
Proof.
  split; [|now intros ->].
  unfold strip. intros H.
  pose proof (rstrip_length (lstrip x)). pose proof (lstrip_length x).
  assert (Hl : lstrip x = x) by (apply lstrip_same; lia).
  rewrite Hl in *. now apply rstrip_same.
Qed.

Lemma replace_from_length (old new : str) (skip : nat) (x : str) :
  length new = length old -> 1 <= length old -> skip <= length x ->
  length (replace_from old new skip x) = length x - skip.
Proof.
  intros Hlen Hold. revert skip; induction x as [|c x IH]; intros skip Hs;
    simpl; [lia|].
  destruct skip as [|k].
  - destruct (starts_with old (c :: x)) eqn:E.
    + apply RegexFacts.starts_with_length in E. simpl in E.
      rewrite length_app, IH by lia. lia.
    + simpl. rewrite IH by lia. lia.
  - simpl in Hs. rewrite IH by lia. lia.
Qed.

(** Turning an escaped line end into a space and a line end keeps the
    length. *)
Lemma continuation_length (b : str) :
  length (replace (bslash :: [nl]) (" "%char :: [nl]) b) = length b.
Proof.
  unfold replace. rewrite replace_from_length; simpl; lia.
Qed.

Section Clean.
Variable atomic_calls : bool.
Variable reg_clean : re.
Variable getTokenKind : str -> str.

Lemma blank_length (x : str) : length (Common.blank x) = length x.
Proof.
  unfold Common.blank. apply sub_length. intros q m.
  unfold match_plain, match_at, Common.reg_cr, none_of. simpl.
  destruct (nth_error x q) as [c|] eqn:E; [|discriminate].
  assert (q < length x) by (apply nth_error_Some; congruence).
  destruct (negb _); simpl; [|discriminate].
  intros [= <-]. rewrite slice_length. simpl. lia.
Qed.

(** [clean_text_sz] keeps the length of the text, whatever its pattern
    matches. *)
Lemma clean_text_sz_length (x : str) :
  length (Common.clean_text_sz atomic_calls reg_clean getTokenKind x)
  = length x.
Proof.
  unfold Common.clean_text_sz. apply sub_length. intros q m _.
  destruct (str_in _ _); [apply blank_length|reflexivity].
Qed.

(** The two rewriting steps of the body keep its length: the escaped
    line ends, and the blanking of the comments.  Between them the text
    is stripped of the white space at its two ends, so the stored body
    is never longer than the matched one, and has the same length
    exactly when there is nothing to strip. *)
Lemma normalize_body_length (b : str) :
  let clean := Common.clean_text_sz atomic_calls reg_clean getTokenKind in
  let joined := replace (bslash :: [nl]) (" "%char :: [nl]) b in
  length joined = length b
  /\ (forall x, length (clean x) = length x)
  /\ length (Macro.normalize_body clean b) <= length b
  /\ (length (Macro.normalize_body clean b) = length b
      <-> strip joined = joined).
Proof.
  simpl. unfold Macro.normalize_body.
  pose proof (continuation_length b) as Hj.
  pose proof (strip_length (replace (bslash :: [nl]) (" "%char :: [nl]) b)).
  split; [|split; [|split; [|split]]].
  - exact Hj.
  - apply clean_text_sz_length.
  - rewrite clean_text_sz_length. lia.
  - rewrite clean_text_sz_length. intros He. apply strip_same. lia.
  - rewrite clean_text_sz_length. intros ->. exact Hj.
Qed.
End Clean.

Lemma find_define_A_1 (getKind : Token -> str) :
  getKind Samples.define_A_1 = s "#" ->
  Macro.find_define getKind [Samples.define_A_1] None
  = Ok (Some (Samples.define_A_1,
              Macro.mkDefineMatch (8, 9) None (10, 12), None)).
Proof.
  intros Hk. cbn [Macro.find_define]. rewrite Hk. vm_compute; reflexivity.
Qed.

(** The white space that [strip] removes at the end: a directive token
    ends with its line end, the body group takes it, and [strip] removes
    it.  The stored body of [#define A 1] is one character long and its
    range two. *)
Lemma fromStatement_body_shorter :
  (forall atomic_calls getKind clean,
     (forall x, length (clean x) = length x) ->
     getKind Samples.define_A_1 = s "#" ->
     exists mp b,
       Macro.fromStatement atomic_calls getKind clean [Samples.define_A_1]
       = Ok (Some mp)
       /\ Macro.body mp = Some b
       /\ range b = (20, 22)
       /\ length (value b) = 1)
  /\ ~ (forall clean b,
          (forall x, length (clean x) = length x) ->
          length (Macro.normalize_body clean b) = length b).
Proof.
  split.
  - intros atomic_calls getKind clean Hclean Hk.
    unfold Macro.fromStatement. rewrite (find_define_A_1 getKind Hk).
    cbn [bind]. eexists; eexists.
    split; [reflexivity|].
    split; [reflexivity|].
    split; [reflexivity|].
    cbn [value]. unfold Macro.normalize_body. rewrite Hclean.
    vm_compute; reflexivity.
  - intros H. specialize (H (fun x => x) (s "1" ++ [nl]) (fun x => eq_refl)).
    vm_compute in H. discriminate.
Qed.

(** C9, at a body that starts with an escaped line end.  The body of
    [#define FOO(x) \] with [    do { x; } while (0)] on the next line
    goes from offset 15 to offset 41.  Line 101 of [macro.py] turns the
    escaped line end into a blank and a line end so as to keep the
    offsets, and [strip], on the same line, removes the two again with
    the four blanks behind them: the body is stored under the range
    (15, 41) with the 19 characters of the offsets 21 to 40, cleaned.
    What stands at the start of the range is another text, and an offset
    into the stored body is six characters off. *)
Theorem fromStatement_continuation_shifts_body (atomic_calls : bool)
    (getKind : Token -> str) (clean : str -> str) :
  str_in (getKind Samples.define_FOO) [s " "; s "/"] = false ->
  exists mp b,
    Macro.fromStatement atomic_calls getKind clean [Samples.define_FOO]
    = Ok (Some mp)
    /\ Macro.body mp = Some b
    /\ range b = (15, 41)
    /\ value b = clean (slice (value Samples.define_FOO) 21 40)
    /\ slice (value Samples.define_FOO) 21 40 = s "do { x; } while (0)"
    /\ slice (value Samples.define_FOO) 15 34
       <> slice (value Samples.define_FOO) 21 40
    /\ ((forall x, length (clean x) = length x) ->
        length (value b) = 19
        /\ length (value b) < snd (range b) - fst (range b)).
Proof.
  intros Hk. unfold str_in in Hk. cbn [existsb] in Hk.
  apply orb_false_elim in Hk as [Hk1 Hk2].
  apply orb_false_elim in Hk2 as [Hk2 _].
  assert (Hm : Macro.reg_define_match (value Samples.define_FOO)
               = Some (Macro.mkDefineMatch (8, 11) (Some (12, 13)) (15, 41)))
    by (vm_compute; reflexivity).
  assert (Hb : strip (replace (bslash :: [nl]) (" "%char :: [nl])
                        (slice (value Samples.define_FOO) 15 41))
               = slice (value Samples.define_FOO) 21 40)
    by (vm_compute; reflexivity).
  unfold Macro.fromStatement. cbn [Macro.find_define].
  unfold str_in. cbn [existsb]. rewrite Hk1, Hk2, Hm.
  rewrite andb_false_r. cbn [orb bind].
  eexists. eexists.
  split; [reflexivity|].
  split; [reflexivity|].
  split; [reflexivity|].
  cbn [value Macro.dm_body fst snd]. unfold Macro.normalize_body.
  rewrite Hb.
  split; [reflexivity|].
  split; [vm_compute; reflexivity|].
  split; [vm_compute; discriminate|].
  intros Hclean. rewrite Hclean. cbn [range fst snd].
  split; [vm_compute; reflexivity|vm_compute; lia].
Qed.

(** The theorem with the first character of a token for its kind and no
    cleaning. *)
Lemma fromStatement_continuation_shifts_body_witness :
  exists mp b,
    Macro.fromStatement true Samples.kind_by_first_char (fun x => x)
                        [Samples.define_FOO]
    = Ok (Some mp)
    /\ Macro.body mp = Some b
    /\ range b = (15, 41)
    /\ value b = slice (value Samples.define_FOO) 21 40.
Proof.
  destruct (fromStatement_continuation_shifts_body true
              Samples.kind_by_first_char (fun x => x) eq_refl)
    as (mp & b & H1 & H2 & H3 & H4 & _).
  exists mp, b. split; [exact H1|]. split; [exact H2|].
  split; [exact H3|exact H4].
Defined.

End BodyFacts.

(** ** Macro expansion *)

Module ExpandFacts.

Import Samples Props.

(** C10.  With no macro in the registry [expand] returns its text, and
    leaves the registry's errors as they are. *)
Theorem expand_empty_registry (atomic_calls : bool)
    (errs : list Macro.arity_error) (fuel : nat) (txt : str) :
  Macro.expand atomic_calls (Macro.mkMacros [] errs) fuel txt = Ok txt
  /\ Macro.expand_run atomic_calls (Macro.mkMacros [] errs) fuel txt
     = Ok (txt, errs).
Proof. split; reflexivity. Qed.

(** *** The recursion guard *)

(** A name that is being expanded is left as it stands, by both
    callbacks. *)
Lemma in_use_left_untouched (self : Macro.Macros)
    (rec : str -> Macro.state -> result (str * Macro.state))
    (nm whole lst : str) (st : Macro.state) :
  str_in nm (Macro.in_use st) = true ->
  Macro.expand_obj_like self rec nm whole st = Ok (whole, st)
  /\ Macro.expand_fn_like true self rec nm whole lst st = Ok (whole, st)
  /\ Macro.expand_fn_like false self rec nm whole lst st = Ok (whole, st).
Proof.
  intros H. unfold Macro.expand_obj_like, Macro.expand_fn_like.
  now rewrite H.
Qed.

(** C2 at its example.  With [#define A A] as the only macro the pattern
    of [expand] has no group [args]; the function given to [sub] reads
    that group at the first match, and the lookup raises [IndexError]
    where the specification has the text returned unchanged. *)
Theorem expand_self_reference_alone_raises (atomic_calls : bool) (fuel : nat) :
  Macro.expand atomic_calls (registry [object_like atomic_calls "A" "A"])
               (S fuel) (s "x A y")
  = Raise IndexError.
Proof. destruct atomic_calls; vm_compute; reflexivity. Qed.

(** With a function-like macro in the registry as well, the guard does
    what the specification says: the inner [A] stays. *)
Lemma expand_self_reference_guarded (atomic_calls : bool) (fuel : nat) :
  Macro.expand atomic_calls
    (registry [object_like atomic_calls "A" "A";
               function_like atomic_calls "ID" ["x"] "x"])
    (2 + fuel) (s "x A y")
  = Ok (s "x A y").
Proof. destruct atomic_calls; vm_compute; reflexivity. Qed.

(** *** The field [is_wellformed] *)

Lemma sub_st_from_ext {M S : Type} (matcher : nat -> option M)
    (stop : M -> nat) (txt : str)
    (f g : nat -> M -> S -> result (str * S)) (n p : nat) (st : S) :
  (forall q m st', f q m st' = g q m st') ->
  sub_st_from matcher stop txt f n p st = sub_st_from matcher stop txt g n p st.
Proof.
  intros H. revert p st; induction n as [|n IH]; intros p st; simpl;
    [reflexivity|].
  destruct (nth_error txt p); [|reflexivity].
  destruct (matcher p) as [m|].
  - rewrite H. destruct (g p m st) as [[x st1]| |]; simpl; try reflexivity.
    destruct (p <? stop m); now rewrite IH.
  - now rewrite IH.
Qed.

Section Reflag.
Variable atomic_calls : bool.
Variable f : Macro.MacroParts -> bool.
Variable self : Macro.Macros.

Lemma lookup_reflag (nm : str) :
  Macro.lookup nm (Macro.macros (reflag f self))
  = option_map (fun m => with_flag (f m) m)
               (Macro.lookup nm (Macro.macros self)).
Proof.
  unfold reflag; simpl.
  induction (Macro.macros self) as [|[k v] d IH]; simpl; [reflexivity|].
  destruct (str_eqb nm k); [reflexivity|exact IH].
Qed.

Lemma obj_like_names_reflag :
  Macro.obj_like_names (reflag f self) = Macro.obj_like_names self.
Proof.
  unfold Macro.obj_like_names, reflag; simpl.
  induction (Macro.macros self) as [|[k v] d IH]; simpl; [reflexivity|].
  destruct (Macro.args v); simpl; now rewrite IH.
Qed.

Lemma fn_like_names_reflag :
  Macro.fn_like_names (reflag f self) = Macro.fn_like_names self.
Proof.
  unfold Macro.fn_like_names, reflag; simpl.
  induction (Macro.macros self) as [|[k v] d IH]; simpl; [reflexivity|].
  destruct (Macro.args v); simpl; now rewrite IH.
Qed.

Section Callbacks.
Variables rec1 rec2 : str -> Macro.state -> result (str * Macro.state).
Hypothesis Hrec : forall x st, rec1 x st = rec2 x st.

Lemma expand_args_ext (d : Macro.arg_dict) (st : Macro.state) :
  Macro.expand_args rec1 d st = Macro.expand_args rec2 d st.
Proof.
  revert st; induction d as [|[k v] d IH]; intros st; simpl;
    [reflexivity|].
  rewrite Hrec. destruct (rec2 v st) as [[v' st1]| |]; simpl;
    try reflexivity.
  now rewrite IH.
Qed.

Lemma expand_obj_like_reflag (nm whole : str) (st : Macro.state) :
  Macro.expand_obj_like (reflag f self) rec1 nm whole st
  = Macro.expand_obj_like self rec2 nm whole st.
Proof.
  unfold Macro.expand_obj_like. rewrite lookup_reflag.
  destruct (str_in nm (Macro.in_use st)); [reflexivity|].
  destruct (Macro.lookup nm (Macro.macros self)) as [m|]; simpl;
    [|reflexivity].
  destruct (Macro.body m); [|reflexivity]. now rewrite Hrec.
Qed.

Lemma expand_fn_like_reflag (nm whole lst : str) (st : Macro.state) :
  Macro.expand_fn_like atomic_calls (reflag f self) rec1 nm whole lst st
  = Macro.expand_fn_like atomic_calls self rec2 nm whole lst st.
Proof.
  unfold Macro.expand_fn_like. rewrite lookup_reflag.
  destruct (str_in nm (Macro.in_use st)); [reflexivity|].
  destruct (Macro.lookup nm (Macro.macros self)) as [m|]; simpl;
    [|reflexivity].
  destruct (Macro.body m) as [b|]; [|reflexivity].
  destruct (Macro.args m) as [params|]; [|reflexivity].
  destruct (_ <? _); [reflexivity|].
  destruct params as [|k params].
  - simpl. now rewrite Hrec.
  - rewrite expand_args_ext.
    destruct (Macro.expand_args rec2 _ st) as [[d st1]| |]; simpl;
      try reflexivity.
    now rewrite Hrec.
Qed.

Lemma expand_match_reflag (txt : str) (p : nat) (m : Macro.name_match)
    (st : Macro.state) :
  Macro.expand_match atomic_calls (reflag f self) rec1 txt p m st
  = Macro.expand_match atomic_calls self rec2 txt p m st.
Proof.
  unfold Macro.expand_match. rewrite fn_like_names_reflag.
  destruct (Macro.fn_like_names self); [reflexivity|].
  destruct m; [reflexivity| |].
  - apply expand_obj_like_reflag.
  - apply expand_fn_like_reflag.
Qed.
End Callbacks.

Lemma expand_fragment_reflag (fuel : nat) (txt : str) (st : Macro.state) :
  Macro.expand_fragment atomic_calls (reflag f self) fuel txt st
  = Macro.expand_fragment atomic_calls self fuel txt st.
Proof.
  revert txt st; induction fuel as [|fuel IH]; intros txt st; simpl;
    [reflexivity|].
  rewrite obj_like_names_reflag, fn_like_names_reflag.
  unfold sub_st. apply sub_st_from_ext.
  intros q m st'. apply expand_match_reflag. exact IH.
Qed.

(** C5, as the code has it.  [is_wellformed] is computed when the macro
    is made and [expand] never reads it: whatever the field holds, the
    text returned and the errors recorded are the same, so a body that
    does not tokenize without residue is expanded like any other. *)
Theorem expand_ignores_is_wellformed (fuel : nat) (txt : str) :
  Macro.expand_run atomic_calls (reflag f self) fuel txt
  = Macro.expand_run atomic_calls self fuel txt
  /\ Macro.expand atomic_calls (reflag f self) fuel txt
     = Macro.expand atomic_calls self fuel txt.
Proof.
  assert (H : Macro.expand_run atomic_calls (reflag f self) fuel txt
              = Macro.expand_run atomic_calls self fuel txt).
  { unfold Macro.expand_run. rewrite expand_fragment_reflag.
    unfold reflag; simpl. destruct (Macro.macros self); reflexivity. }
  split; [exact H|]. unfold Macro.expand. now rewrite H.
Qed.
End Reflag.

(** C5 as the specification states it fails: the body [x )] of [M] has an
    unmatched bracket and the field is [False], yet [M(1)] is expanded
    with its argument put in place, not to the text of the body. *)
Lemma malformed_body_substituted :
  (forall atomic_calls,
     Macro.is_wellformed_flag (function_like atomic_calls "M" ["x"] "x )")
     = false)
  /\ (forall atomic_calls fuel,
        Macro.expand atomic_calls
          (registry [function_like atomic_calls "M" ["x"] "x )"])
          (2 + fuel) (s "M(1)")
        = Ok (s "1 )"))
  /\ ~ (forall atomic_calls fuel,
          Macro.expand atomic_calls
            (registry [function_like atomic_calls "M" ["x"] "x )"])
            (2 + fuel) (s "M(1)")
          = Ok (s "x )")).
Proof.
  split; [|split].
  - intros []; vm_compute; reflexivity.
  - intros [] fuel; vm_compute; reflexivity.
  - intros H. specialize (H true 0). vm_compute in H. discriminate.
Qed.

(** *** Too few arguments *)

Lemma match_plain_chr (c : ascii) (txt : str) (p e : nat) :
  match_plain (Chr c) txt p = Some e -> e = S p /\ p < length txt.
Proof.
  unfold match_plain, match_at. simpl.
  destruct (nth_error txt p) as [d|] eqn:E; [|discriminate].
  assert (p < length txt) by (apply nth_error_Some; congruence).
  destruct (ascii_eqb c d); simpl; [|discriminate].
  intros [= <-]. split; [reflexivity|assumption].
Qed.

Section Call.
Variable atomic_calls : bool.
Variable objs fns : list str.
Variable txt : str.

Lemma match_args_bounds (e1 ls le e : nat) :
  e1 <= length txt ->
  Macro.match_args atomic_calls txt e1 = Some (ls, le, e) ->
  e1 <= ls /\ ls <= le /\ e = S le /\ le < length txt.
Proof.
  unfold Macro.match_args. intros He1.
  destruct (match_plain _ txt e1) as [ls'|] eqn:E1; [|discriminate].
  apply RegexFacts.match_at_bounded in E1; [|exact He1].
  destruct (match_at atomic_calls _ txt _ ls') as [le'|] eqn:E2;
    [|discriminate].
  apply RegexFacts.match_at_bounded in E2; [|lia].
  destruct (match_plain (Chr ")") txt le') as [e'|] eqn:E3; [|discriminate].
  apply match_plain_chr in E3. intros [= <- <- <-]. lia.
Qed.

Lemma first_call_bounds (p : nat) (ends : list nat) (nm : str)
    (ls le e : nat) :
  (forall e1, In e1 ends -> p <= e1 <= length txt) ->
  Macro.first_call atomic_calls txt p ends = Some (Macro.MFn nm ls le e) ->
  p <= ls /\ ls <= le /\ e = S le /\ le < length txt.
Proof.
  induction ends as [|e1 ends IH]; simpl; intros Hb; [discriminate|].
  destruct (Macro.match_args atomic_calls txt e1) as [[[ls' le'] e']|] eqn:E.
  - intros [= _ <- <- <-].
    apply match_args_bounds in E; [|apply Hb; now left].
    specialize (Hb e1 (or_introl eq_refl)). lia.
  - apply IH. intros x Hx. apply Hb. now right.
Qed.

(** A match of a call lies inside the text, and there is a
    function-like macro. *)
Lemma names_reg_match_call (p : nat) (nm : str) (ls le e : nat) :
  p <= length txt ->
  Macro.names_reg_match atomic_calls objs fns txt p
  = Some (Macro.MFn nm ls le e) ->
  p < e /\ e <= length txt /\ fns <> [].
Proof.
  unfold Macro.names_reg_match. intros Hp.
  destruct (match_plain Macro.skipped txt p); [discriminate|].
  destruct (match objs with [] => None | _ => _ end); [discriminate|].
  destruct fns as [|f0 fns']; [discriminate|].
  intros H. apply first_call_bounds in H.
  - split; [lia|]. split; [lia|discriminate].
  - intros e1. apply RegexFacts.run_bounded. exact Hp.
Qed.
End Call.

(** One step of the scan at a call with too few arguments.  Take a match
    of a call of a function-like macro that has a body and is not being
    expanded.  When the argument list splits into fewer arguments than
    the macro has parameters, the text of the call goes to the output as
    it stands, one error is recorded with the two counts, and the
    substitution goes on behind the call with that state. *)
Lemma too_few_arguments_step (atomic_calls : bool)
    (self : Macro.Macros) (fuel : nat) (txt : str) (n p : nat) (nm : str)
    (ls le e : nat) (macro : Macro.MacroParts) (params : list Token)
    (b : Token) (st : Macro.state) :
  let matcher :=
    Macro.names_reg_match atomic_calls (Macro.obj_like_names self)
                          (Macro.fn_like_names self) txt in
  let repl :=
    Macro.expand_match atomic_calls self
      (Macro.expand_fragment atomic_calls self fuel) txt in
  let got :=
    length (Macro.parse_args (length params) (Macro.is_va_args macro)
              (xFromText atomic_calls Grammar.re_token (slice txt ls le))
              [[]]) in
  p <= length txt ->
  matcher p = Some (Macro.MFn nm ls le e) ->
  Macro.lookup nm (Macro.macros self) = Some macro ->
  Macro.args macro = Some params ->
  Macro.body macro = Some b ->
  str_in nm (Macro.in_use st) = false ->
  got < length params ->
  sub_st_from matcher Macro.name_match_end txt repl (S n) p st
  = (let* '(r, st') :=
       sub_st_from matcher Macro.name_match_end txt repl n e
         (Macro.record_error
            (Macro.mkArityError nm got (length params)) st) in
     Ok (slice txt p e ++ r, st')).
Proof.
  intros matcher repl got Hp Hm Hl Ha Hb Hu Hg.
  destruct (names_reg_match_call atomic_calls _ _ txt p nm ls le e Hp Hm)
    as (Hpe & He & Hfn).
  cbn [sub_st_from].
  destruct (nth_error txt p) as [c|] eqn:E;
    [|apply nth_error_None in E; lia].
  fold matcher. rewrite Hm. cbn [Macro.name_match_end].
  unfold repl at 1, Macro.expand_match.
  destruct (Macro.fn_like_names self) as [|f0 fns]; [contradiction|].
  unfold Macro.expand_fn_like. rewrite Hu, Hl, Hb, Ha.
  fold got. destruct (Nat.ltb_spec got (length params)); [|lia].
  cbn [bind Macro.name_match_end].
  destruct (Nat.ltb_spec p e); [reflexivity|lia].
Qed.

(** The same from end to end: the call with one argument stays, the error
    is recorded, and the call behind it is expanded. *)
Lemma too_few_arguments_example (atomic_calls : bool) (fuel : nat) :
  Macro.expand_run atomic_calls
    (registry [function_like atomic_calls "M" ["a"; "b"] "a b"])
    (2 + fuel) (s "M(1) M(2,3)")
  = Ok (s "M(1) 2 3", [Macro.mkArityError (s "M") 1 2]).
Proof. destruct atomic_calls; vm_compute; reflexivity. Qed.


(** *** The bound on the recursion

    [expand_fragment] is cut off by its bound only when the bound is too
    small: for every registry, text and state there is a bound from which
    on it has one outcome, a text or an exception.  The recursion ends
    because an argument is shorter than the text of its call, and because
    a body is expanded with one more macro in [_in_use]. *)

Lemma str_eqb_eq (a b : str) : str_eqb a b = true <-> a = b.
Proof.
  revert b; induction a as [|x a IH]; intros [|y b]; simpl; split;
    try congruence; try discriminate.
  - intros H. apply andb_prop in H as [H1 H2].
    apply Ascii.eqb_eq in H1. apply IH in H2. congruence.
  - intros [= -> ->]. unfold ascii_eqb. rewrite Ascii.eqb_refl. simpl.
    now apply IH.
Qed.

Lemma str_in_false (nm : str) (l : list str) :
  str_in nm l = false ->
  List.filter (fun x => negb (str_eqb nm x)) l = l.
Proof.
  unfold str_in. induction l as [|x l IH]; simpl; [reflexivity|].
  intros H. apply orb_false_elim in H as [H1 H2].
  rewrite H1. simpl. now rewrite IH.
Qed.

Lemma avail_le (self : Macro.Macros) (nm : str) (used : list str) :
  avail self (nm :: used) <= avail self used.
Proof.
  unfold avail. induction (map fst (Macro.macros self)) as [|k l IH];
    simpl in *; [lia|].
  destruct (str_eqb k nm); simpl.
  - destruct (negb (str_in k used)); simpl; lia.
  - destruct (negb (str_in k used)); simpl; lia.
Qed.

Lemma avail_enter (self : Macro.Macros) (nm : str) (m : Macro.MacroParts)
    (used : list str) :
  Macro.lookup nm (Macro.macros self) = Some m ->
  str_in nm used = false ->
  avail self (nm :: used) < avail self used.
Proof.
  unfold avail. induction (Macro.macros self) as [|[k v] d IH]; simpl;
    [discriminate|].
  intros Hl Hu. destruct (str_eqb nm k) eqn:E.
  - apply str_eqb_eq in E. subst k.
    assert (Hr : str_eqb nm nm = true) by now apply str_eqb_eq.
    rewrite Hr, Hu. simpl.
    pose proof (avail_le (Macro.mkMacros d []) nm used) as H.
    unfold avail in H. simpl in H. lia.
  - specialize (IH Hl Hu). simpl in IH.
    destruct (str_eqb k nm); simpl.
    + destruct (negb (str_in k used)); simpl; lia.
    + destruct (negb (str_in k used)); simpl; lia.
Qed.

Lemma leave_enter (nm : str) (st st1 : Macro.state) :
  str_in nm (Macro.in_use st) = false ->
  Macro.in_use st1 = Macro.in_use (Macro.enter nm st) ->
  exists st2, Macro.leave nm st1 = Ok st2
              /\ Macro.in_use st2 = Macro.in_use st.
Proof.
  intros Hu H1. unfold Macro.enter in H1. rewrite Hu in H1. simpl in H1.
  unfold Macro.leave. rewrite H1.
  assert (Hr : str_eqb nm nm = true) by now apply str_eqb_eq.
  unfold str_in at 1. simpl. rewrite Hr. simpl.
  eexists. split; [reflexivity|]. simpl.
  now apply str_in_false.
Qed.

Section SubSettles.
Context {M : Type}.
Variable matcher : nat -> option M.
Variable stop : M -> nat.
Variable txt : str.
Variable cb : nat -> nat -> M -> Macro.state -> result (str * Macro.state).
Variable used : list str.

Hypothesis cb_settles :
  forall p m st, p < length txt -> matcher p = Some m ->
                 Macro.in_use st = used ->
  exists r, settles_to (fun fuel => cb fuel p m st) r
            /\ keeps_in_use used r.

Lemma sub_st_from_settles (n p : nat) (st : Macro.state) :
  Macro.in_use st = used ->
  exists r,
    settles_to (fun fuel => sub_st_from matcher stop txt (cb fuel) n p st) r
    /\ keeps_in_use used r.
Proof.
  revert p st; induction n as [|n IH]; intros p st Hu.
  - exists (Ok ([], st)). split; [now exists 0|exact Hu].
  - simpl. destruct (nth_error txt p) as [c|] eqn:E.
    2:{ exists (Ok ([], st)). split; [now exists 0|exact Hu]. }
    assert (Hp : p < length txt) by (apply nth_error_Some; congruence).
    destruct (matcher p) as [m|] eqn:Em.
    + destruct (cb_settles p m st Hp Em Hu) as (r1 & (N1 & H1) & K1).
      destruct r1 as [[x st1]|e|]; simpl in K1; [| |contradiction].
      * destruct (IH (if p <? stop m then stop m else S p) st1 K1)
          as (r2 & (N2 & H2) & K2).
        destruct (p <? stop m).
        -- exists (let* '(r, st2) := r2 in Ok (x ++ r, st2)). split.
           ++ exists (Nat.max N1 N2). intros fuel Hf.
              rewrite H1 by lia. cbn [bind]. rewrite H2 by lia.
              reflexivity.
           ++ destruct r2 as [[y st2]|e|]; simpl in *; auto.
        -- exists (let* '(r, st2) := r2 in Ok (x ++ c :: r, st2)). split.
           ++ exists (Nat.max N1 N2). intros fuel Hf.
              rewrite H1 by lia. cbn [bind]. rewrite H2 by lia.
              reflexivity.
           ++ destruct r2 as [[y st2]|e|]; simpl in *; auto.
      * exists (Raise e). split; [|exact I].
        exists N1. intros fuel Hf. now rewrite H1.
    + destruct (IH (S p) st Hu) as (r & (N & H) & K).
      exists (let* '(r0, st') := r in Ok (c :: r0, st')). split.
      * exists N. intros fuel Hf. now rewrite H.
      * destruct r as [[y st2]|e|]; simpl in *; auto.
Qed.
End SubSettles.

(** The arguments of a call are no longer than its argument list. *)

Lemma spans_total (txt : str) (lo : nat) (l : list (nat * nat)) :
  ordered_from txt lo l ->
  list_sum (map (fun t => length (slice txt (fst t) (snd t))) l)
  <= length txt - lo.
Proof.
  revert lo; induction l as [|[a b] l IH]; intros lo; simpl; [lia|].
  intros (Hlo & Hab & Hb & Ho). specialize (IH b Ho).
  rewrite BodyFacts.slice_length. lia.
Qed.

Lemma number_tokens_lengths (txt : str) (i : nat) (l : list (nat * nat)) :
  map (fun t => length (value t)) (number_tokens txt i l)
  = map (fun t => length (slice txt (fst t) (snd t))) l.
Proof.
  revert i; induction l as [|[a b] l IH]; intros i; simpl;
    [reflexivity|now rewrite IH].
Qed.

Lemma tokens_total (atomic_calls : bool) (grammar : re) (txt : str) :
  list_sum (map (fun t => length (value t))
                (xFromText atomic_calls grammar txt))
  <= length txt.
Proof.
  unfold xFromText. rewrite number_tokens_lengths.
  pose proof (spans_total txt 0 (reg_token_spans atomic_calls grammar txt)
                (RegexFacts.finditer_from_ordered _ _ _ _ _ _)).
  lia.
Qed.

Lemma weight_cons (v : list Token) (l : list (list Token)) :
  weight (v :: l) = length (concat (map value v)) + weight l.
Proof. reflexivity. Qed.

Lemma weight_append_last (l : list (list Token)) (t : Token) :
  weight (Macro.append_last l t) <= weight l + length (value t).
Proof.
  induction l as [|a l IH]; [unfold weight; simpl; lia|].
  destruct l as [|b l].
  - unfold weight. simpl. rewrite map_app, concat_app, length_app.
    simpl. rewrite app_nil_r. lia.
  - change (Macro.append_last (a :: b :: l) t)
      with (a :: Macro.append_last (b :: l) t).
    rewrite !weight_cons in *. lia.
Qed.

Lemma weight_new_argument (l : list (list Token)) :
  weight (l ++ [[]]) = weight l.
Proof.
  unfold weight. rewrite map_app, list_sum_app. simpl. lia.
Qed.

Lemma parse_args_weight (nparams : nat) (va : bool) (tokens : list Token)
    (args_val : list (list Token)) :
  weight (Macro.parse_args nparams va tokens args_val)
  <= weight args_val + list_sum (map (fun t => length (value t)) tokens).
Proof.
  revert args_val; induction tokens as [|t tokens IH]; intros args_val;
    simpl; [lia|].
  pose proof (weight_append_last args_val t).
  pose proof (weight_new_argument args_val).
  destruct (str_eqb (value t) _).
  - destruct (length args_val <? nparams).
    + specialize (IH (args_val ++ [[]])). lia.
    + destruct va; simpl; [|lia].
      specialize (IH (Macro.append_last args_val t)). lia.
  - specialize (IH (Macro.append_last args_val t)). lia.
Qed.

Lemma arg_set_in (k v k' v' : str) (d : Macro.arg_dict) :
  In (k', v') (Macro.arg_set k v d) -> (k', v') = (k, v) \/ In (k', v') d.
Proof.
  induction d as [|[k0 v0] d IH]; simpl.
  - intros [H|[]]. now left.
  - destruct (str_eqb k k0); simpl.
    + intros [H|H]; [now left|right; now right].
    + intros [H|H]; [right; now left|].
      destruct (IH H); [now left|right; now right].
Qed.

Lemma make_args_dict_values (params : list Token)
    (args_val : list (list Token)) (d : Macro.arg_dict) (k v : str) :
  In (k, v) (Macro.make_args_dict params args_val d) ->
  In (k, v) d \/ length v <= weight args_val.
Proof.
  revert args_val d; induction params as [|p params IH];
    intros [|a args_val] d; simpl; try (intros H; now left).
  intros H. apply IH in H. rewrite weight_cons.
  destruct H as [H|H]; [|right; lia].
  apply arg_set_in in H as [[= -> ->]|H]; [right|now left].
  pose proof (BodyFacts.strip_length (concat (map value a))). lia.
Qed.

Section Settle.
Variable atomic_calls : bool.
Variable self : Macro.Macros.

Local Abbreviation F := (Macro.expand_fragment atomic_calls self).

Local Abbreviation returns := (Props.returns atomic_calls self).

Lemma expand_args_settles (used : list str) (d : Macro.arg_dict) :
  (forall k v, In (k, v) d -> returns used v) ->
  forall st, Macro.in_use st = used ->
  exists r, settles_to (fun fuel => Macro.expand_args (F fuel) d st) r
            /\ keeps_in_use used r.
Proof.
  induction d as [|[k v] d IH]; intros Hd st Hu.
  - exists (Ok ([], st)). split; [now exists 0|exact Hu].
  - destruct (Hd k v (or_introl eq_refl) st Hu) as (r1 & (N1 & H1) & K1).
    destruct r1 as [[v' st1]|e|]; simpl in K1; [| |contradiction].
    + destruct (IH (fun k0 v0 H => Hd k0 v0 (or_intror H)) st1 K1)
        as (r2 & (N2 & H2) & K2).
      exists (let* '(r, st2) := r2 in Ok ((k, v') :: r, st2)). split.
      * exists (Nat.max N1 N2). intros fuel Hf. simpl.
        rewrite H1 by lia. cbn [bind]. rewrite H2 by lia. reflexivity.
      * destruct r2 as [[y st2]|e|]; simpl in *; auto.
    + exists (Raise e). split; [|exact I].
      exists N1. intros fuel Hf. simpl. now rewrite H1.
Qed.

(** The expansion of a body with [nm] added to [_in_use]. *)
Lemma reexpand_settles (used : list str) (nm : str)
    (m : Macro.MacroParts) (x : str) :
  Macro.lookup nm (Macro.macros self) = Some m ->
  str_in nm used = false ->
  (forall used' txt', avail self used' < avail self used ->
                      returns used' txt') ->
  forall st, Macro.in_use st = used ->
  exists r,
    settles_to
      (fun fuel =>
         let* '(replacement, st1) := F fuel x (Macro.enter nm st) in
         let* st2 := Macro.leave nm st1 in
         Ok (replacement, st2)) r
    /\ keeps_in_use used r.
Proof.
  intros Hl Hn IH st Hu.
  assert (He : Macro.in_use (Macro.enter nm st) = nm :: used).
  { unfold Macro.enter. simpl. now rewrite Hu, Hn. }
  destruct (IH (nm :: used) x (avail_enter self nm m used Hl Hn)
               (Macro.enter nm st) He) as (r1 & (N1 & H1) & K1).
  destruct r1 as [[y st1]|e|]; simpl in K1; [| |contradiction].
  - destruct (leave_enter nm st st1) as (st2 & L1 & L2);
      [now rewrite Hu|now rewrite He|].
    exists (Ok (y, st2)). split.
    + exists N1. intros fuel Hf. rewrite H1 by lia. cbn [bind].
      now rewrite L1.
    + simpl. now rewrite L2.
  - exists (Raise e). split; [|exact I].
    exists N1. intros fuel Hf. now rewrite H1.
Qed.
End Settle.

Section Returns.
Variable atomic_calls : bool.
Variable self : Macro.Macros.

Local Abbreviation F := (Macro.expand_fragment atomic_calls self).
Local Abbreviation returns := (Props.returns atomic_calls self).

Variable used : list str.
Variable txt : str.

Hypothesis IH_used :
  forall used' txt', avail self used' < avail self used ->
                     returns used' txt'.
Hypothesis IH_txt :
  forall txt', length txt' < length txt -> returns used txt'.

Lemma expand_obj_like_settles (nm whole : str) (st : Macro.state) :
  Macro.in_use st = used ->
  exists r,
    settles_to (fun fuel => Macro.expand_obj_like self (F fuel) nm whole st)
               r
    /\ keeps_in_use used r.
Proof.
  intros Hu. unfold Macro.expand_obj_like.
  destruct (str_in nm (Macro.in_use st)) eqn:Hn.
  { exists (Ok (whole, st)). split; [now exists 0|exact Hu]. }
  destruct (Macro.lookup nm (Macro.macros self)) as [m|] eqn:Hl.
  2:{ exists (Raise KeyError). split; [now exists 0|exact I]. }
  destruct (Macro.body m) as [b|].
  2:{ exists (Ok ([], st)). split; [now exists 0|exact Hu]. }
  rewrite Hu in Hn.
  exact (reexpand_settles atomic_calls self used nm m (value b) Hl Hn
           IH_used st Hu).
Qed.

Lemma expand_fn_like_settles (nm whole lst : str) (st : Macro.state) :
  length lst < length txt ->
  Macro.in_use st = used ->
  exists r,
    settles_to
      (fun fuel =>
         Macro.expand_fn_like atomic_calls self (F fuel) nm whole lst st) r
    /\ keeps_in_use used r.
Proof.
  intros Hlst Hu. unfold Macro.expand_fn_like.
  destruct (str_in nm (Macro.in_use st)) eqn:Hn.
  { exists (Ok (whole, st)). split; [now exists 0|exact Hu]. }
  destruct (Macro.lookup nm (Macro.macros self)) as [m|] eqn:Hl.
  2:{ exists (Raise KeyError). split; [now exists 0|exact I]. }
  destruct (Macro.body m) as [b|].
  2:{ exists (Ok ([], st)). split; [now exists 0|exact Hu]. }
  destruct (Macro.args m) as [params|].
  2:{ exists (Raise TypeError). split; [now exists 0|exact I]. }
  set (args_val := Macro.parse_args _ _ _ _).
  destruct (length args_val <? length params).
  { eexists. split; [now exists 0|exact Hu]. }
  rewrite Hu in Hn.
  destruct params as [|p0 params].
  - cbn [bind].
    exact (reexpand_settles atomic_calls self used nm m (value b) Hl Hn
             IH_used st Hu).
  - set (args_dict := Macro.make_args_dict _ _ _).
    assert (Hd : forall k v, In (k, v) args_dict -> returns used v).
    { intros k v Hin. apply IH_txt.
      apply make_args_dict_values in Hin as [[]|Hin].
      pose proof (parse_args_weight (length (p0 :: params))
                    (Macro.is_va_args m)
                    (xFromText atomic_calls Grammar.re_token lst) [[]]).
      pose proof (tokens_total atomic_calls Grammar.re_token lst).
      fold args_val in H. unfold weight at 2 in H. simpl in H. lia. }
    destruct (expand_args_settles atomic_calls self used args_dict Hd st Hu)
      as (r1 & (N1 & H1) & K1).
    destruct r1 as [[ade st1]|e|]; simpl in K1; [| |contradiction].
    + destruct (reexpand_settles atomic_calls self used nm m
                  (Macro.substitute args_dict ade (value b)) Hl Hn
                  IH_used st1 K1) as (r2 & (N2 & H2) & K2).
      exists r2. split; [|exact K2].
      exists (Nat.max N1 N2). intros fuel Hf.
      rewrite H1 by lia. cbn [bind]. now rewrite H2 by lia.
    + exists (Raise e). split; [|exact I].
      exists N1. intros fuel Hf. now rewrite H1.
Qed.

Lemma expand_match_settles (p : nat) (m : Macro.name_match)
    (st : Macro.state) :
  p < length txt ->
  Macro.names_reg_match atomic_calls (Macro.obj_like_names self)
                        (Macro.fn_like_names self) txt p = Some m ->
  Macro.in_use st = used ->
  exists r,
    settles_to
      (fun fuel => Macro.expand_match atomic_calls self (F fuel) txt p m st)
      r
    /\ keeps_in_use used r.
Proof.
  intros Hp Hm Hu. unfold Macro.expand_match.
  destruct (Macro.fn_like_names self) as [|f0 fns] eqn:Hfn.
  { exists (Raise IndexError). split; [now exists 0|exact I]. }
  destruct m as [e|nm e|nm ls le e].
  - eexists. split; [now exists 0|exact Hu].
  - now apply expand_obj_like_settles.
  - apply expand_fn_like_settles; [|exact Hu].
    rewrite <- Hfn in Hm.
    destruct (names_reg_match_call atomic_calls _ _ txt p nm ls le e
                ltac:(lia) Hm) as (Hpe & He & _).
    unfold Macro.names_reg_match in Hm.
    destruct (match_plain Macro.skipped txt p); [discriminate|].
    destruct (match Macro.obj_like_names self with [] => None | _ => _ end);
      [discriminate|].
    rewrite Hfn in Hm.
    apply first_call_bounds in Hm.
    + rewrite BodyFacts.slice_length. lia.
    + intros e1. apply RegexFacts.run_bounded. lia.
Qed.

Lemma expand_fragment_settles : returns used txt.
Proof.
  intros st Hu.
  destruct (sub_st_from_settles
              (Macro.names_reg_match atomic_calls
                 (Macro.obj_like_names self) (Macro.fn_like_names self) txt)
              Macro.name_match_end txt
              (fun fuel => Macro.expand_match atomic_calls self (F fuel) txt)
              used expand_match_settles (length txt) 0 st Hu)
    as (r & (N & H) & K).
  exists r. split; [|exact K].
  exists (S N). intros fuel Hf. destruct fuel as [|fuel]; [lia|].
  simpl. unfold sub_st. apply H. lia.
Qed.
End Returns.

(** Every expansion returns: whatever the registry, the text and the state
    it starts from, there is a bound from which on [expand_fragment] has
    one and the same outcome, and that outcome is a text or an exception.
    The bound is a device of the model only. *)
Theorem expand_fragment_returns (atomic_calls : bool) (self : Macro.Macros)
    (txt : str) (st : Macro.state) :
  exists r,
    settles_to
      (fun fuel => Macro.expand_fragment atomic_calls self fuel txt st) r
    /\ r <> OutOfFuel.
Proof.
  assert (H : forall a used, avail self used = a ->
              forall n txt', length txt' = n ->
              returns atomic_calls self used txt').
  { induction a as [a IHa] using lt_wf_ind. intros used Ha.
    induction n as [n IHn] using lt_wf_ind. intros txt' Hn.
    apply expand_fragment_settles.
    - intros used' txt'' Hlt. subst a.
      exact (IHa _ Hlt used' eq_refl _ txt'' eq_refl).
    - intros txt'' Hlt. subst n. exact (IHn _ Hlt txt'' eq_refl). }
  destruct (H _ (Macro.in_use st) eq_refl _ txt eq_refl st eq_refl)
    as (r & Hs & K).
  exists r. split; [exact Hs|]. intros ->. exact K.
Qed.

(** X1.  Every call of [expand] returns: whatever the registry and the text,
    there is a bound from which on [expand] has one and the same outcome,
    and that outcome is a text or an exception.  No chain of macros that
    refer to each other makes the expansion run for ever. *)
Corollary expand_returns (atomic_calls : bool) (self : Macro.Macros)
    (txt : str) :
  exists r,
    settles_to (fun fuel => Macro.expand atomic_calls self fuel txt) r
    /\ r <> OutOfFuel.
Proof.
  unfold Macro.expand, Macro.expand_run.
  destruct (Macro.macros self) eqn:E.
  - exists (Ok txt). split; [now exists 0|discriminate].
  - destruct (expand_fragment_returns atomic_calls self txt Macro.state0)
      as (r & (N & H) & K).
    destruct r as [[x st]|e|]; [| |contradiction].
    + exists (Ok x). split; [|discriminate].
      exists N. intros fuel Hf. now rewrite H.
    + exists (Raise e). split; [|discriminate].
      exists N. intros fuel Hf. now rewrite H.
Qed.

End ExpandFacts.

(** ** The symbol table *)

Module CodebaseFacts.

Import Samples.

Section Merge.
Variable RecordParts : Type.
Variable record_body : RecordParts -> option Token.
Variable record_update :
  RecordParts -> RecordParts -> RecordParts * list Function.conflict.
Variable VariableParts : Type.
Variable variable_update :
  VariableParts -> VariableParts -> VariableParts * list Function.conflict.
Variable get_file_priority : str -> Z.

Local Abbreviation Defn := (Codebase.Defn RecordParts VariableParts).
Local Abbreviation Codebase := (Codebase.Codebase RecordParts VariableParts).
Local Abbreviation empty := (Codebase.empty RecordParts VariableParts).
Local Abbreviation get_priority :=
  (Codebase.get_priority RecordParts record_body VariableParts
                         get_file_priority).
Local Abbreviation fold_into :=
  (Codebase.fold_into RecordParts record_update VariableParts
                      variable_update).
Local Abbreviation _dict_upsert_def :=
  (Codebase._dict_upsert_def RecordParts record_body record_update
                             VariableParts variable_update
                             get_file_priority).
Local Abbreviation add_function :=
  (Codebase.add_function RecordParts record_body record_update
                         VariableParts variable_update get_file_priority).
Local Abbreviation entry := (Codebase.entry RecordParts VariableParts).
Local Abbreviation objects := (Codebase.objects RecordParts VariableParts).
Local Abbreviation names := (Codebase.names RecordParts VariableParts).
Local Abbreviation names_restricted :=
  (Codebase.names_restricted RecordParts VariableParts).

(** When the new object has the higher priority, [update] folds the
    stored one into it: the new object changes, the dict and the stored
    object do not. *)
Lemma upsert_higher_priority (h : gmap nat Defn) (d : gmap str nat)
    (self other : nat) (d_self d_other : Defn) :
  h !! other = Some d_other ->
  d !! Codebase.name _ _ d_other = Some self ->
  h !! self = Some d_self ->
  (get_priority d_self < get_priority d_other)%Z ->
  _dict_upsert_def h d other
  = (<[other := fst (fold_into d_other d_self)]> h, d,
     snd (fold_into d_other d_self)).
Proof.
  intros Ho Hd Hs Hp. unfold Codebase._dict_upsert_def, Codebase.update.
  rewrite Ho, Hd, Hs. apply Z.ltb_lt in Hp. rewrite Hp. simpl.
  destruct (fold_into d_other d_self). reflexivity.
Qed.

(** Otherwise the new object is folded into the stored one. *)
Lemma upsert_lower_priority (h : gmap nat Defn) (d : gmap str nat)
    (self other : nat) (d_self d_other : Defn) :
  h !! other = Some d_other ->
  d !! Codebase.name _ _ d_other = Some self ->
  h !! self = Some d_self ->
  (get_priority d_other <= get_priority d_self)%Z ->
  _dict_upsert_def h d other
  = (<[self := fst (fold_into d_self d_other)]> h, d,
     snd (fold_into d_self d_other)).
Proof.
  intros Ho Hd Hs Hp. unfold Codebase._dict_upsert_def, Codebase.update.
  rewrite Ho, Hd, Hs. apply Z.ltb_ge in Hp. rewrite Hp. simpl.
  destruct (fold_into d_self d_other). reflexivity.
Qed.

Variable file : str.

(** At the dict itself: when [f] is known from a declaration, which has
    no body, and a definition with a body arrives, the dict keeps the
    object without body. *)
Lemma upsert_body_after_declaration :
  let declared := sighting file (s "m") None f_declared in
  let defined := sighting file (s "m") None f_public in
  let '(h, d, _) :=
    _dict_upsert_def {[0 := declared; 1 := defined]} {[s "f" := 0]} 1 in
  d !! s "f" = Some 0 /\ h !! 0 = Some declared.
Proof.
  cbv zeta.
  rewrite (upsert_higher_priority _ _ 0 1
             (sighting file (s "m") None f_declared)
             (sighting file (s "m") None f_public)).
  - split; [reflexivity|]. reflexivity.
  - reflexivity.
  - reflexivity.
  - reflexivity.
  - unfold Codebase.get_priority. simpl. lia.
Qed.

Local Abbreviation scan_one := (add_function file (s "m")).

(** The table after one definition of [f]. *)
Lemma scan_first (priv : option bool) (f : Function.FunctionParts) :
  (f = f_public /\ priv = None) \/ (f = f_private /\ priv = Some true) ->
  scan_one (Some f) empty
  = one_function file priv f.
Proof.
  intros [[-> ->]|[-> ->]]; vm_compute; reflexivity.
Qed.

Lemma priority_public_private :
  (get_priority (sighting file (s "m") None f_public)
   < get_priority (sighting file (s "m") (Some true) f_private))%Z.
Proof. unfold Codebase.get_priority. simpl. lia. Qed.

(** The defect behind C6 and C7.  [_dict_upsert_def] keeps in the dict
    the object that was there; when the new object has the higher
    priority, the merge goes into the new object, which no table refers
    to.  The table is left with the old object, unchanged. *)
Lemma add_function_higher_priority (scope_module : str)
    (f : Function.FunctionParts) (b : Token) (cb : Codebase)
    (self : nat) (d_self : Defn) :
  let vis := Codebase._get_visibility_and_module
               (Function.preComment f) (Function.postComment f) None
               scope_module in
  let new := sighting file (snd vis) (fst vis) f in
  let cb' := add_function file scope_module (Some f) cb in
  Function.body f = Some b ->
  names cb !! value (Function.name f) = Some self ->
  objects cb !! self = Some d_self ->
  (get_priority d_self < get_priority new)%Z ->
  names cb' = names cb
  /\ objects cb' !! self = Some d_self
  /\ objects cb' !! fresh (dom (objects cb))
     = Some (fst (fold_into new d_self))
  /\ names_restricted cb'
     = if Codebase.truthy (fst vis)
       then <[value (Function.name f) := self]> (names_restricted cb)
       else names_restricted cb.
Proof.
  intros vis new cb' Hb Hn Ho Hp.
  assert (Hr : fresh (dom (objects cb)) <> self).
  { intros E. apply (is_fresh (dom (objects cb))). rewrite E.
    apply elem_of_dom. now exists d_self. }
  unfold cb', Codebase.add_function. rewrite Hb. fold vis.
  destruct vis as [priv local_module] eqn:Ev. unfold Codebase.alloc.
  rewrite (upsert_higher_priority _ (names cb) self
             (fresh (dom (objects cb))) d_self new).
  - simpl. rewrite Hn. split; [reflexivity|]. split; [|split].
    + rewrite !lookup_insert_ne by exact Hr. exact Ho.
    + apply lookup_insert_eq.
    + reflexivity.
  - apply lookup_insert_eq.
  - exact Hn.
  - rewrite lookup_insert_ne by exact Hr. exact Ho.
  - exact Hp.
Qed.

(** When the stored object has at least the priority of the new one, the
    new one is folded into it. *)
Lemma add_function_lower_priority (scope_module : str)
    (f : Function.FunctionParts) (b : Token) (cb : Codebase)
    (self : nat) (d_self : Defn) :
  let vis := Codebase._get_visibility_and_module
               (Function.preComment f) (Function.postComment f) None
               scope_module in
  let new := sighting file (snd vis) (fst vis) f in
  let cb' := add_function file scope_module (Some f) cb in
  Function.body f = Some b ->
  names cb !! value (Function.name f) = Some self ->
  objects cb !! self = Some d_self ->
  (get_priority new <= get_priority d_self)%Z ->
  names cb' = names cb
  /\ objects cb' !! self = Some (fst (fold_into d_self new)).
Proof.
  intros vis new cb' Hb Hn Ho Hp.
  assert (Hr : fresh (dom (objects cb)) <> self).
  { intros E. apply (is_fresh (dom (objects cb))). rewrite E.
    apply elem_of_dom. now exists d_self. }
  unfold cb', Codebase.add_function. rewrite Hb. fold vis.
  destruct vis as [priv local_module] eqn:Ev. unfold Codebase.alloc.
  rewrite (upsert_lower_priority _ (names cb) self
             (fresh (dom (objects cb))) d_self new).
  - simpl. split; [reflexivity|]. apply lookup_insert_eq.
  - apply lookup_insert_eq.
  - exact Hn.
  - rewrite lookup_insert_ne by exact Hr. exact Ho.
  - exact Hp.
Qed.

Lemma one_function_names (priv : option bool)
    (f : Function.FunctionParts) :
  names (one_function file priv f) !! s "f" = Some 0.
Proof. apply lookup_singleton_eq. Qed.

Lemma visibility_f_private :
  Codebase._get_visibility_and_module
    (Function.preComment f_private) (Function.postComment f_private)
    None (s "m")
  = (Some true, s "m").
Proof. vm_compute; reflexivity. Qed.

Lemma visibility_f_public :
  Codebase._get_visibility_and_module
    (Function.preComment f_public) (Function.postComment f_public)
    None (s "m")
  = (None, s "m").
Proof. vm_compute; reflexivity. Qed.

(** C7 at the input on which the code departs from it.  Two definitions
    of [f] are scanned, the one without annotation first, the one marked
    [#private] second: the object that [names] holds for [f] is not
    private.  Scanned in the other order, it is. *)
Theorem private_sighting_after_public_lost :
  (let cb := scan_one (Some f_private) (scan_one (Some f_public) empty) in
   option_map (Codebase.is_private _ _)
              (entry (objects cb) (names cb) (s "f"))
   = Some None)
  /\ (let cb := scan_one (Some f_public)
                         (scan_one (Some f_private) empty) in
      option_map (Codebase.is_private _ _)
                 (entry (objects cb) (names cb) (s "f"))
      = Some (Some true)).
Proof.
  split.
  - rewrite (scan_first None f_public) by (left; split; reflexivity).
    cbv zeta. unfold Codebase.entry.
    pose proof (add_function_higher_priority (s "m") f_private
                  (tok " return; ") (one_function file None f_public) 0
                  (sighting file (s "m") None f_public)) as H.
    cbv zeta in H. rewrite visibility_f_private in H.
    destruct H as (Hn & Ho & _).
    + reflexivity.
    + reflexivity.
    + reflexivity.
    + exact priority_public_private.
    + rewrite Hn, one_function_names, Ho. reflexivity.
  - rewrite (scan_first (Some true) f_private) by (right; split; reflexivity).
    cbv zeta. unfold Codebase.entry.
    pose proof (add_function_lower_priority (s "m") f_public
                  (tok " return; ")
                  (one_function file (Some true) f_private) 0
                  (sighting file (s "m") (Some true) f_private)) as H.
    cbv zeta in H. rewrite visibility_f_public in H.
    destruct H as (Hn & Ho).
    + reflexivity.
    + reflexivity.
    + reflexivity.
    + unfold Codebase.get_priority. simpl. lia.
    + rewrite Hn, one_function_names, Ho. reflexivity.
Qed.

(** C6 at the input on which the code departs from it, with what holds
    of it.  After the definition without annotation and then the one
    marked [#private], the higher-priority object has taken the merge
    (it is private) but it is the object of the second sighting, held by
    no table: [names] and [names_restricted] hold the first object,
    which is unchanged.  A declaration without body never reaches the
    table, so a declaration and a definition of [f], in either order,
    leave one entry, with a body. *)
Theorem merged_state_not_in_table :
  (let cb := scan_one (Some f_private) (scan_one (Some f_public) empty) in
   names cb = {[s "f" := 0]}
   /\ names_restricted cb = {[s "f" := 0]}
   /\ objects cb !! 0 = Some (sighting file (s "m") None f_public)
   /\ option_map (Codebase.is_private _ _) (objects cb !! 1)
      = Some (Some true))
  /\ scan_one (Some f_public) (scan_one (Some f_declared) empty)
     = scan_one (Some f_public) empty
  /\ scan_one (Some f_declared) (scan_one (Some f_public) empty)
     = scan_one (Some f_public) empty
  /\ entry (objects (scan_one (Some f_public) empty))
           (names (scan_one (Some f_public) empty)) (s "f")
     = Some (sighting file (s "m") None f_public)
  /\ Function.body f_public = Some (tok " return; ").
Proof.
  split; [|split; [reflexivity|split; [reflexivity|split]]].
  - rewrite (scan_first None f_public) by (left; split; reflexivity).
    cbv zeta.
    pose proof (add_function_higher_priority (s "m") f_private
                  (tok " return; ") (one_function file None f_public) 0
                  (sighting file (s "m") None f_public)) as H.
    cbv zeta in H. rewrite visibility_f_private in H.
    destruct H as (Hn & Ho & Hf & Hr).
    + reflexivity.
    + reflexivity.
    + reflexivity.
    + exact priority_public_private.
    + rewrite Hn, Hr, Ho. split; [reflexivity|]. split; [|split].
      * simpl. apply insert_empty.
      * reflexivity.
      * replace 1 with (fresh (dom (objects
          (one_function file None f_public)))) by (vm_compute; reflexivity).
        simpl in Hf. simpl. rewrite Hf. reflexivity.
  - rewrite (scan_first None f_public) by (left; split; reflexivity).
    vm_compute; reflexivity.
  - reflexivity.
Qed.
End Merge.

(** *** [untypedef] *)

Import Props.

Section Untypedef.
Context {R V : Type}.
Variable cb : Codebase.Codebase R V.

Lemma picked_cons {A : Type} (d : gmap str A) (nm target : str)
    (l : list (str * str)) (start : str) :
  picked d ((nm, target) :: l) start
  = picked d l (match d !! nm with Some _ => target | None => start end).
Proof.
  unfold picked. simpl. destruct (d !! nm); [|reflexivity].
  rewrite last_cons. destruct (last _) as [[k t]|]; reflexivity.
Qed.

Lemma untypedef_loop_chain (nm : str) (l : list (str * str)) (final : str) :
  typedef_chain cb nm l final ->
  forall fuel name1 name2, length l <= fuel ->
  Codebase.untypedef_loop R V cb fuel nm name1 name2
  = Ok (let n2 := picked (Codebase.fields R V cb) l name2 in
        let n1 := picked (Codebase.types R V cb) l name1 in
        if Codebase.nonempty n2 then n2
        else if Codebase.nonempty n1 then n1 else final).
Proof.
  induction 1 as [nm Hn|nm target l final Hn Hc IH];
    intros fuel name1 name2 Hf.
  - destruct fuel; simpl; rewrite Hn; reflexivity.
  - simpl in Hf. destruct fuel as [|fuel]; [lia|].
    simpl. rewrite Hn. rewrite IH by lia.
    now rewrite !picked_cons.
Qed.

(** C8, as the code has it.  When the chain of typedefs from [nm] ends,
    [untypedef] returns the target of the last name of the chain that is
    a key of [fields] if that target is not empty, else the target of the
    last name that is a key of [types] if that one is not empty, else
    the name at which the chain ends. *)
Theorem untypedef_prefers_fields (nm : str) (l : list (str * str))
    (final : str) (fuel : nat) :
  typedef_chain cb nm l final ->
  length l <= fuel ->
  Codebase.untypedef R V cb fuel nm
  = Ok (let n2 := picked (Codebase.fields R V cb) l [] in
        let n1 := picked (Codebase.types R V cb) l [] in
        if Codebase.nonempty n2 then n2
        else if Codebase.nonempty n1 then n1 else final).
Proof.
  intros Hc Hf. unfold Codebase.untypedef.
  now apply untypedef_loop_chain.
Qed.
End Untypedef.

(** The theorem at the example of the specification: after
    [typedef struct foo BAR; typedef BAR BAZ;], [untypedef("BAZ")] is
    [foo]. *)
Lemma untypedef_prefers_fields_witness :
  Codebase.untypedef unit unit bar_baz 2 (s "BAZ") = Ok (s "foo").
Proof.
  exact (untypedef_prefers_fields bar_baz (s "BAZ")
           [(s "BAZ", s "BAR"); (s "BAR", s "foo")] (s "foo") 2
           ltac:(apply chain_step; [vm_compute; reflexivity|];
                 apply chain_step; [vm_compute; reflexivity|];
                 apply chain_end; vm_compute; reflexivity)
           ltac:(simpl; lia)).
Defined.

(** C8 as the specification states it fails on the order of preference:
    [A] is the name of a record and [B] the name of one with fields, and
    [untypedef("A")] is [C], the target found through [fields], where the
    order of the specification gives [B], the one found through [types]. *)
Lemma untypedef_fields_before_types :
  Codebase.untypedef unit unit a_b_c 2 (s "A") = Ok (s "C")
  /\ Codebase.untypedef_spec unit unit a_b_c 2 (s "A") = Ok (s "B")
  /\ ~ (forall (cb : Codebase.Codebase unit unit) fuel nm,
          Codebase.untypedef unit unit cb fuel nm
          = Codebase.untypedef_spec unit unit cb fuel nm).
Proof.
  split; [vm_compute; reflexivity|]. split; [vm_compute; reflexivity|].
  intros H. specialize (H a_b_c 2 (s "A")). vm_compute in H. discriminate.
Qed.

(** A typedef of a name to itself, as [typedef struct foo foo;] makes it,
    keeps the loop of [untypedef] going for ever: no bound is enough. *)
Lemma untypedef_cycle_never_returns (fuel : nat) (name1 name2 : str) :
  Codebase.untypedef_loop unit unit foo_foo fuel (s "foo") name1 name2
  = OutOfFuel.
Proof.
  revert name1 name2; induction fuel as [|fuel IH]; intros name1 name2.
  - vm_compute; reflexivity.
  - assert (H : Codebase.typedefs unit unit foo_foo !! s "foo"
                = Some (s "foo")) by (vm_compute; reflexivity).
    cbn [Codebase.untypedef_loop]. rewrite H. apply IH.
Qed.

End CodebaseFacts.

(** ** Token lists: code filter, comments, range *)

Module TokenListFacts.

Import Props.

Section Spans.
Variable atomic_calls : bool.
Variable defs : re.
Variable txt : str.
Hypothesis defs_consuming : consuming defs = true.

(** A token of a grammar whose alternatives all take a character is
    not empty. *)
Lemma match_call_progress (p e : nat) :
  match_at atomic_calls defs txt Call p = Some e -> p < e.
Proof.
  unfold match_at. cbn [run go]. intros H.
  apply (RegexFacts.run_defs_progressing atomic_calls defs txt
           defs_consuming (length txt) p e).
  destruct atomic_calls.
  - apply RegexFacts.in_firstn_1.
    destruct (firstn 1 _); [discriminate|].
    injection H as ->. now left.
  - destruct (run _ _ _ _ _ _); [discriminate|].
    injection H as ->. now left.
Qed.

Lemma finditer_from_progress (n p : nat) :
  Forall (fun ab => fst ab < snd ab)
         (finditer_from atomic_calls defs txt Call n p).
Proof.
  revert p; induction n as [|n IH]; intros p; simpl; [constructor|].
  destruct (length txt <? p); [constructor|].
  destruct (match_at atomic_calls defs txt Call p) as [e|] eqn:E.
  - constructor; [exact (match_call_progress p e E)|apply IH].
  - apply IH.
Qed.

Lemma ordered_from_inside (lo : nat) (l : list (nat * nat)) :
  ordered_from txt lo l -> Forall (fun ab => snd ab <= length txt) l.
Proof.
  revert lo; induction l as [|[a b] l IH]; intros lo; simpl;
    [constructor|].
  intros (_ & _ & Hb & Ho). constructor; [exact Hb|exact (IH b Ho)].
Qed.

Lemma number_tokens_nonempty (l : list (nat * nat)) (i : nat) :
  Forall (fun ab => fst ab < snd ab) l ->
  Forall (fun ab => snd ab <= length txt) l ->
  Forall (fun t => value t <> []) (number_tokens txt i l).
Proof.
  revert i; induction l as [|[a b] l IH]; intros i H1 H2; simpl;
    [constructor|].
  inversion H1 as [|? ? Hab H1']; subst.
  inversion H2 as [|? ? Hb H2']; subst. simpl in *.
  constructor; [|now apply IH].
  simpl. intros E. apply (f_equal (@length ascii)) in E.
  rewrite BodyFacts.slice_length in E. simpl in E. lia.
Qed.

Lemma xFromText_nonempty :
  Forall (fun t => value t <> []) (xFromText atomic_calls defs txt).
Proof.
  unfold xFromText, reg_token_spans, finditer.
  apply number_tokens_nonempty.
  - apply finditer_from_progress.
  - apply (ordered_from_inside 0).
    apply RegexFacts.finditer_from_ordered.
Qed.
End Spans.

(** X14.  No token is empty: with a grammar whose every alternative takes at
    least one character, as [re_token_preproc] is, every token that
    [TokenList.xFromText] yields has at least one character, so that
    [t.value[0]] is defined for it. *)
Theorem xFromText_tokens_not_empty (atomic_calls : bool) (grammar : re)
    (txt : str) :
  consuming grammar = true ->
  Forall (fun t => value t <> []) (xFromText atomic_calls grammar txt).
Proof. intros H. now apply xFromText_nonempty. Qed.

Lemma xFromText_tokens_not_empty_witness :
  Forall (fun t => value t <> [])
         (xFromText true Grammar.re_token_preproc (s "a = b ## c;")).
Proof.
  apply (xFromText_tokens_not_empty true Grammar.re_token_preproc
           (s "a = b ## c;")).
  vm_compute. reflexivity.
Defined.

Lemma xxFilterCode_filter (tokens : list Token) :
  Forall (fun t => value t <> []) tokens ->
  xxFilterCode tokens = Ok (List.filter is_code tokens).
Proof.
  induction tokens as [|t tokens IH]; intros H; simpl; [reflexivity|].
  inversion H as [|? ? Ht H']; subst.
  rewrite (IH H'). unfold first_char, is_code.
  destruct (value t) as [|c x]; [contradiction|]. simpl.
  now destruct (negb (char_in c not_code)).
Qed.

(** X15.  On the tokens of a text [filterCode] does not raise: with a grammar
    whose every alternative takes at least one character it returns, in
    order, exactly the tokens whose first character is none of blank,
    tab, newline, [#], [/], [,] and [;]. *)
Theorem filterCode_of_text (atomic_calls : bool) (grammar : re)
    (txt : str) :
  consuming grammar = true ->
  filterCode (xFromText atomic_calls grammar txt)
  = Ok (List.filter is_code (xFromText atomic_calls grammar txt)).
Proof.
  intros H. now apply xxFilterCode_filter, xFromText_nonempty.
Qed.

Lemma filterCode_of_text_witness :
  filterCode (xFromText true Grammar.re_token_preproc (s "a = b ## c;"))
  = Ok (List.filter is_code
          (xFromText true Grammar.re_token_preproc (s "a = b ## c;"))).
Proof.
  apply (filterCode_of_text true Grammar.re_token_preproc (s "a = b ## c;")).
  vm_compute. reflexivity.
Defined.

Lemma xxFilterCode_outcome (tokens : list Token) :
  (exists r, xxFilterCode tokens = Ok r)
  \/ xxFilterCode tokens = Raise IndexError.
Proof.
  induction tokens as [|t tokens IH]; simpl; [left; now eexists|].
  unfold first_char. destruct (value t) as [|c x]; [now right|]. simpl.
  destruct IH as [[r ->]| ->]; simpl; [left; now eexists|now right].
Qed.

Lemma xxFilterCode_snoc (tokens : list Token) (t : Token) :
  xxFilterCode (tokens ++ [t])
  = let* r := xxFilterCode tokens in
    let* c := first_char t in
    Ok (r ++ if negb (char_in c not_code) then [t] else []).
Proof.
  induction tokens as [|u tokens IH]; cbn [xxFilterCode app bind].
  - destruct (first_char t) as [c| |]; reflexivity.
  - rewrite IH. unfold first_char.
    destruct (value u) as [|c x]; cbn [bind]; [reflexivity|].
    destruct (xxFilterCode tokens) as [r| |]; cbn [bind]; try reflexivity.
    destruct (value t) as [|d y]; cbn [bind]; try reflexivity.
    destruct (negb (char_in c not_code)), (negb (char_in d not_code));
      reflexivity.
Qed.

(** X16.  [filterCode_r] is [filterCode] read backwards: for every list of
    tokens it returns the tokens that [filterCode] returns, in the reverse
    order, and it raises when [filterCode] does. *)
Theorem filterCode_r_reverses (tokens : list Token) :
  filterCode_r tokens = let* r := filterCode tokens in Ok (rev r).
Proof.
  unfold filterCode_r, filterCode.
  induction tokens as [|t tokens IH]; [reflexivity|].
  cbn [rev xxFilterCode]. rewrite xxFilterCode_snoc, IH.
  destruct (xxFilterCode_outcome tokens) as [[r ->]| ->]; cbn [bind].
  - destruct (first_char t) as [c| |]; cbn [bind]; try reflexivity.
    destruct (negb (char_in c not_code)); cbn [rev]; [reflexivity|].
    now rewrite app_nil_r.
  - unfold first_char. now destruct (value t).
Qed.

(** *** Comments before and after *)

Lemma get_pre_comment_from_spec (tokens : list Token) (i : nat)
    (c : option Token) (j : nat) :
  get_pre_comment_from tokens i = Ok (c, j) ->
  i <= j <= i + length tokens
  /\ match c with
     | Some t =>
         i < j
         /\ nth_error tokens (j - 1 - i) = Some t
         /\ starts_in ["/"%char] t = true
         /\ forallb (starts_in white) (firstn (j - 1 - i) tokens) = true
     | None =>
         forallb (starts_in white) (firstn (j - i) tokens) = true
         /\ match nth_error tokens (j - i) with
            | Some t => starts_in (white ++ ["/"%char]) t = false
                        /\ value t <> []
            | None => True
            end
     end.
Proof.
  revert i; induction tokens as [|t tokens IH]; intros i;
    cbn [get_pre_comment_from length].
  - intros [= <- <-]. rewrite Nat.sub_diag. simpl. split; [lia|auto].
  - unfold first_char.
    destruct (value t) as [|ch x] eqn:Ev; [discriminate|]. cbn [bind].
    assert (Hw : forall b, char_in ch white = b -> starts_in white t = b).
    { intros b <-. unfold starts_in. now rewrite Ev. }
    change [" "%char; tab; nl] with white.
    destruct (char_in ch white) eqn:Ew.
    + intros H. apply IH in H as [Hj H]. split; [lia|].
      destruct c as [u|].
      * destruct H as (H1 & H2 & H3 & H4).
        replace (j - 1 - i) with (S (j - 1 - S i)) by lia.
        cbn [nth_error firstn forallb].
        rewrite (Hw true eq_refl). auto with arith.
      * destruct H as (H1 & H2).
        replace (j - i) with (S (j - S i)) by lia.
        cbn [nth_error firstn forallb].
        rewrite (Hw true eq_refl). auto.
    + destruct (ascii_eqb ch "/") eqn:Es.
      * intros [= <- <-]. split; [lia|].
        replace (S i - 1 - i) with 0 by lia.
        cbn [nth_error firstn forallb].
        split; [lia|]. split; [reflexivity|]. split; [|reflexivity].
        unfold starts_in, char_in. rewrite Ev. simpl. now rewrite Es.
      * intros [= <- <-]. rewrite Nat.sub_diag.
        cbn [nth_error firstn forallb].
        split; [lia|]. split; [reflexivity|].
        split; [|rewrite Ev; discriminate].
        unfold starts_in. rewrite Ev. unfold char_in in *.
        rewrite existsb_app, Ew. simpl. now rewrite Es.
Qed.

(** X17.  What [get_pre_comment] returns, when it returns [(c, i)]: [i] is at
    most the number of tokens; if [c] is a token, it is the token of
    index [i - 1], its text starts with [/], and all tokens before it are
    white space; if [c] is [None], the [i] tokens before index [i] are
    white space and the token of index [i], when there is one, starts
    with neither white space nor [/]. *)
Theorem get_pre_comment_index (tokens : list Token) (c : option Token)
    (i : nat) :
  get_pre_comment tokens = Ok (c, i) ->
  i <= length tokens
  /\ match c with
     | Some t =>
         0 < i
         /\ nth_error tokens (i - 1) = Some t
         /\ starts_in ["/"%char] t = true
         /\ forallb (starts_in white) (firstn (i - 1) tokens) = true
     | None =>
         forallb (starts_in white) (firstn i tokens) = true
         /\ match nth_error tokens i with
            | Some t => starts_in (white ++ ["/"%char]) t = false
                        /\ value t <> []
            | None => True
            end
     end.
Proof.
  unfold get_pre_comment. destruct tokens as [|t tokens]; [discriminate|].
  intros H. apply get_pre_comment_from_spec in H.
  rewrite !Nat.sub_0_r in H. destruct H as [Hi H]. split; [lia|exact H].
Qed.

(** The theorem at the tokens of a function with a comment before it. *)
Lemma get_pre_comment_index_witness :
  let tokens := xFromText true Grammar.re_token
                  (s " /* c */ int f(void);") in
  get_pre_comment tokens = Ok (nth_error tokens 1, 2)
  /\ 2 <= length tokens.
Proof.
  assert (H : get_pre_comment
                (xFromText true Grammar.re_token (s " /* c */ int f(void);"))
              = Ok (nth_error
                      (xFromText true Grammar.re_token
                         (s " /* c */ int f(void);")) 1, 2))
    by (vm_compute; reflexivity).
  split; [exact H|].
  exact (proj1 (get_pre_comment_index _ _ _ H)).
Defined.

Lemma get_pre_comment_from_post (tokens : list Token) (i : nat) :
  get_post_comment_loop tokens
  = let* '(c, _) := get_pre_comment_from tokens i in Ok c.
Proof.
  revert i; induction tokens as [|t tokens IH]; intros i;
    cbn [get_post_comment_loop get_pre_comment_from]; [reflexivity|].
  destruct (first_char t) as [ch| |]; cbn [bind]; try reflexivity.
  destruct (char_in ch [" "%char; tab; nl]); [apply IH|].
  now destruct (ascii_eqb ch "/").
Qed.

(** X18.  [get_post_comment] is [get_pre_comment] on the reversed list:
    for a list of tokens that is not empty it returns the comment that
    [get_pre_comment] finds in the reversed list, and raises when that
    raises; for the empty list, on which [get_pre_comment] raises, it
    returns [None]. *)
Theorem get_post_comment_is_pre_of_reversed (tokens : list Token) :
  get_post_comment tokens
  = match tokens with
    | [] => Ok None
    | _ :: _ => let* '(c, _) := get_pre_comment (rev tokens) in Ok c
    end
  /\ get_pre_comment [] = Raise NameError.
Proof.
  split; [|reflexivity].
  destruct tokens as [|t0 tokens]; [reflexivity|].
  unfold get_post_comment, get_pre_comment.
  destruct (rev (t0 :: tokens)) as [|t l] eqn:E.
  - apply (f_equal (@length Token)) in E. rewrite length_rev in E.
    discriminate E.
  - apply get_pre_comment_from_post.
Qed.

(** *** The range of a list of tokens *)

Lemma last_nonempty_default {A : Type} (l : list A) (x d d' : A) :
  List.last (x :: l) d = List.last (x :: l) d'.
Proof.
  revert x; induction l as [|y l IH]; intros x; [reflexivity|].
  change (List.last (y :: l) d = List.last (y :: l) d'). apply IH.
Qed.

Lemma last_cons_head {A : Type} (l : list A) (x d : A) :
  List.last (x :: l) d = List.last l x.
Proof.
  destruct l as [|y l]; [reflexivity|].
  change (List.last (y :: l) d = List.last (y :: l) x).
  apply last_nonempty_default.
Qed.

Lemma last_from (txt : str) (lo : nat) (l : list (nat * nat))
    (a b : nat) :
  ordered_from txt lo ((a, b) :: l) ->
  Forall (fun ab => a <= fst ab /\ snd ab <= snd (List.last l (a, b)))
         ((a, b) :: l)
  /\ snd (List.last l (a, b)) <= length txt.
Proof.
  revert lo a b; induction l as [|[c d] l IH]; intros lo a b.
  - simpl. intros (_ & Hab & Hb & _). split; [|exact Hb].
    constructor; [simpl; lia|constructor].
  - intros (Hlo & Hab & Hb & Ho).
    destruct (IH b c d Ho) as [H1 H2].
    destruct Ho as (Hbc & Hcd & _).
    rewrite last_cons_head. split; [|exact H2].
    inversion H1 as [|? ? [Hc Hd] H1']; subst. simpl in Hc, Hd.
    constructor; [simpl; lia|].
    constructor; [simpl; lia|].
    eapply Forall_impl; [exact H1'|]. intros [e f]. simpl. lia.
Qed.

Lemma last_number_tokens (txt : str) (l : list (nat * nat)) (i : nat)
    (t : Token) :
  range (List.last (number_tokens txt i l) t) = List.last l (range t).
Proof.
  revert i t; induction l as [|[a b] l IH]; intros i t; [reflexivity|].
  simpl number_tokens.
  destruct l as [|[c d] l]; [reflexivity|].
  change (range (List.last (number_tokens txt (S i) ((c, d) :: l)) t)
          = List.last ((c, d) :: l) (range t)).
  apply IH.
Qed.

(** X19.  [TokenList.range] of the tokens of a text encloses the range of
    every token and ends inside the text, for every text and grammar. *)
Theorem range_encloses_tokens (atomic_calls : bool) (grammar : re)
    (txt : str) :
  let tokens := xFromText atomic_calls grammar txt in
  Forall (fun t => fst (TokenList_range tokens) <= fst (range t)
                   /\ snd (range t) <= snd (TokenList_range tokens))
         tokens
  /\ snd (TokenList_range tokens) <= length txt.
Proof.
  unfold xFromText. simpl.
  pose proof (RegexFacts.finditer_from_ordered atomic_calls grammar txt Call
                (S (length txt)) 0) as Ho.
  fold (finditer atomic_calls grammar Call txt) in Ho.
  fold (reg_token_spans atomic_calls grammar txt) in Ho.
  destruct (reg_token_spans atomic_calls grammar txt) as [|[a b] l].
  - simpl. split; [constructor|lia].
  - simpl number_tokens. unfold TokenList_range.
    rewrite last_number_tokens. simpl range.
    destruct (last_from txt 0 l a b Ho) as [H1 H2]. split; [|exact H2].
    rewrite <- (TokenFacts.number_tokens_range txt ((a, b) :: l) 0) in H1.
    apply List.Forall_map in H1. exact H1.
Qed.

End TokenListFacts.

(** ** Lines and columns *)

Module CommonFacts.

Import Props.

Lemma count_nl_app (a b : str) :
  Common.count_nl (a ++ b) = Common.count_nl a + Common.count_nl b.
Proof.
  unfold Common.count_nl. now rewrite List.filter_app, length_app.
Qed.

Lemma count_nl_firstn (n m : nat) (x : str) :
  n <= m -> Common.count_nl (firstn n x) <= Common.count_nl (firstn m x).
Proof.
  intros H.
  replace (firstn n x) with (firstn n (firstn m x))
    by (rewrite firstn_firstn; f_equal; lia).
  rewrite <- (firstn_skipn n (firstn m x)) at 2.
  rewrite count_nl_app. lia.
Qed.

(** X20.  The line number of a position grows with the position: for
    [0 <= p <= q] the line of [p] is at least 1 and at most the line of
    [q], which is at most the line of the end of the text. *)
Theorem lineno_monotone (txt : str) (p q : Z) :
  (0 <= p <= q)%Z ->
  1 <= Common.lineno txt (Some p) <= Common.lineno txt (Some q)
  /\ Common.lineno txt (Some q) <= Common.lineno txt None.
Proof.
  intros H. unfold Common.lineno, Common.range_end.
  destruct (Z.ltb_spec p 0); [lia|]. destruct (Z.ltb_spec q 0); [lia|].
  pose proof (count_nl_firstn (Nat.min (Z.to_nat p) (length txt))
                (Nat.min (Z.to_nat q) (length txt)) txt ltac:(lia)).
  pose proof (count_nl_firstn (Nat.min (Z.to_nat q) (length txt))
                (length txt) txt ltac:(lia)).
  lia.
Qed.

Lemma lineno_monotone_witness :
  1 <= Common.lineno (s "a" ++ [nl] ++ s "b") (Some 1%Z)
    <= Common.lineno (s "a" ++ [nl] ++ s "b") (Some 2%Z)
  /\ Common.lineno (s "a" ++ [nl] ++ s "b") (Some 2%Z)
     <= Common.lineno (s "a" ++ [nl] ++ s "b") None.
Proof.
  apply (lineno_monotone (s "a" ++ [nl] ++ s "b") 1 2). lia.
Defined.

Lemma rfind_nl_none (b : str) :
  Common.count_nl b = 0 -> Common.rfind_nl b = (-1)%Z.
Proof.
  unfold Common.count_nl. induction b as [|c b IH]; [reflexivity|].
  cbn [List.filter Common.rfind_nl].
  destruct (ascii_eqb nl c); [intros H; discriminate H|].
  intros H. now rewrite (IH H).
Qed.

Lemma rfind_nl_last (a b : str) :
  Common.count_nl b = 0 ->
  Common.rfind_nl (a ++ nl :: b) = Z.of_nat (length a).
Proof.
  intros Hb. induction a as [|c a IH].
  - cbn [app Common.rfind_nl length]. rewrite (rfind_nl_none b Hb).
    reflexivity.
  - cbn [app Common.rfind_nl length]. rewrite IH.
    destruct (Z.leb_spec 0 (Z.of_nat (length a))); lia.
Qed.

(** X21.  The column that [linepos] gives counts from the newline before the
    position: at [k] characters behind the start of a line (none of them
    a newline) it is [k + 2] when a newline precedes the line, and
    [k + 1] on the first line of the text. *)
Theorem linepos_counts_from_newline (a b c : str) :
  Common.count_nl b = 0 ->
  Common.linepos (a ++ nl :: b ++ c)
                 (Some (Z.of_nat (length a + 1 + length b)))
  = (Z.of_nat (length b) + 2)%Z
  /\ Common.linepos (b ++ c) (Some (Z.of_nat (length b)))
     = (Z.of_nat (length b) + 1)%Z.
Proof.
  intros Hb. unfold Common.linepos, Common.range_end. split.
  - destruct (Z.ltb_spec (Z.of_nat (length a + 1 + length b)) 0); [lia|].
    rewrite Nat2Z.id.
    replace (Nat.min _ _) with (length (a ++ nl :: b))
      by (rewrite !length_app; simpl; rewrite length_app; lia).
    change (a ++ nl :: b ++ c) with (a ++ (nl :: b) ++ c).
    rewrite app_assoc, firstn_app, Nat.sub_diag, firstn_all. simpl.
    rewrite app_nil_r, (rfind_nl_last a b Hb).
    destruct (Z.leb_spec 0 (Z.of_nat (length a))); lia.
  - destruct (Z.ltb_spec (Z.of_nat (length b)) 0); [lia|].
    rewrite Nat2Z.id.
    replace (Nat.min _ _) with (length b) by (rewrite length_app; lia).
    rewrite firstn_app, Nat.sub_diag, firstn_all. simpl.
    rewrite app_nil_r, (rfind_nl_none b Hb). reflexivity.
Qed.

Lemma linepos_counts_from_newline_witness :
  Common.linepos (s "ab" ++ nl :: s "cd" ++ s "e")
                 (Some (Z.of_nat (length (s "ab") + 1 + length (s "cd"))))
  = (Z.of_nat (length (s "cd")) + 2)%Z
  /\ Common.linepos (s "cd" ++ s "e") (Some (Z.of_nat (length (s "cd"))))
     = (Z.of_nat (length (s "cd")) + 1)%Z.
Proof.
  apply (linepos_counts_from_newline (s "ab") (s "cd") (s "e")).
  reflexivity.
Defined.

End CommonFacts.

(** ** The registry of macros, escaping, the arguments of a call *)

Module MacroFacts.

Import Samples Props.

(** *** [c_string_escape] *)

Lemma replace_char (c : ascii) (new x : str) :
  replace [c] new x
  = flat_map (fun d => if ascii_eqb c d then new else [d]) x.
Proof.
  unfold replace. induction x as [|d x IH]; [reflexivity|].
  cbn [replace_from starts_with flat_map length].
  rewrite andb_true_r. destruct (ascii_eqb c d).
  - simpl. now rewrite IH.
  - now rewrite IH.
Qed.

Lemma flat_map_flat_map {A B C : Type} (f : A -> list B) (g : B -> list C)
    (l : list A) :
  flat_map g (flat_map f l) = flat_map (fun x => flat_map g (f x)) l.
Proof.
  induction l as [|x l IH]; simpl; [reflexivity|].
  now rewrite flat_map_app, IH.
Qed.

Lemma c_string_escape_chars (txt : str) :
  Macro.c_string_escape txt = flat_map escape_char txt.
Proof.
  unfold Macro.c_string_escape. rewrite !replace_char, !flat_map_flat_map.
  apply RegexFacts.flat_map_ext_in. intros c _.
  destruct c as [[] [] [] [] [] [] [] []]; reflexivity.
Qed.

(** X8.  The escaped text is one line without tabs: [c_string_escape] leaves
    neither a newline nor a tab in its result, for every text. *)
Theorem c_string_escape_one_line (txt : str) :
  Forall (fun c => c <> nl /\ c <> tab) (Macro.c_string_escape txt).
Proof.
  rewrite c_string_escape_chars.
  induction txt as [|c txt IH]; simpl; [constructor|].
  apply Forall_app. split; [|exact IH]. clear.
  destruct c as [[] [] [] [] [] [] [] []]; vm_compute;
    repeat constructor; discriminate.
Qed.

Lemma unescape_escape_char (c : ascii) (rest : str) :
  unescape (escape_char c ++ rest) = c :: unescape rest.
Proof. destruct c as [[] [] [] [] [] [] [] []]; reflexivity. Qed.

Lemma unescape_escape (txt : str) :
  unescape (flat_map escape_char txt) = txt.
Proof.
  induction txt as [|c txt IH]; [reflexivity|].
  cbn [flat_map]. now rewrite unescape_escape_char, IH.
Qed.

(** X9.  [c_string_escape] loses nothing: two texts with the same escaped
    text are the same text. *)
Theorem c_string_escape_injective (a b : str) :
  Macro.c_string_escape a = Macro.c_string_escape b -> a = b.
Proof.
  rewrite !c_string_escape_chars. intros H.
  apply (f_equal unescape) in H. now rewrite !unescape_escape in H.
Qed.

Lemma c_string_escape_injective_witness :
  s "a" ++ [dquote; bslash] = [Ascii.ascii_of_nat 97; dquote; bslash].
Proof.
  apply (c_string_escape_injective
           (s "a" ++ [dquote; bslash])
           [Ascii.ascii_of_nat 97; dquote; bslash]).
  vm_compute. reflexivity.
Defined.

(** *** [Macros.add] and [Macros.upsert] *)

Lemma str_eqb_refl (a : str) : str_eqb a a = true.
Proof. now apply ExpandFacts.str_eqb_eq. Qed.

Lemma str_eqb_spec (a b : str) : reflect (a = b) (str_eqb a b).
Proof.
  destruct (str_eqb a b) eqn:E; constructor.
  - now apply ExpandFacts.str_eqb_eq.
  - intros H. apply ExpandFacts.str_eqb_eq in H. congruence.
Qed.

Lemma lookup_dict_set (k k' : str) (v : Macro.MacroParts)
    (d : Macro.macro_dict) :
  Macro.lookup k (Macro.dict_set k' v d)
  = if str_eqb k k' then Some v else Macro.lookup k d.
Proof.
  induction d as [|[k0 v0] d IH]; simpl.
  - now destruct (str_eqb k k').
  - destruct (str_eqb_spec k' k0) as [->|N0]; simpl.
    + now destruct (str_eqb k k0).
    + destruct (str_eqb_spec k k0) as [->|N1]; [|exact IH].
      destruct (str_eqb_spec k0 k') as [->|N2]; [contradiction|reflexivity].
Qed.

Lemma keys_dict_set (k : str) (v : Macro.MacroParts) (d : Macro.macro_dict) :
  map fst (Macro.dict_set k v d)
  = if str_in k (map fst d) then map fst d else map fst d ++ [k].
Proof.
  unfold str_in. induction d as [|[k0 v0] d IH]; simpl; [reflexivity|].
  destruct (str_eqb k k0) eqn:E; simpl.
  - apply ExpandFacts.str_eqb_eq in E. now subst.
  - rewrite IH. now destruct (existsb (str_eqb k) (map fst d)).
Qed.

(** X10.  [Macros.add] stores the macro under its name and nothing else
    changes: afterwards the name gives the macro added, every other name
    gives what it gave before, and the names keep their order, a new name
    coming last. *)
Theorem add_then_lookup (macro : Macro.MacroParts) (d : Macro.macro_dict)
    (k : str) :
  Macro.lookup k (Macro.add macro d)
  = (if str_eqb k (value (Macro.name macro)) then Some macro
     else Macro.lookup k d)
  /\ map fst (Macro.add macro d)
     = (if str_in (value (Macro.name macro)) (map fst d) then map fst d
        else map fst d ++ [value (Macro.name macro)]).
Proof.
  unfold Macro.add. split; [apply lookup_dict_set|apply keys_dict_set].
Qed.

Lemma lookup_in_keys (k : str) (d : Macro.macro_dict) (m : Macro.MacroParts) :
  Macro.lookup k d = Some m -> str_in k (map fst d) = true.
Proof.
  unfold str_in. induction d as [|[k0 v0] d IH]; simpl; [discriminate|].
  destruct (str_eqb k k0); [reflexivity|exact IH].
Qed.

(** X11.  [Macros.upsert] never replaces a definition: when the name of
    [other] is registered, the registered macro keeps its name, its
    parameters, its body and its flags, and takes the comment of [other]
    only if it has none; every other name gives what it gave before and
    the names keep their order. *)
Theorem upsert_keeps_first_definition (other m : Macro.MacroParts)
    (d : Macro.macro_dict) :
  Macro.lookup (value (Macro.name other)) d = Some m ->
  (exists m',
     Macro.lookup (value (Macro.name other)) (Macro.upsert other d) = Some m'
     /\ Macro.name m' = Macro.name m
     /\ Macro.args m' = Macro.args m
     /\ Macro.body m' = Macro.body m
     /\ Macro.is_va_args m' = Macro.is_va_args m
     /\ Macro.is_wellformed_flag m' = Macro.is_wellformed_flag m
     /\ Macro.preComment m'
        = match Macro.preComment m with
          | Some c => Some c
          | None => Macro.preComment other
          end)
  /\ (forall k, str_eqb k (value (Macro.name other)) = false ->
                Macro.lookup k (Macro.upsert other d) = Macro.lookup k d)
  /\ map fst (Macro.upsert other d) = map fst d.
Proof.
  intros Hl. unfold Macro.upsert. rewrite Hl.
  split; [|split].
  - exists (Macro.MacroParts_update m other).
    rewrite lookup_dict_set, str_eqb_refl.
    unfold Macro.MacroParts_update.
    destruct (Macro.preComment m) eqn:E; simpl; rewrite ?E; auto 10.
  - intros k Hk. now rewrite lookup_dict_set, Hk.
  - now rewrite keys_dict_set, (lookup_in_keys _ _ _ Hl).
Qed.

(** The theorem at [#define A 2] after [#define A 1]: the body stays
    [1]. *)
Lemma upsert_keeps_first_definition_witness :
  exists m',
    Macro.lookup (s "A")
      (Macro.upsert (object_like true "A" "2")
                    (Macro.macros (registry [object_like true "A" "1"])))
    = Some m'
    /\ Macro.body m' = Some (tok "1").
Proof.
  destruct (upsert_keeps_first_definition
              (object_like true "A" "2") (object_like true "A" "1")
              (Macro.macros (registry [object_like true "A" "1"]))
              eq_refl) as [(m' & H1 & _ & _ & H2 & _) _].
  exists m'. split; [exact H1|exact H2].
Defined.

(** *** The arguments of a call *)

Lemma append_last_length (l : list (list Token)) (t : Token) :
  length (Macro.append_last l t) = length l.
Proof.
  induction l as [|a l IH]; [reflexivity|].
  destruct l as [|b l]; [reflexivity|].
  change (Macro.append_last (a :: b :: l) t)
    with (a :: Macro.append_last (b :: l) t).
  simpl in *. now rewrite IH.
Qed.

Lemma parse_args_count (nparams : nat) (va : bool) (tokens : list Token)
    (args_val : list (list Token)) :
  length args_val
  <= length (Macro.parse_args nparams va tokens args_val)
  <= Nat.max (length args_val) nparams.
Proof.
  revert args_val; induction tokens as [|t tokens IH]; intros args_val;
    cbn [Macro.parse_args]; [lia|].
  pose proof (append_last_length args_val t) as Ha.
  destruct (str_eqb (value t) _).
  - destruct (Nat.ltb_spec (length args_val) nparams).
    + specialize (IH (args_val ++ [[]])). rewrite length_app in IH.
      simpl in IH. lia.
    + destruct va; simpl; [|lia].
      specialize (IH (Macro.append_last args_val t)). lia.
  - specialize (IH (Macro.append_last args_val t)). lia.
Qed.

(** X5.  The loop that splits the arguments of a call never makes more
    arguments than the macro has parameters (and one argument for a
    macro without parameters), and always at least one: for every list
    of tokens, variadic or not. *)
Theorem parse_args_at_most_nparams (nparams : nat) (va : bool)
    (tokens : list Token) :
  1 <= length (Macro.parse_args nparams va tokens [[]])
  <= Nat.max 1 nparams.
Proof. exact (parse_args_count nparams va tokens [[]]). Qed.

Lemma parse_args_stops (nparams : nat) (pre post : list Token)
    (comma : Token) (args_val : list (list Token)) :
  value comma = s "," ->
  length (Macro.parse_args nparams false pre args_val) = nparams ->
  Macro.parse_args nparams false (pre ++ comma :: post) args_val
  = Macro.parse_args nparams false pre args_val.
Proof.
  intros Hc. revert args_val; induction pre as [|t pre IH]; intros args_val;
    cbn [Macro.parse_args app].
  - intros <-. rewrite Hc. simpl. now rewrite Nat.ltb_irrefl.
  - destruct (str_eqb (value t) _).
    + destruct (length args_val <? nparams); [apply IH|reflexivity].
    + apply IH.
Qed.

(** X6.  For a macro that is not variadic the reading of the arguments ends
    at the comma that follows the last parameter's argument: when the
    tokens [pre] give as many arguments as there are parameters, the
    tokens [pre , post] give the same arguments, whatever [post] is.
    Arguments in excess are dropped, and no error is recorded for
    them. *)
Theorem parse_args_drops_excess (nparams : nat) (pre post : list Token)
    (comma : Token) :
  value comma = s "," ->
  length (Macro.parse_args nparams false pre [[]]) = nparams ->
  Macro.parse_args nparams false (pre ++ comma :: post) [[]]
  = Macro.parse_args nparams false pre [[]].
Proof. apply parse_args_stops. Qed.

(** The theorem at the call [M(1,2,3)] of a macro with two
    parameters. *)
Lemma parse_args_drops_excess_witness :
  Macro.parse_args 2 false
    ([tok "1"; tok ","; tok "2"] ++ tok "," :: [tok "3"]) [[]]
  = Macro.parse_args 2 false [tok "1"; tok ","; tok "2"] [[]].
Proof.
  apply (parse_args_drops_excess 2 [tok "1"; tok ","; tok "2"] [tok "3"]
           (tok ",")); reflexivity.
Defined.

Lemma tokens_in_cons (v : list Token) (l : list (list Token)) :
  tokens_in (v :: l) = length v + tokens_in l.
Proof. reflexivity. Qed.

Lemma tokens_in_append_last (l : list (list Token)) (t : Token) :
  l <> [] -> tokens_in (Macro.append_last l t) = S (tokens_in l).
Proof.
  induction l as [|a l IH]; [contradiction|]. intros _.
  destruct l as [|b l].
  - unfold tokens_in. simpl. rewrite length_app. simpl. lia.
  - change (Macro.append_last (a :: b :: l) t)
      with (a :: Macro.append_last (b :: l) t).
    rewrite !tokens_in_cons, IH by discriminate.
    rewrite tokens_in_cons. lia.
Qed.

Lemma parse_args_keeps (nparams : nat) (tokens : list Token)
    (args_val : list (list Token)) :
  args_val <> [] ->
  tokens_in (Macro.parse_args nparams true tokens args_val)
  + length (Macro.parse_args nparams true tokens args_val)
  = tokens_in args_val + length args_val + length tokens.
Proof.
  revert args_val; induction tokens as [|t tokens IH]; intros args_val Hne;
    cbn [Macro.parse_args length]; [lia|].
  assert (Ha : Macro.append_last args_val t <> []).
  { intros E. apply (f_equal (@length _)) in E.
    rewrite append_last_length in E. destruct args_val; [contradiction|].
    discriminate. }
  pose proof (append_last_length args_val t) as Hl.
  pose proof (tokens_in_append_last args_val t Hne) as Ht.
  destruct (str_eqb (value t) _).
  - destruct (length args_val <? nparams).
    + rewrite IH by (destruct args_val; discriminate).
      unfold tokens_in. rewrite map_app, list_sum_app, length_app.
      simpl. lia.
    + cbn [negb]. rewrite (IH _ Ha). lia.
  - rewrite (IH _ Ha). lia.
Qed.

(** X7.  For a variadic macro no token of the argument list is lost: every
    token is in one of the arguments or is one of the commas that
    separate them (the tokens in the arguments and the separating
    commas add up to the tokens of the list). *)
Theorem parse_args_variadic_keeps_all (nparams : nat)
    (tokens : list Token) :
  tokens_in (Macro.parse_args nparams true tokens [[]])
  + (length (Macro.parse_args nparams true tokens [[]]) - 1)
  = length tokens.
Proof.
  pose proof (parse_args_keeps nparams tokens [[]] ltac:(discriminate)) as H.
  pose proof (parse_args_count nparams true tokens [[]]) as Hc.
  unfold tokens_in at 2 in H. simpl in H, Hc. lia.
Qed.

End MacroFacts.

(** ** What an expansion leaves behind *)

Module ExpandStateFacts.

Import Samples Props.

Lemma extends_refl (st : Macro.state) : extends st st.
Proof. split; [|split]; [reflexivity|reflexivity|]. exists []. now rewrite app_nil_r. Qed.

Lemma extends_trans (a b c : Macro.state) :
  extends a b -> extends b c -> extends a c.
Proof.
  intros (H1 & H2 & l1 & H3) (K1 & K2 & l2 & K3).
  split; [congruence|]. split; [congruence|].
  exists (l1 ++ l2). rewrite K3, H3. now rewrite app_assoc.
Qed.

(** Leaving a macro that was entered gives the state back. *)
Lemma leave_after_enter (nm : str) (st st1 st2 : Macro.state) :
  str_in nm (Macro.in_use st) = false ->
  extends (Macro.enter nm st) st1 ->
  Macro.leave nm st1 = Ok st2 ->
  extends st st2.
Proof.
  intros Hn (H1 & H2 & l & H3). unfold Macro.leave.
  destruct (str_in nm (Macro.in_use st1)); [|discriminate].
  intros [= <-]. unfold Macro.enter in *. simpl in *.
  rewrite Hn in H1. rewrite H1, H2, H3.
  split; [|split].
  - simpl. rewrite (proj2 (ExpandFacts.str_eqb_eq nm nm) eq_refl). simpl.
    now apply ExpandFacts.str_in_false.
  - simpl. apply removelast_last.
  - simpl. now exists l.
Qed.

Section SubState.
Context {M : Type}.
Variable matcher : nat -> option M.
Variable stop : M -> nat.
Variable txt : str.
Variable cb : nat -> M -> Macro.state -> result (str * Macro.state).

Hypothesis cb_extends :
  forall p m st x st1, cb p m st = Ok (x, st1) -> extends st st1.

Lemma sub_st_from_extends (n p : nat) (st : Macro.state) (r : str)
    (st' : Macro.state) :
  sub_st_from matcher stop txt cb n p st = Ok (r, st') -> extends st st'.
Proof.
  revert p st r; induction n as [|n IH]; intros p st r;
    cbn [sub_st_from].
  - intros [= _ <-]. apply extends_refl.
  - destruct (nth_error txt p) as [c|];
      [|intros [= _ <-]; apply extends_refl].
    destruct (matcher p) as [m|].
    + destruct (cb p m st) as [[x st1]| |] eqn:E; cbn [bind];
        try discriminate.
      apply cb_extends in E.
      destruct (p <? stop m).
      * destruct (sub_st_from _ _ _ _ n (stop m) st1) as [[y st2]| |] eqn:E2;
          cbn [bind]; try discriminate.
        intros [= _ <-]. apply IH in E2.
        exact (extends_trans _ _ _ E E2).
      * destruct (sub_st_from _ _ _ _ n (S p) st1) as [[y st2]| |] eqn:E2;
          cbn [bind]; try discriminate.
        intros [= _ <-]. apply IH in E2.
        exact (extends_trans _ _ _ E E2).
    + destruct (sub_st_from _ _ _ _ n (S p) st) as [[y st2]| |] eqn:E2;
        cbn [bind]; try discriminate.
      intros [= _ <-]. exact (IH _ _ _ E2).
Qed.
End SubState.

Section Callbacks.
Variable atomic_calls : bool.
Variable self : Macro.Macros.
Variable rec : str -> Macro.state -> result (str * Macro.state).

Hypothesis rec_extends :
  forall x st r st', rec x st = Ok (r, st') -> extends st st'.

Lemma reexpand_extends (nm x : str) (st : Macro.state) (r : str)
    (st' : Macro.state) :
  str_in nm (Macro.in_use st) = false ->
  (let* '(replacement, st1) := rec x (Macro.enter nm st) in
   let* st2 := Macro.leave nm st1 in
   Ok (replacement, st2)) = Ok (r, st') ->
  extends st st'.
Proof.
  intros Hn.
  destruct (rec x (Macro.enter nm st)) as [[y st1]| |] eqn:E; cbn [bind];
    try discriminate.
  destruct (Macro.leave nm st1) as [st2| |] eqn:El; cbn [bind];
    try discriminate.
  intros [= _ <-].
  exact (leave_after_enter nm st st1 st2 Hn (rec_extends _ _ _ _ E) El).
Qed.

Lemma expand_obj_like_extends (nm whole : str) (st : Macro.state)
    (r : str) (st' : Macro.state) :
  Macro.expand_obj_like self rec nm whole st = Ok (r, st') ->
  extends st st'.
Proof.
  unfold Macro.expand_obj_like.
  destruct (str_in nm (Macro.in_use st)) eqn:Hn;
    [intros [= _ <-]; apply extends_refl|].
  destruct (Macro.lookup nm (Macro.macros self)) as [macro|];
    [|discriminate].
  destruct (Macro.body macro) as [b|];
    [|intros [= _ <-]; apply extends_refl].
  now apply reexpand_extends.
Qed.

Lemma expand_args_extends (d : Macro.arg_dict) (st : Macro.state)
    (r : Macro.arg_dict) (st' : Macro.state) :
  Macro.expand_args rec d st = Ok (r, st') -> extends st st'.
Proof.
  revert st r; induction d as [|[k v] d IH]; intros st r;
    cbn [Macro.expand_args].
  - intros [= _ <-]. apply extends_refl.
  - destruct (rec v st) as [[v' st1]| |] eqn:E; cbn [bind];
      try discriminate.
    destruct (Macro.expand_args rec d st1) as [[r' st2]| |] eqn:E2;
      cbn [bind]; try discriminate.
    intros [= _ <-].
    exact (extends_trans _ _ _ (rec_extends _ _ _ _ E) (IH _ _ E2)).
Qed.

Lemma expand_fn_like_extends (nm whole lst : str) (st : Macro.state)
    (r : str) (st' : Macro.state) :
  Macro.expand_fn_like atomic_calls self rec nm whole lst st = Ok (r, st') ->
  extends st st'.
Proof.
  unfold Macro.expand_fn_like.
  destruct (str_in nm (Macro.in_use st)) eqn:Hn;
    [intros [= _ <-]; apply extends_refl|].
  destruct (Macro.lookup nm (Macro.macros self)) as [macro|];
    [|discriminate].
  destruct (Macro.body macro) as [b|];
    [|intros [= _ <-]; apply extends_refl].
  destruct (Macro.args macro) as [params|]; [|discriminate].
  destruct (_ <? _).
  { intros [= _ <-]. split; [reflexivity|]. split; [reflexivity|].
    simpl. now eexists. }
  destruct params as [|p0 params].
  - cbn [bind]. now apply reexpand_extends.
  - destruct (Macro.expand_args rec _ st) as [[ade st1]| |] eqn:E;
      cbn [bind]; try discriminate.
    apply expand_args_extends in E. intros H.
    apply reexpand_extends in H.
    + exact (extends_trans _ _ _ E H).
    + destruct E as (E1 & _). now rewrite E1.
Qed.

Lemma expand_match_extends (txt : str) (p : nat) (m : Macro.name_match)
    (st : Macro.state) (r : str) (st' : Macro.state) :
  Macro.expand_match atomic_calls self rec txt p m st = Ok (r, st') ->
  extends st st'.
Proof.
  unfold Macro.expand_match.
  destruct (Macro.fn_like_names self); [discriminate|].
  destruct m as [e|nm e|nm ls le e].
  - intros [= _ <-]. apply extends_refl.
  - apply expand_obj_like_extends.
  - apply expand_fn_like_extends.
Qed.
End Callbacks.

Lemma expand_fragment_extends (atomic_calls : bool)
    (self : Macro.Macros) (fuel : nat) (txt : str) (st : Macro.state)
    (r : str) (st' : Macro.state) :
  Macro.expand_fragment atomic_calls self fuel txt st = Ok (r, st') ->
  extends st st'.
Proof.
  revert txt st r st'; induction fuel as [|fuel IH]; intros txt st r st';
    cbn [Macro.expand_fragment]; [discriminate|].
  unfold sub_st. apply sub_st_from_extends.
  intros p m st0 x st1. apply expand_match_extends. exact IH.
Qed.

(** X2.  An expansion that returns leaves the registry as it found it, but
    for the errors: after [_expand_fragment] has returned a text,
    [_in_use] and [_in_use_stack] are what they were at the call, and
    [errors] is what it was with the new errors appended.  This holds at
    every depth of the recursion, for every registry and text. *)
Theorem expand_fragment_restores_state (atomic_calls : bool)
    (self : Macro.Macros) (fuel : nat) (txt : str) (st : Macro.state)
    (r : str) (st' : Macro.state) :
  Macro.expand_fragment atomic_calls self fuel txt st = Ok (r, st') ->
  extends st st'.
Proof. apply expand_fragment_extends. Qed.

(** The theorem at the expansion of [B] with [#define A 1],
    [#define B A] and [#define F(x) x]. *)
Lemma expand_fragment_restores_state_witness :
  extends Macro.state0 Macro.state0.
Proof.
  apply (expand_fragment_restores_state true
           (registry [object_like true "A" "1"; object_like true "B" "A";
                      function_like true "F" ["x"] "x"])
           3 (s "B") Macro.state0 (s "1") Macro.state0).
  vm_compute. reflexivity.
Defined.

(** *** String literals *)

Section Literal.
Variable x : str.
Hypothesis x_plain : forallb plain x = true.

Local Abbreviation txt := (quoted x).

Variable call : nat -> list nat.

Local Abbreviation item :=
  (Atomic (Alt (none_of [bslash; dquote]) (Seq (Chr bslash) any))).

Lemma nth_quoted_inside (pre post : str) (c : ascii) :
  x = pre ++ c :: post ->
  nth_error txt (S (length pre)) = Some c.
Proof.
  intros ->. unfold quoted. simpl.
  rewrite <- app_assoc. rewrite nth_error_app2 by lia.
  now rewrite Nat.sub_diag.
Qed.

Lemma nth_quoted_end :
  nth_error txt (S (length x)) = Some dquote.
Proof.
  unfold quoted. simpl. rewrite nth_error_app2 by lia.
  now rewrite Nat.sub_diag.
Qed.

Lemma item_plain (q : nat) (c : ascii) :
  nth_error txt q = Some c -> plain c = true ->
  go txt call item q = [S q].
Proof.
  intros E Hc. unfold none_of, any. cbn [go]. rewrite E.
  unfold plain in Hc. apply andb_prop in Hc as [H1 H2]. cbn [existsb].
  destruct (ascii_eqb c bslash); [discriminate|].
  destruct (ascii_eqb c dquote); [discriminate|].
  reflexivity.
Qed.

Lemma item_quote (q : nat) :
  nth_error txt q = Some dquote -> go txt call item q = [].
Proof.
  intros E. unfold none_of, any. cbn [go]. rewrite E. reflexivity.
Qed.

Lemma star_item (post pre : str) (n : nat) :
  x = pre ++ post -> length post <= n ->
  exists rest,
    star_loop (go txt call item) n (S (length pre))
    = S (length x) :: rest.
Proof.
  revert pre n; induction post as [|c post IH]; intros pre n Hx Hn.
  - rewrite app_nil_r in Hx. subst pre.
    destruct n as [|n]; [now exists []|].
    cbn [star_loop]. rewrite (item_quote _ nth_quoted_end).
    now exists [].
  - destruct n as [|n]; [simpl in Hn; lia|].
    cbn [star_loop].
    assert (Hc : plain c = true).
    { pose proof x_plain as Hp. rewrite Hx, forallb_app in Hp.
      apply andb_prop in Hp as [_ Hp]. simpl in Hp.
      now apply andb_prop in Hp as [Hp _]. }
    rewrite (item_plain _ c (nth_quoted_inside pre post c Hx) Hc).
    cbn [flat_map].
    rewrite (proj2 (Nat.ltb_lt _ _) (Nat.lt_succ_diag_r (S (length pre)))).
    destruct (IH (pre ++ [c]) n) as [rest Hr].
    + now rewrite <- app_assoc.
    + simpl in Hn. lia.
    + rewrite length_app in Hr. cbn [length] in Hr.
      rewrite Nat.add_1_r in Hr. rewrite Hr. cbn [app]. now eexists.
Qed.

Lemma go_chr_hit (q : nat) (c : ascii) :
  nth_error txt q = Some c -> go txt call (Chr c) q = [S q].
Proof.
  intros E. cbn [go]. rewrite E. unfold ascii_eqb.
  now rewrite Ascii.eqb_refl.
Qed.

Lemma length_quoted : length txt = S (S (length x)).
Proof. unfold quoted. simpl. rewrite length_app. simpl. lia. Qed.

Lemma string_literal_whole :
  go txt call Grammar.string_literal 0 = [length txt].
Proof.
  change (go txt call Grammar.string_literal 0)
    with (firstn 1
            (flat_map
               (fun p =>
                  flat_map (go txt call (Chr dquote))
                    (star_loop (go txt call item) (length txt - p) p))
               (go txt call (Chr dquote) 0))).
  rewrite (go_chr_hit 0 dquote eq_refl). cbn [flat_map].
  destruct (star_item x [] (length txt - 1)) as [rest Hr];
    [reflexivity|rewrite length_quoted; lia|].
  change (length (@nil ascii)) with 0 in Hr. rewrite Hr.
  cbn [flat_map]. rewrite (go_chr_hit _ dquote nth_quoted_end).
  rewrite length_quoted. reflexivity.
Qed.

End Literal.

Lemma skipped_whole (x : str) :
  forallb plain x = true ->
  match_plain Macro.skipped (quoted x) 0 = Some (length (quoted x)).
Proof.
  intros Hx. unfold match_plain, match_at. cbn [run].
  set (h := fun q : nat => _).
  change (go (quoted x) h Macro.skipped 0)
    with (go (quoted x) h Grammar.directive_or_line_comment 0
          ++ go (quoted x) h Grammar.block_comment 0
          ++ go (quoted x) h Grammar.string_literal 0
          ++ go (quoted x) h Grammar.char_literal 0).
  rewrite (string_literal_whole x Hx h).
  change (go (quoted x) h Grammar.directive_or_line_comment 0)
    with (@nil nat).
  change (go (quoted x) h Grammar.block_comment 0) with (@nil nat).
  reflexivity.
Qed.

(** X4.  A string literal is not expanded: with a function-like macro
    registered, the expansion of a text that is one string literal
    (without a double quote or a backslash inside) is that text, with no
    change of the state, whatever macros are registered and whatever
    names the literal holds. *)
Theorem string_literal_not_expanded (atomic_calls : bool)
    (self : Macro.Macros) (fuel : nat) (x : str) (st : Macro.state) :
  Macro.fn_like_names self <> [] ->
  forallb plain x = true ->
  Macro.expand_fragment atomic_calls self (S fuel) (quoted x) st
  = Ok (quoted x, st).
Proof.
  intros Hfn Hx. cbn [Macro.expand_fragment]. unfold sub_st.
  pose proof (length_quoted x) as Hlen.
  rewrite Hlen. cbn [sub_st_from].
  change (nth_error (quoted x) 0) with (Some dquote).
  unfold Macro.names_reg_match at 1.
  rewrite (skipped_whole x Hx). cbn [Macro.name_match_end].
  unfold Macro.expand_match at 1.
  destruct (Macro.fn_like_names self); [contradiction|].
  cbn [bind Macro.name_match_end]. rewrite Hlen.
  cbn [Nat.ltb Nat.leb sub_st_from].
  replace (nth_error (quoted x) (S (S (length x)))) with (@None ascii)
    by (symmetry; apply nth_error_None; lia).
  cbn [bind]. rewrite app_nil_r.
  rewrite <- Hlen, TokenFacts.slice_all. reflexivity.
Qed.

(** The theorem at the literal that holds [A F(1)], with [#define A 1]
    and [#define F(x) x]. *)
Lemma string_literal_not_expanded_witness :
  Macro.expand_fragment true
    (registry [object_like true "A" "1"; function_like true "F" ["x"] "x"])
    1 (quoted (s "A F(1)")) Macro.state0
  = Ok (quoted (s "A F(1)"), Macro.state0).
Proof.
  apply (string_literal_not_expanded true
           (registry [object_like true "A" "1";
                      function_like true "F" ["x"] "x"])
           0 (s "A F(1)") Macro.state0).
  - vm_compute. discriminate.
  - reflexivity.
Defined.

(** *** A registry without a function-like macro *)

Lemma skipn_nth (x : str) (p : nat) (c : ascii) :
  nth_error x p = Some c -> skipn p x = c :: skipn (S p) x.
Proof.
  revert p; induction x as [|d x IH]; intros [|p] H; simpl in *;
    try discriminate.
  - now injection H as ->.
  - now apply IH.
Qed.

Section NoCall.
Context {M : Type}.
Variable matcher : nat -> option M.
Variable stop : M -> nat.
Variable txt : str.
Variable cb : nat -> M -> Macro.state -> result (str * Macro.state).

Hypothesis cb_raises : forall p m st, cb p m st = Raise IndexError.

Lemma sub_st_from_raises (n p : nat) (st : Macro.state) :
  length txt - p <= n ->
  sub_st_from matcher stop txt cb n p st
  = if existsb (fun q => match matcher q with
                         | Some _ => true
                         | None => false
                         end)
               (seq p (length txt - p))
    then Raise IndexError
    else Ok (skipn p txt, st).
Proof.
  revert p; induction n as [|n IH]; intros p Hn; cbn [sub_st_from].
  - replace (length txt - p) with 0 by lia.
    rewrite skipn_all2 by lia. reflexivity.
  - destruct (nth_error txt p) as [c|] eqn:E.
    + assert (Hp : p < length txt) by (apply nth_error_Some; congruence).
      replace (length txt - p) with (S (length txt - S p)) by lia.
      cbn [seq existsb].
      destruct (matcher p) as [m|].
      * now rewrite cb_raises.
      * rewrite IH by lia. cbn [orb].
        destruct (existsb _ _); cbn [bind]; [reflexivity|].
        now rewrite (skipn_nth txt p c E).
    + apply nth_error_None in E.
      replace (length txt - p) with 0 by lia.
      rewrite skipn_all2 by lia. reflexivity.
Qed.
End NoCall.

(** X3.  With no function-like macro registered nothing is ever expanded:
    [_expand_fragment] returns the text as it is when its pattern matches
    nowhere in the text, and raises [IndexError] when it matches
    somewhere, be it a name of a macro, a comment, a directive or a
    literal (the function given to [sub] reads the group [args], which
    the pattern then does not have). *)
Theorem expand_without_function_like (atomic_calls : bool)
    (self : Macro.Macros) (fuel : nat) (txt : str) (st : Macro.state) :
  Macro.fn_like_names self = [] ->
  Macro.expand_fragment atomic_calls self (S fuel) txt st
  = if matches_somewhere atomic_calls self txt
    then Raise IndexError
    else Ok (txt, st).
Proof.
  intros Hfn. cbn [Macro.expand_fragment]. unfold sub_st.
  rewrite sub_st_from_raises.
  - rewrite Nat.sub_0_r. reflexivity.
  - intros p m st0. unfold Macro.expand_match. now rewrite Hfn.
  - lia.
Qed.

(** The theorem at a string literal, with [#define A 1] alone. *)
Lemma expand_without_function_like_witness :
  Macro.expand_fragment true (registry [object_like true "A" "1"]) 1
    (quoted (s "s")) Macro.state0
  = Raise IndexError.
Proof.
  apply (eq_trans
           (expand_without_function_like true
              (registry [object_like true "A" "1"]) 0 (quoted (s "s"))
              Macro.state0 eq_refl)).
  vm_compute. reflexivity.
Defined.

End ExpandStateFacts.

(** ** A statement without a directive *)

Module DefineFacts.

Import Samples Props.

Section Raises.
Variable atomic_calls : bool.
Variable getKind : Token -> str.
Variable clean_text_sz : str -> str.

Lemma find_define_no_code (tokens : list Token) (pc : option Token) :
  Forall (fun t => str_in (getKind t) [s " "; s "/"] = true) tokens ->
  Macro.find_define getKind tokens pc = Raise NameError.
Proof.
  revert pc; induction tokens as [|t tokens IH]; intros pc H;
    cbn [Macro.find_define]; [reflexivity|].
  inversion H as [|? ? Ht H']; subst. rewrite Ht.
  destruct (_ && _); now apply IH.
Qed.

(** X12.  A statement that holds only comments and white space, or no token
    at all, makes [MacroParts.fromStatement] raise: its loop ends
    without a match, and the name [match] is read unbound. *)
Theorem fromStatement_without_code_raises (tokens : list Token) :
  Forall (fun t => str_in (getKind t) [s " "; s "/"] = true) tokens ->
  Macro.fromStatement atomic_calls getKind clean_text_sz tokens
  = Raise NameError.
Proof.
  intros H. unfold Macro.fromStatement.
  now rewrite (find_define_no_code tokens None H).
Qed.
End Raises.

Lemma fromStatement_without_code_raises_witness :
  Macro.fromStatement true kind_by_first_char (fun x => x)
    [tok "/* c */"; tok " "]
  = Raise NameError.
Proof.
  apply (fromStatement_without_code_raises true kind_by_first_char
           (fun x => x) [tok "/* c */"; tok " "]).
  repeat constructor.
Defined.

End DefineFacts.

(** ** The token grammar of the preprocessor on an identifier *)

Module GrammarFacts.

Import Props.

Lemma rejects_sound (txt : str) (call : nat -> list nat) (r : re)
    (p : nat) (c : ascii) :
  nth_error txt p = Some c -> rejects r c = true -> go txt call r p = [].
Proof.
  intros E.
  induction r as [|d|f|a IHa b IHb|a IHa b IHb|a IHa|a IHa| |l|];
    cbn [rejects go]; try discriminate.
  - rewrite E. now intros ->%negb_true_iff.
  - rewrite E. now intros ->%negb_true_iff.
  - intros H. now rewrite (IHa H).
  - intros [Ha Hb]%andb_prop. now rewrite (IHa Ha), (IHb Hb).
  - intros H. now rewrite (IHa H).
Qed.

(** Every alternative of [re_token_preproc] before the last asks for a
    first character that is not a word character. *)
Lemma word_char_rejected (c : ascii) :
  is_word c = true ->
  rejects (Alts (removelast
                   (Grammar.line_comment
                    :: Grammar.token_tail Grammar.operators_preproc))) c
  = true.
Proof.
  destruct c as [[] [] [] [] [] [] [] []]; vm_compute;
    intros H; (reflexivity || discriminate H).
Qed.

Lemma go_cls (txt : str) (call : nat -> list nat) (f : ascii -> bool)
    (p : nat) :
  go txt call (Cls f) p
  = match nth_error txt p with
    | Some d => if f d then [S p] else []
    | None => []
    end.
Proof. reflexivity. Qed.

Section Word.
Variable w : str.
Hypothesis w_word : forallb is_word w = true.
Variable call : nat -> list nat.

Lemma nth_word (p : nat) (c : ascii) :
  nth_error w p = Some c -> is_word c = true.
Proof.
  intros E. apply nth_error_In in E.
  rewrite forallb_forall in w_word. now apply w_word.
Qed.

Lemma star_word (n p : nat) :
  length w - p <= n -> p <= length w ->
  exists rest,
    star_loop (go w call (Cls is_word)) n p = length w :: rest.
Proof.
  revert p; induction n as [|n IH]; intros p Hn Hp.
  - exists []. cbn [star_loop]. f_equal. lia.
  - cbn [star_loop]. rewrite go_cls.
    destruct (nth_error w p) as [c|] eqn:E.
    + assert (p < length w) by (apply nth_error_Some; congruence).
      rewrite (nth_word p c E). cbn [flat_map].
      rewrite (proj2 (Nat.ltb_lt _ _) (Nat.lt_succ_diag_r p)).
      destruct (IH (S p)) as [rest Hr]; [lia|lia|].
      rewrite Hr. cbn [app]. now eexists.
    + apply nth_error_None in E. exists []. cbn [flat_map app].
      f_equal. lia.
Qed.

Lemma word_alternative (c : ascii) (w' : str) :
  w = c :: w' ->
  go w call (Poss1 (Cls is_word)) 0 = [length w].
Proof.
  intros Hw. unfold Poss1.
  change (go w call (Atomic (Seq (Cls is_word) (Star (Cls is_word)))) 0)
    with (firstn 1
            (flat_map
               (fun p => star_loop (go w call (Cls is_word))
                           (length w - p) p)
               (go w call (Cls is_word) 0))).
  rewrite go_cls. assert (E : nth_error w 0 = Some c) by now rewrite Hw.
  rewrite E, (nth_word 0 c E). cbn [flat_map].
  destruct (star_word (length w - 1) 1) as [rest Hr];
    [lia|rewrite Hw; simpl; lia|].
  rewrite Hr. reflexivity.
Qed.

Lemma token_at_start (c : ascii) (w' : str) :
  w = c :: w' ->
  exists rest, go w call Grammar.re_token_preproc 0 = length w :: rest.
Proof.
  intros Hw. assert (E : nth_error w 0 = Some c) by now rewrite Hw.
  change (go w call Grammar.re_token_preproc 0)
    with (go w call
            (Alt (Alts (removelast
                          (Grammar.line_comment
                           :: Grammar.token_tail
                                Grammar.operators_preproc)))
                 (Poss1 (Cls is_word))) 0
          ++ []) || idtac.
  assert (Hsplit :
            go w call Grammar.re_token_preproc 0
            = go w call
                (Alts (removelast
                         (Grammar.line_comment
                          :: Grammar.token_tail
                               Grammar.operators_preproc))) 0
              ++ go w call (Poss1 (Cls is_word)) 0).
  { unfold Grammar.re_token_preproc, Grammar.token_tail.
    cbn [removelast Alts]. cbn [go]. now rewrite <- !app_assoc. }
  rewrite Hsplit.
  rewrite (rejects_sound w call _ 0 c E
             (word_char_rejected c (nth_word 0 c E))).
  rewrite (word_alternative c w' Hw). now exists [].
Qed.
End Word.

(** X13.  An identifier is one token of the preprocessor grammar: for every
    text that is not empty and has only word characters,
    [re_token_preproc] gives the one token that is the whole text, and
    [is_wellformed] accepts the text. *)
Theorem identifier_is_one_token (atomic_calls : bool) (w : str) :
  w <> [] -> forallb is_word w = true ->
  xFromText atomic_calls Grammar.re_token_preproc w
  = [mkToken 0 (0, length w) w]
  /\ Macro.is_wellformed atomic_calls w = true.
Proof.
  intros Hne Hw. destruct w as [|c w'] eqn:Ew; [contradiction|].
  rewrite <- Ew in *. clear Hne.
  assert (Hlen : length w = S (length w')) by now rewrite Ew.
  assert (Hspans : reg_token_spans atomic_calls Grammar.re_token_preproc w
                   = [(0, length w)]).
  { unfold reg_token_spans, finditer. rewrite Hlen at 1.
    cbn [finditer_from].
    replace (length w <? 0) with false
      by (symmetry; apply Nat.ltb_ge; lia).
    assert (H0 : match_at atomic_calls Grammar.re_token_preproc w Call 0
                 = Some (length w)).
    { assert (Hrun : hd_error (run atomic_calls Grammar.re_token_preproc w
                                   (length w) Grammar.re_token_preproc 0)
                     = Some (length w)).
      { rewrite Hlen at 1. cbn [run].
        match goal with
        | |- hd_error (go w ?h _ 0) = _ =>
            destruct (token_at_start w Hw h c w' Ew) as [rest ->]
        end.
        reflexivity. }
      unfold match_at. cbn [run go]. cbv zeta.
      destruct atomic_calls; [|exact Hrun].
      destruct (run true _ w _ _ 0); [discriminate|exact Hrun]. }
    rewrite H0.
    replace (0 <? length w) with true
      by (symmetry; apply Nat.ltb_lt; lia).
    rewrite Nat.ltb_irrefl.
    assert (H1 : match_at atomic_calls Grammar.re_token_preproc w Call
                   (length w) = None).
    { unfold match_at. cbn [run go].
      rewrite RegexFacts.run_defs_past_end;
        [now destruct atomic_calls|vm_compute; reflexivity|lia]. }
    rewrite H1. destruct (length w') as [|k]; [reflexivity|].
    cbn [finditer_from].
    replace (length w <? S (length w)) with true
      by (symmetry; apply Nat.ltb_lt; lia).
    reflexivity. }
  split.
  - unfold xFromText. rewrite Hspans. cbn [number_tokens].
    now rewrite TokenFacts.slice_all.
  - unfold Macro.is_wellformed, is_wellformed. rewrite Hspans.
    cbn [wellformed_loop Nat.eqb negb]. apply Nat.eqb_refl.
Qed.

Lemma identifier_is_one_token_witness :
  xFromText true Grammar.re_token_preproc (s "abc_1")
  = [mkToken 0 (0, length (s "abc_1")) (s "abc_1")]
  /\ Macro.is_wellformed true (s "abc_1") = true.
Proof.
  apply (identifier_is_one_token true (s "abc_1")).
  - discriminate.
  - reflexivity.
Defined.

End GrammarFacts.

(** ** Priorities, merges and the tables of names *)

Module TableFacts.

Import Samples Props.

(** *** [FunctionParts.update] *)

Lemma tokens_eqb_refl (l : list Token) : Function.tokens_eqb l l = true.
Proof.
  induction l as [|t l IH]; [reflexivity|]. simpl.
  unfold Function.token_eqb at 1.
  now rewrite (proj2 (ExpandFacts.str_eqb_eq _ _) eq_refl), IH.
Qed.

Lemma or_else_twice {A : Type} (a b : option A) :
  Function.or_else (Function.or_else a b) b = Function.or_else a b.
Proof. now destruct a, b. Qed.

(** X22.  Merging a sighting of a function a second time changes nothing and
    reports the same conflicts as the first time; merging a sighting
    with itself leaves it as it is and reports none. *)
Theorem function_update_idempotent (self other : Function.FunctionParts) :
  Function.update (fst (Function.update self other)) other
  = Function.update self other
  /\ Function.update self self = (self, []).
Proof.
  split.
  - unfold Function.update. cbn [fst Function.typename Function.name
      Function.args Function.body Function.preComment Function.postComment].
    now rewrite !or_else_twice.
  - destruct self as [ty nm ar bd pre post]. unfold Function.update.
    cbn [Function.typename Function.name Function.args Function.body
         Function.preComment Function.postComment].
    rewrite tokens_eqb_refl. unfold Function.token_eqb.
    rewrite !(proj2 (ExpandFacts.str_eqb_eq _ _) eq_refl).
    destruct bd as [b|], pre, post; cbn [Function.or_else app];
      rewrite ?(proj2 (ExpandFacts.str_eqb_eq _ _) eq_refl); reflexivity.
Qed.

Section Tables.
Variable RecordParts : Type.
Variable record_body : RecordParts -> option Token.
Variable record_update :
  RecordParts -> RecordParts -> RecordParts * list Function.conflict.
Variable VariableParts : Type.
Variable variable_update :
  VariableParts -> VariableParts -> VariableParts * list Function.conflict.
Variable get_file_priority : str -> Z.

Local Abbreviation Defn := (Codebase.Defn RecordParts VariableParts).
Local Abbreviation Codebase := (Codebase.Codebase RecordParts VariableParts).
Local Abbreviation get_priority :=
  (Codebase.get_priority RecordParts record_body VariableParts
                         get_file_priority).
Local Abbreviation fold_into :=
  (Codebase.fold_into RecordParts record_update VariableParts
                      variable_update).
Local Abbreviation update :=
  (Codebase.update RecordParts record_body record_update
                   VariableParts variable_update get_file_priority).
Local Abbreviation _dict_upsert_def :=
  (Codebase._dict_upsert_def RecordParts record_body record_update
                             VariableParts variable_update
                             get_file_priority).
Local Abbreviation add_function :=
  (Codebase.add_function RecordParts record_body record_update
                         VariableParts variable_update get_file_priority).
Local Abbreviation name := (Codebase.name RecordParts VariableParts).
Local Abbreviation is_private :=
  (Codebase.is_private RecordParts VariableParts).

(** *** [get_priority] *)

(** X23.  Within one file the priority compares the body first and the
    privacy second: of two objects of the same scope, one has the
    higher priority exactly when it has a body and the other has none,
    or when they agree on that and it is private and the other is
    not. *)
Theorem priority_body_then_privacy (d1 d2 : Defn) :
  Codebase.scope _ _ d1 = Codebase.scope _ _ d2 ->
  (get_priority d2 < get_priority d1)%Z
  <-> (has_body record_body d2 = false /\ has_body record_body d1 = true)
      \/ (has_body record_body d1 = has_body record_body d2
          /\ Codebase.truthy (is_private d2) = false
          /\ Codebase.truthy (is_private d1) = true).
Proof.
  intros Hs.
  assert (Hp : forall d : Defn,
            get_priority d
            = ((if Codebase.truthy (is_private d) then 1 else 0) * 10
               + get_file_priority (Codebase.scope _ _ d)
               + (if has_body record_body d then 1 else 0) * 100)%Z).
  { intros d. unfold Codebase.get_priority, has_body.
    destruct (Codebase.details _ _ d) as [[f|r|v]|].
    - destruct (Function.body f); lia.
    - destruct (record_body r); lia.
    - lia.
    - lia. }
  rewrite !Hp, Hs.
  destruct (Codebase.truthy (is_private d1)),
           (Codebase.truthy (is_private d2)),
           (has_body record_body d1), (has_body record_body d2);
    split; intros H; try lia; try (intuition congruence);
    intuition (auto; try lia).
Qed.

(** *** [Definition.update] and [_dict_upsert_def] *)

Lemma fold_into_identity (self other : Defn) :
  same_identity self (fst (fold_into self other)).
Proof.
  unfold Codebase.fold_into.
  destruct (negb _); [|destruct (Codebase.details_update _ _ _ _ _ _)];
    cbn [fst]; (repeat (split; [reflexivity|])); cbn;
    intros H; (destruct (Codebase.truthy (is_private other));
               [reflexivity|exact H]).
Qed.

Lemma same_identity_refl (d : Defn) : same_identity d d.
Proof. repeat (split; [reflexivity|]). auto. Qed.

Lemma update_frame (h : gmap nat Defn) (self other : nat)
    (check_riority : bool) :
  let h' := fst (update h self other check_riority) in
  dom h' = dom h
  /\ forall (r : nat) (d0 : Defn),
       h !! r = Some d0 ->
       exists d1, h' !! r = Some d1
                  /\ same_identity d0 d1
                  /\ (r <> self -> r <> other -> d1 = d0).
Proof.
  cbv zeta. unfold Codebase.update.
  destruct (h !! self) as [d_self|] eqn:Es;
    [destruct (h !! other) as [d_other|] eqn:Eo|].
  2,3: (split; [reflexivity|]; intros r d0 H; exists d0;
        split; [exact H|]; split; [apply same_identity_refl|auto]).
  destruct (_ && _).
  - pose proof (fold_into_identity d_other d_self) as Hi.
    destruct (fold_into d_other d_self) as [d w]. cbn [fst] in *.
    split.
    + apply dom_insert_lookup_L. eauto.
    + intros r d0 H. destruct (decide (r = other)) as [->|Hne].
      * rewrite lookup_insert_eq. exists d. rewrite Eo in H.
        injection H as <-. split; [reflexivity|]. split; [exact Hi|].
        intros _ Hc. contradiction.
      * rewrite lookup_insert_ne by congruence. exists d0.
        split; [exact H|]. split; [apply same_identity_refl|auto].
  - pose proof (fold_into_identity d_self d_other) as Hi.
    destruct (fold_into d_self d_other) as [d w]. cbn [fst] in *.
    split.
    + apply dom_insert_lookup_L. eauto.
    + intros r d0 H. destruct (decide (r = self)) as [->|Hne].
      * rewrite lookup_insert_eq. exists d. rewrite Es in H.
        injection H as <-. split; [reflexivity|]. split; [exact Hi|].
        intros Hc. contradiction.
      * rewrite lookup_insert_ne by congruence. exists d0.
        split; [exact H|]. split; [apply same_identity_refl|auto].
Qed.

Lemma upsert_frame (h : gmap nat Defn) (d : gmap str nat) (other : nat) :
  let d' := snd (fst (_dict_upsert_def h d other)) in
  (forall k r, d !! k = Some r -> d' !! k = Some r)
  /\ (forall k r, d' !! k = Some r ->
        d !! k = Some r
        \/ (r = other /\ d !! k = None
            /\ exists d_other, h !! other = Some d_other
                               /\ name d_other = k)).
Proof.
  cbv zeta. unfold Codebase._dict_upsert_def.
  destruct (h !! other) as [d_other|] eqn:Eo; [|cbn; auto].
  destruct (d !! name d_other) as [self|] eqn:Ed.
  - destruct (update h self other true) as [h' w]. cbn. auto.
  - cbn [fst snd]. split.
    + intros k r H. rewrite lookup_insert_ne; [exact H|].
      intros <-. congruence.
    + intros k r. destruct (decide (name d_other = k)) as [<-|Hne].
      * rewrite lookup_insert_eq. intros [= <-]. right. eauto.
      * rewrite lookup_insert_ne by exact Hne. auto.
Qed.

(** X24.  A merge changes one object only, and only by folding the other into
    it: after [update] the store has the same objects, each with the
    name, kind, scope, offset and module that it had, an object that
    was private is still private, and every object but the two that
    were merged is as it was. *)
Theorem update_keeps_identity (h : gmap nat Defn) (self other : nat)
    (check_riority : bool) :
  let h' := fst (update h self other check_riority) in
  dom h' = dom h
  /\ forall (r : nat) (d0 : Defn),
       h !! r = Some d0 ->
       exists d1, h' !! r = Some d1
                  /\ same_identity d0 d1
                  /\ (r <> self -> r <> other -> d1 = d0).
Proof. apply update_frame. Qed.

(** X25.  [_dict_upsert_def] never replaces an entry: every name of the dict
    keeps the object that it referred to, and the only entry that can
    be new is the one for the name of [other], which then refers to
    [other]. *)
Theorem dict_upsert_def_never_replaces (h : gmap nat Defn)
    (d : gmap str nat) (other : nat) :
  let d' := snd (fst (_dict_upsert_def h d other)) in
  (forall k r, d !! k = Some r -> d' !! k = Some r)
  /\ (forall k r, d' !! k = Some r ->
        d !! k = Some r
        \/ (r = other /\ d !! k = None
            /\ exists d_other, h !! other = Some d_other
                               /\ name d_other = k)).
Proof. apply upsert_frame. Qed.

(** *** The tables after a scan *)

Lemma add_function_consistent (file scope_module : str)
    (func : option Function.FunctionParts) (cb : Codebase) :
  tables_consistent cb ->
  tables_consistent (add_function file scope_module func cb).
Proof.
  intros [H1 H2]. unfold Codebase.add_function.
  destruct func as [f|]; [|split; assumption].
  destruct (Function.body f); [|split; assumption].
  destruct (Codebase._get_visibility_and_module _ _ _ _)
    as [priv local_module].
  unfold Codebase.alloc.
  set (nm := value (Function.name f)).
  set (new := Codebase.mkDefn _ _ nm _ _ _ _ _ _ _ _).
  set (r := fresh (dom (Codebase.objects _ _ cb))).
  assert (Hr : Codebase.objects _ _ cb !! r = None).
  { apply not_elem_of_dom. apply is_fresh. }
  set (h1 := <[r := new]> (Codebase.objects _ _ cb)).
  assert (Hold : forall k r0, Codebase.names _ _ cb !! k = Some r0 ->
            r0 <> r /\ exists d, h1 !! r0 = Some d /\ name d = k).
  { intros k r0 H. destruct (H1 k r0 H) as (d & Hd & Hn).
    assert (r0 <> r) by congruence. split; [assumption|].
    exists d. subst h1. now rewrite lookup_insert_ne by congruence. }
  pose proof (update_frame h1) as Hu.
  pose proof (upsert_frame h1 (Codebase.names _ _ cb) r)
    as [Hk Hn].
  unfold Codebase._dict_upsert_def in *.
  assert (E1 : h1 !! r = Some new) by (subst h1; apply lookup_insert_eq).
  rewrite E1 in *. change (name new) with nm in *.
  destruct (Codebase.names _ _ cb !! nm) as [self|] eqn:En.
  - specialize (Hu self r true). cbv zeta in Hu.
    destruct (update h1 self r true) as [h2 w]. cbn [fst snd] in *.
    destruct Hu as [_ Hu].
    assert (G1 : forall k r0, Codebase.names _ _ cb !! k = Some r0 ->
              exists d, h2 !! r0 = Some d /\ name d = k).
    { intros k r0 H. destruct (Hold k r0 H) as (_ & d & Hd & Hnm).
      destruct (Hu r0 d Hd) as (d1 & Hd1 & (Hname & _) & _).
      exists d1. split; [exact Hd1|]. congruence. }
    split; cbn [Codebase.names Codebase.objects Codebase.names_restricted].
    + exact G1.
    + destruct (Codebase.truthy priv); [|exact H2].
      rewrite En. intros k r0.
      destruct (decide (nm = k)) as [<-|Hne].
      * rewrite lookup_insert_eq. now intros [= <-].
      * rewrite lookup_insert_ne by exact Hne. apply H2.
  - cbn [fst snd] in *.
    split; cbn [Codebase.names Codebase.objects Codebase.names_restricted].
    + intros k r0. destruct (decide (nm = k)) as [<-|Hne].
      * rewrite lookup_insert_eq. intros [= <-]. now exists new.
      * rewrite lookup_insert_ne by exact Hne. intros H.
        destruct (Hold k r0 H) as (_ & d & Hd & Hnm). now exists d.
    + destruct (Codebase.truthy priv).
      * rewrite lookup_insert_eq. intros k r0.
        destruct (decide (nm = k)) as [<-|Hne].
        -- rewrite !lookup_insert_eq. auto.
        -- rewrite !lookup_insert_ne by exact Hne. apply H2.
      * intros k r0 H. apply H2 in H. apply Hk. exact H.
Qed.

(** X26.  After any number of function definitions have been added to an
    empty code base, from whatever files and in whatever order, every
    name in [names] refers to a stored object of that name, and every
    entry of [names_restricted] is the entry of [names] for the same
    name. *)
Theorem scanned_tables_consistent
    (scanned : list (str * str * option Function.FunctionParts)) :
  tables_consistent
    (fold_left (fun cb x => add_function (fst (fst x)) (snd (fst x))
                                         (snd x) cb)
               scanned (Codebase.empty RecordParts VariableParts)).
Proof.
  assert (H0 : tables_consistent
                 (Codebase.empty RecordParts VariableParts)).
  { split; intros k r H; cbn in H; rewrite lookup_empty in H;
      discriminate. }
  revert H0. generalize (Codebase.empty RecordParts VariableParts).
  induction scanned as [|x scanned IH]; intros cb H; [exact H|].
  cbn [fold_left]. apply IH. now apply add_function_consistent.
Qed.

(** *** [untypedef] on a cycle *)

Lemma follow_add (cb : Codebase) (a b : nat) (nm : str) :
  follow cb (a + b) nm
  = match follow cb a nm with
    | Some x => follow cb b x
    | None => None
    end.
Proof.
  revert nm; induction a as [|a IH]; intros nm; [reflexivity|].
  cbn [Nat.add follow].
  destruct (Codebase.typedefs _ _ cb !! nm); [apply IH|reflexivity].
Qed.

Lemma untypedef_loop_on_cycle (cb : Codebase) (k fuel : nat) :
  forall nm name1 name2,
    follow cb (S k) nm = Some nm ->
    Codebase.untypedef_loop _ _ cb fuel nm name1 name2 = OutOfFuel.
Proof.
  induction fuel as [|fuel IH]; intros nm name1 name2 H;
    pose proof H as H'; cbn [follow] in H';
    destruct (Codebase.typedefs _ _ cb !! nm) as [target|] eqn:E;
    try discriminate.
  - cbn [Codebase.untypedef_loop]. now rewrite E.
  - cbn [Codebase.untypedef_loop]. rewrite E. apply IH.
    replace (S k) with (k + 1) by lia.
    rewrite follow_add, H'. cbn [follow]. now rewrite E.
Qed.

(** X27.  [untypedef] does not return for a name on a cycle of typedefs:
    when some number of steps through [typedefs] leads from the name
    back to it, the loop is still running after any number of
    rounds. *)
Theorem untypedef_on_cycle_never_returns (cb : Codebase) (k fuel : nat)
    (nm : str) :
  follow cb (S k) nm = Some nm ->
  Codebase.untypedef _ _ cb fuel nm = OutOfFuel.
Proof. apply untypedef_loop_on_cycle. Qed.
End Tables.

(** The theorem at a definition with a body and a private declaration
    without one, from one file. *)
Lemma priority_body_then_privacy_witness :
  (Codebase.get_priority unit (fun _ => None) unit (fun _ => 0%Z)
     (sighting (s "a.c") (s "m") (Some true) f_declared)
   < Codebase.get_priority unit (fun _ => None) unit (fun _ => 0%Z)
       (sighting (s "a.c") (s "m") None f_public))%Z.
Proof.
  apply (priority_body_then_privacy unit (fun _ => None) unit (fun _ => 0%Z)
           (sighting (s "a.c") (s "m") None f_public)
           (sighting (s "a.c") (s "m") (Some true) f_declared) eq_refl).
  left. split; reflexivity.
Defined.

(** The theorem at [typedef struct foo foo;]. *)
Lemma untypedef_on_cycle_never_returns_witness :
  Codebase.untypedef unit unit foo_foo 5 (s "foo") = OutOfFuel.
Proof.
  apply (untypedef_on_cycle_never_returns unit unit foo_foo 0 5 (s "foo")).
  reflexivity.
Defined.

(** *** [_get_visibility_and_module] without an annotation *)

Lemma no_hash_no_annotation (c : option Token) :
  no_hash c = true -> Codebase.annotation c = None.
Proof.
  destruct c as [t|]; [|reflexivity]. unfold no_hash, Codebase.annotation.
  intros H.
  assert (Hat : forall p, Codebase.annotation_at (value t) p = None).
  { intros p. unfold Codebase.annotation_at, match_plain, match_at.
    cbn [run go].
    destruct (nth_error (value t) p) as [c|] eqn:E; [|reflexivity].
    apply nth_error_In in E. rewrite forallb_forall in H.
    apply H in E. apply negb_true_iff in E. now rewrite E. }
  generalize (length (value t)) 0. intros n.
  induction n as [|n IH]; intros p; cbn [Codebase.search_annotation];
    [reflexivity|].
  rewrite Hat. apply IH.
Qed.

(** X28.  Without a [#] in the comment before and in the comment after a
    declaration there is no annotation: [_get_visibility_and_module]
    (for a declaration that is not nested) returns the default privacy
    and the default module as they were given. *)
Theorem visibility_defaults_without_hash (preComment postComment : option Token)
    (default_private : option bool) (default_module : str) :
  no_hash preComment = true -> no_hash postComment = true ->
  Codebase._get_visibility_and_module preComment postComment
    default_private default_module
  = (default_private, default_module).
Proof.
  intros H1 H2. unfold Codebase._get_visibility_and_module.
  now rewrite (no_hash_no_annotation _ H1), (no_hash_no_annotation _ H2).
Qed.

Lemma visibility_defaults_without_hash_witness :
  Codebase._get_visibility_and_module (Some (tok "/* private */")) None
    None (s "m")
  = (None, s "m").
Proof.
  apply (visibility_defaults_without_hash (Some (tok "/* private */")) None
           None (s "m")); reflexivity.
Defined.

End TableFacts.

(** ** The substitution pass of a function-like macro *)

Module SubstitutionFacts.

Import Samples Props.

(** *** Character classes *)

Lemma word_not_space (c : ascii) : is_word c = true -> is_space c = false.
Proof.
  destruct c as [[] [] [] [] [] [] [] []]; vm_compute;
    intros H; (reflexivity || discriminate H).
Qed.

Lemma word_not_hash (c : ascii) : is_word c = true -> ascii_eqb c "#" = false.
Proof.
  destruct c as [[] [] [] [] [] [] [] []]; vm_compute;
    intros H; (reflexivity || discriminate H).
Qed.

Lemma space_not_hash (c : ascii) :
  is_space c = true -> ascii_eqb c "#" = false.
Proof.
  destruct c as [[] [] [] [] [] [] [] []]; vm_compute;
    intros H; (reflexivity || discriminate H).
Qed.

Lemma space_not_word (c : ascii) : is_space c = true -> is_word c = false.
Proof.
  destruct (is_word c) eqn:E; [|reflexivity].
  rewrite (word_not_space c E). discriminate.
Qed.

Lemma is_name_cons (n : str) :
  is_name n = true ->
  exists c n', n = c :: n' /\ is_word c = true /\ forallb is_word n' = true.
Proof.
  destruct n as [|c n']; cbn [is_name forallb]; [discriminate|].
  intros [H1 H2]%andb_prop. now exists c, n'.
Qed.

Lemma is_name_word (n : str) : is_name n = true -> forallb is_word n = true.
Proof. destruct n; [discriminate|]. exact (fun H => H). Qed.

(** A text splits into the characters of a class that it starts with and
    the rest. *)
Lemma span_split (f : ascii -> bool) (x : str) :
  exists w r, x = w ++ r /\ forallb f w = true /\ stops f r = true.
Proof.
  induction x as [|c x (w & r & -> & Hw & Hr)].
  - now exists [], [].
  - destruct (f c) eqn:E.
    + exists (c :: w), r. cbn [forallb]. now rewrite E.
    + exists [], (c :: w ++ r). cbn [stops]. now rewrite E.
Qed.

(** *** The patterns on a text that is given in parts *)

Lemma skipn_cons (q : nat) (txt : str) (c : ascii) (r : str) :
  skipn q txt = c :: r -> nth_error txt q = Some c /\ skipn (S q) txt = r.
Proof.
  revert txt; induction q as [|q IH]; intros [|d txt]; cbn [skipn];
    try discriminate.
  - intros H. injection H as -> ->. split; reflexivity.
  - intros H. destruct (IH _ H) as [H1 H2]. split; [exact H1|exact H2].
Qed.

Lemma skipn_nil (q : nat) (txt : str) :
  q <= length txt -> skipn q txt = [] -> nth_error txt q = None.
Proof.
  intros Hq H. apply nth_error_None.
  pose proof (length_skipn q txt) as L. rewrite H in L. simpl in L. lia.
Qed.

Lemma skipn_more (q : nat) (txt w r : str) :
  skipn q txt = w ++ r -> skipn (q + length w) txt = r.
Proof.
  revert q; induction w as [|c w IH]; intros q; cbn [app length].
  - now rewrite Nat.add_0_r.
  - intros H. apply skipn_cons in H as [_ H].
    rewrite <- Nat.add_succ_comm. now apply IH.
Qed.

Lemma skipn_length (q : nat) (txt x : str) :
  q <= length txt -> skipn q txt = x -> length txt = q + length x.
Proof. intros Hq <-. rewrite length_skipn. lia. Qed.

Lemma slice_of (q : nat) (txt w r : str) :
  skipn q txt = w ++ r -> slice txt q (q + length w) = w.
Proof.
  intros H. unfold slice. rewrite H.
  replace (q + length w - q) with (length w) by lia.
  rewrite firstn_app, Nat.sub_diag, firstn_all. cbn [firstn].
  apply app_nil_r.
Qed.

Lemma stops_nth (f : ascii -> bool) (q : nat) (txt r : str) :
  q <= length txt -> skipn q txt = r -> stops f r = true ->
  match nth_error txt q with
  | Some d => f d = false
  | None => True
  end.
Proof.
  intros Hq H Hs. destruct r as [|c r].
  - now rewrite (skipn_nil q txt Hq H).
  - apply skipn_cons in H as [-> _]. cbn [stops] in Hs.
    now apply negb_true_iff.
Qed.

Lemma no_mark_blanks (w r : str) :
  forallb is_space w = true -> no_mark (w ++ r) = no_mark r.
Proof.
  induction w as [|c w IH]; [reflexivity|]. cbn [forallb app no_mark].
  intros [Hc Hw]%andb_prop. rewrite Hc. now apply IH.
Qed.

Lemma match_plain_go (r : re) (txt : str) (p : nat) :
  exists call, match_plain r txt p = hd_error (go txt call r p).
Proof. unfold match_plain, match_at. cbn [run]. now eexists. Qed.

Section Patterns.
Variable txt : str.
Variable call : nat -> list nat.

Lemma star_class (f : ascii -> bool) (w r : str) (n q : nat) :
  q <= length txt -> skipn q txt = w ++ r ->
  forallb f w = true -> stops f r = true -> length w <= n ->
  exists rest,
    star_loop (go txt call (Cls f)) n q = (q + length w) :: rest.
Proof.
  revert n q; induction w as [|c w IH]; intros n q Hq H Hw Hr Hn.
  - cbn [app length] in *. rewrite Nat.add_0_r.
    destruct n as [|n]; [now exists []|].
    cbn [star_loop]. rewrite GrammarFacts.go_cls.
    pose proof (stops_nth f q txt r Hq H Hr) as Hs.
    destruct (nth_error txt q) as [d|]; [rewrite Hs|]; now exists [].
  - destruct n as [|n]; [simpl in Hn; lia|].
    cbn [app length forallb] in *. apply andb_prop in Hw as [Hc Hw].
    pose proof (skipn_length q txt _ Hq H) as L. cbn [length] in L.
    apply skipn_cons in H as [E H].
    cbn [star_loop]. rewrite GrammarFacts.go_cls, E, Hc. cbn [flat_map].
    rewrite (proj2 (Nat.ltb_lt _ _) (Nat.lt_succ_diag_r q)).
    destruct (IH n (S q)) as [rest Hrest]; [lia|exact H|exact Hw|exact Hr
                                           |lia|].
    rewrite Hrest, app_nil_r. cbn [app].
    rewrite <- Nat.add_succ_comm. now eexists.
Qed.

(** [f*+] takes the characters of the class, none included. *)
Lemma go_poss_class (f : ascii -> bool) (w r : str) (q : nat) :
  q <= length txt -> skipn q txt = w ++ r ->
  forallb f w = true -> stops f r = true ->
  go txt call (Poss (Cls f)) q = [q + length w].
Proof.
  intros Hq H Hw Hr.
  change (go txt call (Poss (Cls f)) q)
    with (firstn 1 (star_loop (go txt call (Cls f)) (length txt - q) q)).
  pose proof (skipn_length q txt _ Hq H) as L. rewrite length_app in L.
  destruct (star_class f w r (length txt - q) q Hq H Hw Hr) as [rest ->];
    [lia|reflexivity].
Qed.

(** [f++] takes the characters of the class when there is one. *)
Lemma go_poss1_class (f : ascii -> bool) (c : ascii) (w r : str)
    (q : nat) :
  q <= length txt -> skipn q txt = (c :: w) ++ r ->
  forallb f (c :: w) = true -> stops f r = true ->
  go txt call (Poss1 (Cls f)) q = [q + length (c :: w)].
Proof.
  intros Hq H Hw Hr.
  change (go txt call (Poss1 (Cls f)) q)
    with (firstn 1
            (flat_map
               (fun p => star_loop (go txt call (Cls f))
                           (length txt - p) p)
               (go txt call (Cls f) q))).
  pose proof (skipn_length q txt _ Hq H) as L.
  rewrite length_app in L. cbn [length] in L.
  cbn [forallb] in Hw. apply andb_prop in Hw as [Hc Hw].
  cbn [app] in H. apply skipn_cons in H as [E H].
  rewrite GrammarFacts.go_cls, E, Hc. cbn [flat_map].
  destruct (star_class f w r (length txt - S q) (S q)) as [rest ->];
    [lia|exact H|exact Hw|exact Hr|lia|].
  cbn [app firstn length]. now rewrite <- Nat.add_succ_comm.
Qed.

Lemma go_poss1_none (f : ascii -> bool) (q : nat) :
  match nth_error txt q with
  | Some d => f d = false
  | None => True
  end ->
  go txt call (Poss1 (Cls f)) q = [].
Proof.
  intros Hs.
  change (go txt call (Poss1 (Cls f)) q)
    with (firstn 1
            (flat_map
               (fun p => star_loop (go txt call (Cls f))
                           (length txt - p) p)
               (go txt call (Cls f) q))).
  rewrite GrammarFacts.go_cls.
  destruct (nth_error txt q) as [d|]; [rewrite Hs|]; reflexivity.
Qed.

Lemma go_chr (c : ascii) (q : nat) (r : str) :
  skipn q txt = c :: r -> go txt call (Chr c) q = [S q].
Proof.
  intros [E _]%skipn_cons. cbn [go]. rewrite E. unfold ascii_eqb.
  now rewrite Ascii.eqb_refl.
Qed.

Lemma go_chr_none (c : ascii) (q : nat) :
  match nth_error txt q with
  | Some d => ascii_eqb d c = false
  | None => True
  end ->
  go txt call (Chr c) q = [].
Proof.
  intros Hs. cbn [go]. destruct (nth_error txt q) as [d|]; [|reflexivity].
  unfold ascii_eqb in *. rewrite Ascii.eqb_sym, Hs. reflexivity.
Qed.

(** [\s*+ ## \s*+] on white space, [##] and white space. *)
Lemma go_paste_mark (a b r : str) (q : nat) :
  q <= length txt -> skipn q txt = a ++ s "##" ++ b ++ r ->
  blanks a = true -> blanks b = true -> stops is_space r = true ->
  go txt call (Seqs [Macro.spaces; Lit (s "##"); Macro.spaces]) q
  = [q + length a + 2 + length b].
Proof.
  intros Hq H Ha Hb Hr.
  pose proof (skipn_length q txt _ Hq H) as L.
  rewrite !length_app in L. change (length (s "##")) with 2 in L. cbn [length] in L.
  change (go txt call (Seqs [Macro.spaces; Lit (s "##"); Macro.spaces]) q)
    with (flat_map
            (fun q1 =>
               flat_map (go txt call Macro.spaces)
                 (flat_map (go txt call (Chr "#"))
                           (go txt call (Chr "#") q1)))
            (go txt call Macro.spaces q)).
  unfold Macro.spaces.
  rewrite (go_poss_class is_space a (s "##" ++ b ++ r) q Hq H Ha
             eq_refl).
  cbn [flat_map]. apply skipn_more in H.
  change (s "##" ++ b ++ r) with ("#"%char :: "#"%char :: b ++ r) in H.
  rewrite (go_chr _ _ _ H). cbn [flat_map].
  apply skipn_cons in H as [_ H].
  rewrite (go_chr _ _ _ H). cbn [flat_map].
  apply skipn_cons in H as [_ H].
  cbn [app flat_map].
  rewrite (go_poss_class is_space b r (S (S (q + length a))));
    [|lia|exact H|exact Hb|exact Hr].
  cbn [app]. f_equal. lia.
Qed.

(** The same pattern where the white space is not followed by [##]. *)
Lemma go_paste_mark_none (q : nat) (x : str) :
  q <= length txt -> skipn q txt = x -> no_mark x = true ->
  go txt call (Seqs [Macro.spaces; Lit (s "##"); Macro.spaces]) q = [].
Proof.
  intros Hq H Hx.
  change (go txt call (Seqs [Macro.spaces; Lit (s "##"); Macro.spaces]) q)
    with (flat_map
            (fun q1 =>
               flat_map (go txt call Macro.spaces)
                 (flat_map (go txt call (Chr "#"))
                           (go txt call (Chr "#") q1)))
            (go txt call Macro.spaces q)).
  destruct (span_split is_space x) as (w & r & -> & Hw & Hr).
  pose proof (skipn_length q txt _ Hq H) as L. rewrite length_app in L.
  unfold Macro.spaces.
  rewrite (go_poss_class is_space w r q Hq H Hw Hr). cbn [flat_map].
  rewrite (no_mark_blanks w r Hw) in Hx.
  apply skipn_more in H.
  destruct r as [|c r].
  { rewrite go_chr_none; [reflexivity|].
    rewrite (skipn_nil (q + length w) txt); [exact I|lia|exact H]. }
  cbn [stops] in Hr. apply negb_true_iff in Hr.
  cbn [no_mark] in Hx. rewrite Hr in Hx.
  destruct (ascii_eqb c "#") eqn:Ec.
  - apply Ascii.eqb_eq in Ec. subst c.
    rewrite (go_chr _ _ _ H). cbn [flat_map].
    apply skipn_cons in H as [_ H].
    rewrite go_chr_none; [reflexivity|].
    destruct r as [|d r].
    + rewrite (skipn_nil (S (q + length w)) txt);
        [exact I|cbn [length] in L; lia|exact H].
    + apply skipn_cons in H as [-> _]. cbn [andb] in Hx.
      now apply negb_true_iff in Hx.
  - rewrite go_chr_none; [reflexivity|].
    apply skipn_cons in H as [-> _]. exact Ec.
Qed.
End Patterns.

(** The ends of [\b(?:\L<names>)\b]: a name that the text goes on with,
    between two word boundaries. *)
Lemma whole_name_ends (names : list str) (txt : str)
    (call : nat -> list nat) (p e : nat) :
  In e (go txt call (Macro.whole_name names) p)
  <-> at_boundary txt p = true
      /\ exists x, In x names /\ starts_with x (skipn p txt) = true
                   /\ e = p + length x /\ at_boundary txt e = true.
Proof.
  unfold Macro.whole_name. cbn [Seqs].
  change (go txt call (Seq Bnd (Seq (OneOf names) Bnd)) p)
    with (flat_map (fun q => flat_map (go txt call Bnd)
                                      (go txt call (OneOf names) q))
                   (go txt call Bnd p)).
  rewrite in_flat_map. cbn [go]. split.
  - intros (q & Hq & He).
    destruct (at_boundary txt p); [|destruct Hq]. destruct Hq as [<-|[]].
    split; [reflexivity|].
    apply in_flat_map in He as (q & Hq & He).
    destruct (at_boundary txt q) eqn:Eq; [|destruct He].
    destruct He as [<-|[]].
    apply in_flat_map in Hq as (x & Hx & Hq).
    destruct (starts_with x (skipn p txt)) eqn:E; [|destruct Hq].
    destruct Hq as [<-|[]]. now exists x.
  - intros (Hp & x & Hx & Hs & -> & He). exists p. rewrite Hp.
    split; [now left|]. apply in_flat_map. exists (p + length x).
    rewrite He. split; [|now left].
    apply in_flat_map. exists x. rewrite Hs. split; [exact Hx|now left].
Qed.

Lemma hd_error_all {A : Type} (l : list A) (v : A) :
  In v l -> (forall x, In x l -> x = v) -> hd_error l = Some v.
Proof.
  destruct l as [|a l]; [intros []|]. intros _ H. cbn [hd_error].
  f_equal. apply H. now left.
Qed.

Lemma hd_error_none {A : Type} (l : list A) :
  (forall x, ~ In x l) -> hd_error l = None.
Proof.
  destruct l as [|a l]; [reflexivity|]. intros H.
  destruct (H a). now left.
Qed.

Lemma starts_with_app (x y : str) : starts_with x (x ++ y) = true.
Proof.
  induction x as [|c x IH]; [reflexivity|]. cbn [app starts_with].
  unfold ascii_eqb. now rewrite Ascii.eqb_refl.
Qed.

Lemma starts_with_nth (x y : str) (i : nat) (c : ascii) :
  starts_with x y = true -> nth_error x i = Some c ->
  nth_error y i = Some c.
Proof.
  revert y i; induction x as [|d x IH]; intros [|d' y] i;
    cbn [starts_with]; try discriminate; try (destruct i; discriminate).
  intros [H1 H2]%andb_prop. apply Ascii.eqb_eq in H1. subst d'.
  destruct i as [|i]; cbn [nth_error]; [exact (fun H => H)|].
  now apply IH.
Qed.

Lemma nth_error_skipn_at (q i : nat) (txt : str) :
  nth_error (skipn q txt) i = nth_error txt (q + i).
Proof.
  revert txt; induction q as [|q IH]; intros txt; [reflexivity|].
  destruct txt as [|c txt]; [now destruct i|]. apply IH.
Qed.

Lemma forallb_nth (f : ascii -> bool) (x : str) (i : nat) (c : ascii) :
  forallb f x = true -> nth_error x i = Some c -> f c = true.
Proof.
  intros H E. apply nth_error_In in E.
  rewrite forallb_forall in H. now apply H.
Qed.

Lemma inert_stops (f : ascii -> bool) (x : str) :
  (forall c, f c = true -> ascii_eqb c "#" = true \/ is_word c = true) ->
  inert x = true -> stops f x = true.
Proof.
  intros Hf. destruct x as [|c x]; [reflexivity|].
  unfold inert. cbn [forallb stops].
  intros [Hc _]%andb_prop. apply andb_prop in Hc as [H1 H2].
  apply negb_true_iff in H1, H2. destruct (f c) eqn:E; [|reflexivity].
  destruct (Hf c E); congruence.
Qed.

Lemma inert_stops_word (x : str) : inert x = true -> stops is_word x = true.
Proof. apply inert_stops. intros c H. now right. Qed.

(** *** What the substitution pattern finds *)

Section Forms.
Variable keys : list str.
Variable txt : str.

Hypothesis keys_names : forallb is_name keys = true.

Local Abbreviation matcher := (Macro.reg_macro_subst_match keys txt).

Lemma key_first (x : str) :
  In x keys ->
  exists c x', x = c :: x' /\ is_word c = true
               /\ forallb is_word x' = true.
Proof.
  intros Hx. rewrite forallb_forall in keys_names.
  exact (is_name_cons x (keys_names x Hx)).
Qed.

(** No match starts at a character that is neither [#] nor a word
    character. *)
Lemma subst_none (q : nat) (c : ascii) :
  nth_error txt q = Some c ->
  ascii_eqb c "#" = false -> is_word c = false ->
  matcher q = None.
Proof.
  intros E Hh Hw. unfold Macro.reg_macro_subst_match.
  destruct (match_plain_go (Seq (Chr "#") Macro.spaces) txt q)
    as [call1 ->].
  change (go txt call1 (Seq (Chr "#") Macro.spaces) q)
    with (flat_map (go txt call1 Macro.spaces)
                   (go txt call1 (Chr "#") q)).
  rewrite go_chr_none by now rewrite E. cbn [flat_map hd_error].
  destruct (match_plain_go Macro.word txt q) as [call2 ->].
  unfold Macro.word. rewrite go_poss1_none by now rewrite E.
  cbn [hd_error].
  destruct (match_plain_go (Macro.whole_name keys) txt q) as [call3 ->].
  rewrite hd_error_none; [reflexivity|].
  intros e (_ & x & Hx & Hs & _)%whole_name_ends.
  destruct (key_first x Hx) as (d & x' & -> & Hd & _).
  pose proof (starts_with_nth _ _ 0 d Hs eq_refl) as Hn.
  rewrite nth_error_skipn_at, Nat.add_0_r in Hn. congruence.
Qed.

(** [# x]: the first alternative. *)
Lemma subst_stringize (p : nat) (sp n post : str) :
  p <= length txt ->
  skipn p txt = "#"%char :: sp ++ n ++ post ->
  blanks sp = true -> is_name n = true -> stops is_word post = true ->
  matcher p = Some (Macro.SStringize n (p + 1 + length sp + length n)).
Proof.
  intros Hp H Hsp Hn Hpost. unfold Macro.reg_macro_subst_match.
  destruct (is_name_cons n Hn) as (c & n' & -> & Hc & Hn').
  pose proof (skipn_length p txt _ Hp H) as L.
  cbn [length] in L. rewrite length_app in L.
  destruct (match_plain_go (Seq (Chr "#") Macro.spaces) txt p)
    as [call1 ->].
  change (go txt call1 (Seq (Chr "#") Macro.spaces) p)
    with (flat_map (go txt call1 Macro.spaces)
                   (go txt call1 (Chr "#") p)).
  rewrite (go_chr txt call1 _ _ _ H). cbn [flat_map].
  apply skipn_cons in H as [_ H]. unfold Macro.spaces.
  rewrite (go_poss_class txt call1 is_space sp ((c :: n') ++ post) (S p));
    [|lia|exact H|exact Hsp|].
  2:{ cbn [app stops]. now rewrite (word_not_space c Hc). }
  cbn [app hd_error]. apply skipn_more in H.
  destruct (match_plain_go Macro.word txt (S p + length sp))
    as [call2 ->].
  unfold Macro.word.
  rewrite (go_poss1_class txt call2 is_word c n' post);
    [|lia|exact H| |exact Hpost].
  2:{ cbn [forallb]. now rewrite Hc. }
  cbn [hd_error]. rewrite (slice_of _ _ _ _ H).
  do 2 f_equal. lia.
Qed.

Local Abbreviation round :=
  (fun t : str * str * str =>
     fst (fst t) ++ s "##" ++ snd (fst t) ++ snd t).

Local Abbreviation rounds_ok :=
  (forallb (fun t : str * str * str =>
              blanks (fst (fst t)) && blanks (snd (fst t))
              && is_name (snd t))).

Lemma rounds_stop_word (l : list (str * str * str)) (post : str) :
  rounds_ok l = true -> stops is_word post = true ->
  stops is_word (concat (map round l) ++ post) = true.
Proof.
  destruct l as [|[[a b] n] l]; cbn [map concat app forallb fst snd].
  - intros _ H. exact H.
  - intros [H _]%andb_prop _. apply andb_prop in H as [H _].
    apply andb_prop in H as [Ha _].
    destruct a as [|c a]; [reflexivity|].
    cbn [app stops]. unfold blanks in Ha. cbn [forallb] in Ha.
    apply andb_prop in Ha as [Ha _].
    now rewrite (space_not_word c Ha).
Qed.

Lemma rounds_length (l : list (str * str * str)) :
  length l <= length (concat (map round l)).
Proof.
  induction l as [|[[a b] n] l IH]; [apply Nat.le_refl|].
  cbn [map concat length fst snd]. rewrite !length_app.
  change (length (s "##")) with 2. lia.
Qed.

(** The possessive repetition takes every round of the run. *)
Lemma paste_rounds_all (l : list (str * str * str)) (post : str)
    (fuel q : nat) :
  q <= length txt ->
  skipn q txt = concat (map round l) ++ post ->
  rounds_ok l = true ->
  stops is_word post = true -> no_mark post = true ->
  length l <= fuel ->
  Macro.paste_rounds txt fuel q
  = (map snd l, q + length (concat (map round l))).
Proof.
  revert fuel q; induction l as [|[[a b] n] l IH]; intros fuel q Hq H Hl
    Hstop Hpost Hf.
  - cbn [map concat app length] in *. rewrite Nat.add_0_r.
    destruct fuel as [|fuel]; [reflexivity|].
    cbn [Macro.paste_rounds].
    destruct (match_plain_go
                (Seqs [Macro.spaces; Lit (s "##"); Macro.spaces]) txt q)
      as [call1 ->].
    now rewrite (go_paste_mark_none txt call1 q post Hq H Hpost).
  - destruct fuel as [|fuel]; [simpl in Hf; lia|].
    cbn [map concat forallb fst snd length] in *.
    apply andb_prop in Hl as [Hr Hl].
    apply andb_prop in Hr as [Hr Hn]. apply andb_prop in Hr as [Ha Hb].
    destruct (is_name_cons n Hn) as (c & n' & -> & Hc & Hn').
    pose proof (skipn_length q txt _ Hq H) as L.
    rewrite !length_app in L. change (length (s "##")) with 2 in L. cbn [length] in L.
    rewrite <- !app_assoc in H.
    cbn [Macro.paste_rounds].
    destruct (match_plain_go
                (Seqs [Macro.spaces; Lit (s "##"); Macro.spaces]) txt q)
      as [call1 ->].
    rewrite (go_paste_mark txt call1 a b
               ((c :: n') ++ concat (map round l) ++ post) q Hq H Ha Hb).
    2:{ cbn [app stops]. now rewrite (word_not_space c Hc). }
    cbn [hd_error].
    assert (H1 : skipn (q + length a + 2 + length b) txt
                 = (c :: n') ++ concat (map round l) ++ post).
    { apply skipn_more in H.
      change (s "##" ++ b ++ (c :: n') ++ concat (map round l) ++ post)
        with ("#"%char :: "#"%char
              :: b ++ (c :: n') ++ concat (map round l) ++ post) in H.
      apply skipn_cons in H as [_ H]. apply skipn_cons in H as [_ H].
      apply skipn_more in H.
      replace (q + length a + 2 + length b)
        with (S (S (q + length a)) + length b) by lia.
      exact H. }
    destruct (match_plain_go Macro.word txt (q + length a + 2 + length b))
      as [call2 ->].
    unfold Macro.word.
    rewrite (go_poss1_class txt call2 is_word c n'
               (concat (map round l) ++ post));
      [|lia|exact H1| |now apply rounds_stop_word].
    2:{ cbn [forallb]. now rewrite Hc. }
    cbn [hd_error]. rewrite (slice_of _ _ _ _ H1).
    apply skipn_more in H1.
    rewrite (IH fuel (q + length a + 2 + length b + length (c :: n')));
      [|cbn [length]; lia|exact H1|exact Hl|exact Hstop|exact Hpost|lia].
    f_equal. rewrite !length_app. change (length (s "##")) with 2.
    cbn [length]. lia.
Qed.

(** [a ## b ...]: the second alternative. *)
Lemma subst_paste (p : nat) (n0 : str) (l : list (str * str * str))
    (post : str) :
  p <= length txt ->
  skipn p txt = pasted n0 l ++ post ->
  pasted_ok n0 l = true -> l <> [] ->
  stops is_word post = true -> no_mark post = true ->
  matcher p
  = Some (Macro.SPaste (n0 :: map snd l) (p + length (pasted n0 l))).
Proof.
  unfold pasted, pasted_ok.
  intros Hp H [Hn Hl]%andb_prop Hne Hstop Hpost.
  destruct (is_name_cons n0 Hn) as (c & n' & -> & Hc & Hn').
  rewrite <- app_assoc in H.
  pose proof (skipn_length p txt _ Hp H) as L.
  rewrite !length_app in L. cbn [length] in L.
  pose proof (rounds_length l) as Hlen.
  unfold Macro.reg_macro_subst_match.
  destruct (match_plain_go (Seq (Chr "#") Macro.spaces) txt p)
    as [call1 ->].
  change (go txt call1 (Seq (Chr "#") Macro.spaces) p)
    with (flat_map (go txt call1 Macro.spaces)
                   (go txt call1 (Chr "#") p)).
  rewrite go_chr_none.
  2:{ pose proof H as H'. cbn [app] in H'.
      apply skipn_cons in H' as [-> _]. now apply word_not_hash. }
  cbn [flat_map hd_error].
  destruct (match_plain_go Macro.word txt p) as [call2 ->].
  unfold Macro.word.
  rewrite (go_poss1_class txt call2 is_word c n'
             (concat (map round l) ++ post));
    [|lia|exact H| |now apply rounds_stop_word].
  2:{ cbn [forallb]. now rewrite Hc. }
  cbn [hd_error]. rewrite (slice_of _ _ _ _ H).
  apply skipn_more in H.
  rewrite (paste_rounds_all l post (length txt) (p + length (c :: n')));
    [|cbn [length]; lia|exact H|exact Hl|exact Hstop|exact Hpost|lia].
  destruct l as [|t l]; [contradiction|]. cbn [map].
  do 2 f_equal. rewrite !length_app. lia.
Qed.

(** A parameter that stands alone: the third alternative. *)
Lemma subst_param (p : nat) (n post : str) :
  p <= length txt ->
  match p with 0 => true | S q => negb (word_at txt q) end = true ->
  skipn p txt = n ++ post ->
  In n keys -> stops is_word post = true -> no_mark post = true ->
  matcher p = Some (Macro.SParam n (p + length n)).
Proof.
  intros Hp Hbefore H Hin Hstop Hpost.
  destruct (key_first n Hin) as (c & n' & -> & Hc & Hn').
  pose proof (skipn_length p txt _ Hp H) as L.
  rewrite !length_app in L. cbn [length] in L.
  unfold Macro.reg_macro_subst_match.
  destruct (match_plain_go (Seq (Chr "#") Macro.spaces) txt p)
    as [call1 ->].
  change (go txt call1 (Seq (Chr "#") Macro.spaces) p)
    with (flat_map (go txt call1 Macro.spaces)
                   (go txt call1 (Chr "#") p)).
  rewrite go_chr_none.
  2:{ pose proof H as H'. cbn [app] in H'.
      apply skipn_cons in H' as [-> _]. now apply word_not_hash. }
  cbn [flat_map hd_error].
  destruct (match_plain_go Macro.word txt p) as [call2 ->].
  unfold Macro.word.
  rewrite (go_poss1_class txt call2 is_word c n' post);
    [|lia|exact H| |exact Hstop].
  2:{ cbn [forallb]. now rewrite Hc. }
  cbn [hd_error].
  assert (Hno : Macro.paste_rounds txt (length txt)
                  (p + length (c :: n'))
                = ([], p + length (c :: n'))).
  { pose proof (paste_rounds_all [] post (length txt)
                  (p + length (c :: n'))) as Hr.
    cbn [map concat app length] in Hr. rewrite Nat.add_0_r in Hr.
    apply Hr; [cbn [length]; lia|now apply skipn_more in H|reflexivity
              |exact Hstop|exact Hpost|lia]. }
  rewrite Hno.
  destruct (match_plain_go (Macro.whole_name keys) txt p) as [call3 ->].
  assert (Hw0 : word_at txt p = true).
  { unfold word_at. pose proof H as H'. cbn [app] in H'.
    apply skipn_cons in H' as [-> _]. exact Hc. }
  assert (Hbp : at_boundary txt p = true).
  { unfold at_boundary. rewrite Hw0.
    destruct p as [|q]; [reflexivity|].
    apply negb_true_iff in Hbefore. now rewrite Hbefore. }
  assert (Hin_word : forall i, i < length (c :: n') ->
                               word_at txt (p + i) = true).
  { intros i Hi. unfold word_at.
    rewrite <- nth_error_skipn_at, H, nth_error_app1 by exact Hi.
    destruct (nth_error (c :: n') i) as [d|] eqn:E.
    - apply (forallb_nth is_word (c :: n') i d); [|exact E].
      cbn [forallb]. now rewrite Hc.
    - apply nth_error_None in E. lia. }
  assert (Hend : word_at txt (p + length (c :: n')) = false).
  { unfold word_at. apply skipn_more in H.
    assert (Hle : p + length (c :: n') <= length txt)
      by (cbn [length]; lia).
    pose proof (stops_nth is_word _ txt post Hle H Hstop) as Hs.
    destruct (nth_error txt (p + length (c :: n'))); [exact Hs|
                                                      reflexivity]. }
  rewrite (hd_error_all _ (p + length (c :: n'))).
  - now rewrite (slice_of _ _ _ _ H).
  - apply whole_name_ends. split; [exact Hbp|].
    exists (c :: n'). split; [exact Hin|]. rewrite H.
    split; [apply starts_with_app|]. split; [reflexivity|].
    unfold at_boundary. rewrite Hend.
    replace (p + length (c :: n')) with (S (p + length n'))
      by (cbn [length]; lia).
    rewrite (Hin_word (length n')) by (cbn [length]; lia). reflexivity.
  - intros e (_ & x & Hx & Hs & -> & He)%whole_name_ends.
    f_equal.
    destruct (key_first x Hx) as (d & x' & -> & Hd & Hx').
    destruct (Nat.lt_trichotomy (length (d :: x')) (length (c :: n')))
      as [Hlt|[Heq|Hgt]]; [|exact Heq|]; exfalso.
    + unfold at_boundary in He.
      replace (p + length (d :: x')) with (S (p + length x')) in He
        by (cbn [length]; lia).
      rewrite (Hin_word (length x')) in He by (cbn [length] in *; lia).
      replace (S (p + length x')) with (p + length (d :: x')) in He
        by (cbn [length]; lia).
      rewrite (Hin_word _ Hlt) in He. discriminate.
    + destruct (nth_error (d :: x') (length (c :: n'))) as [y|] eqn:E.
      * pose proof (starts_with_nth _ _ _ y Hs E) as Hy.
        rewrite nth_error_skipn_at in Hy. unfold word_at in Hend.
        rewrite Hy in Hend.
        assert (is_word y = true).
        { apply (forallb_nth is_word (d :: x') (length (c :: n')) y);
            [|exact E].
          cbn [forallb]. now rewrite Hd. }
        congruence.
      * apply nth_error_None in E. lia.
Qed.
End Forms.

(** *** The pass over a body given in parts *)

Section Copy.
Context {M : Type}.
Variable matcher : nat -> option M.
Variable stop : M -> nat.
Variable txt : str.
Variable repl : nat -> M -> str.

(** The text in which no match starts is copied. *)
Lemma sub_from_copy (w r : str) (n q : nat) :
  skipn q txt = w ++ r ->
  (forall i, i < length w -> matcher (q + i) = None) ->
  length w <= n ->
  sub_from matcher stop txt repl n q
  = w ++ sub_from matcher stop txt repl (n - length w) (q + length w).
Proof.
  revert n q; induction w as [|c w IH]; intros n q H Hnone Hn.
  - cbn [app length]. now rewrite Nat.sub_0_r, Nat.add_0_r.
  - destruct n as [|n]; [simpl in Hn; lia|].
    cbn [app length] in *. apply skipn_cons in H as [E H].
    cbn [sub_from]. rewrite E.
    pose proof (Hnone 0 ltac:(lia)) as H0. rewrite Nat.add_0_r in H0.
    rewrite H0. f_equal.
    rewrite (IH n (S q) H); [|intros i Hi|lia].
    + now rewrite <- Nat.add_succ_comm.
    + rewrite Nat.add_succ_comm. apply Hnone. lia.
Qed.

Lemma sub_from_end (n q : nat) :
  length txt <= q -> sub_from matcher stop txt repl n q = [].
Proof.
  intros Hq. destruct n as [|n]; [reflexivity|]. cbn [sub_from].
  now rewrite (proj2 (nth_error_None txt q) Hq).
Qed.
End Copy.

Lemma inert_nth (x : str) (i : nat) (c : ascii) :
  inert x = true -> nth_error x i = Some c ->
  ascii_eqb c "#" = false /\ is_word c = false.
Proof.
  intros H E.
  pose proof (forallb_nth _ x i c H E) as Hc. cbn beta in Hc.
  apply andb_prop in Hc as [H1 H2].
  now apply negb_true_iff in H1, H2.
Qed.

Lemma skipn_pre (pre rest : str) : skipn (length pre) (pre ++ rest) = rest.
Proof.
  induction pre as [|c pre IH]; [reflexivity|exact IH].
Qed.

Lemma str_in_In (x : str) (l : list str) : str_in x l = true -> In x l.
Proof.
  unfold str_in. intros (y & Hy & E)%existsb_exists.
  apply ExpandFacts.str_eqb_eq in E. now subst y.
Qed.

(** The first character of a form. *)
Lemma source_first (keys : list str) (f : piece) :
  forallb is_name keys = true -> piece_ok keys f = true ->
  match f with
  | Text _ => True
  | Stringize _ _ => exists r, source f = "#"%char :: r
  | _ => exists c r, source f = c :: r /\ is_word c = true
  end.
Proof.
  intros Hk. destruct f as [t|sp n|n0 l|n]; cbn [piece_ok source].
  - intros _. exact I.
  - intros _. now eexists.
  - intros [H _]%andb_prop. unfold pasted_ok in H.
    apply andb_prop in H as [H _].
    destruct (is_name_cons n0 H) as (c & n' & -> & Hc & _).
    unfold pasted. cbn [app]. now eexists _, _.
  - intros H%str_in_In. rewrite forallb_forall in Hk.
    destruct (is_name_cons n (Hk n H)) as (c & n' & -> & Hc & _).
    now eexists _, _.
Qed.

(** What follows a form neither goes on with a word character nor with
    white space and [##]. *)
Lemma inert_no_mark (t rest : str) :
  inert t = true -> no_mark rest = true -> no_mark (t ++ rest) = true.
Proof.
  intros Ht Hr. induction t as [|c t IH]; [exact Hr|].
  unfold inert in Ht. cbn [forallb] in Ht.
  apply andb_prop in Ht as [Hc Ht]. apply andb_prop in Hc as [Hc _].
  apply negb_true_iff in Hc. cbn [app no_mark]. rewrite Hc.
  destruct (is_space c); [exact (IH Ht)|reflexivity].
Qed.

Lemma separated_no_mark (keys : list str) (ps : list piece) :
  forallb is_name keys = true -> separated keys ps = true ->
  no_mark (concat (map source ps)) = true.
Proof.
  intros Hk. induction ps as [|f r IH]; [reflexivity|].
  cbn [separated map concat]. intros [H Hr]%andb_prop.
  apply andb_prop in H as [Hf _]. specialize (IH Hr).
  pose proof (source_first keys f Hk Hf) as Hs.
  destruct f as [t|sp n|n0 l|n].
  - now apply inert_no_mark.
  - cbn [source piece_ok] in *. apply andb_prop in Hf as [Hsp Hn].
    destruct (is_name_cons n Hn) as (c & n' & -> & Hc & _).
    change (s "#") with ["#"%char]. cbn [app no_mark].
    destruct sp as [|d sp]; cbn [app].
    + now rewrite (word_not_hash c Hc), andb_false_r.
    + unfold blanks in Hsp. cbn [forallb] in Hsp.
      apply andb_prop in Hsp as [Hd _].
      now rewrite (space_not_hash d Hd), andb_false_r.
  - destruct Hs as (c & x & -> & Hc). cbn [app no_mark].
    now rewrite (word_not_space c Hc), (word_not_hash c Hc).
  - destruct Hs as (c & x & -> & Hc). cbn [app no_mark].
    now rewrite (word_not_space c Hc), (word_not_hash c Hc).
Qed.

Lemma separated_stops_word (keys : list str) (f : piece)
    (r : list piece) :
  separated keys (f :: r) = true ->
  match f with Text _ => False | _ => True end ->
  stops is_word (concat (map source r)) = true.
Proof.
  cbn [separated]. intros [H Hr]%andb_prop Hf.
  apply andb_prop in H as [_ H].
  destruct r as [|[[|c t]|sp n|n0 l|n] r];
    try (destruct f; (discriminate H || contradiction)); [reflexivity|].
  cbn [separated piece_ok] in Hr. apply andb_prop in Hr as [Hr _].
  apply andb_prop in Hr as [Hr _].
  cbn [map concat source app]. now apply (inert_stops_word (c :: t)).
Qed.

Lemma separated_tail (keys : list str) (f : piece) (r : list piece) :
  separated keys (f :: r) = true -> separated keys r = true.
Proof. cbn [separated]. now intros [_ H]%andb_prop. Qed.

Section Pieces.
Variables raw expanded : Macro.arg_dict.
Variable txt : str.

Hypothesis keys_names : forallb is_name (map fst raw) = true.

Local Abbreviation keys := (map fst raw).
Local Abbreviation matcher := (Macro.reg_macro_subst_match keys txt).
Local Abbreviation repl :=
  (fun (_ : nat) (m : Macro.subst_match) =>
     match m with
     | Macro.SStringize n _ => Macro.arg_c_escape raw n
     | Macro.SPaste ns _ => Macro.concat_hh raw ns
     | Macro.SParam n _ =>
         match Macro.arg_lookup n expanded with
         | Some v => v
         | None => []
         end
     end).

(** The character before the position is no word character. *)
Local Abbreviation free_before :=
  (fun p : nat =>
     match p with 0 => true | S q => negb (word_at txt q) end).

(** A form is matched as a whole and replaced as the claim says. *)
Lemma form_matched (f : piece) (p : nat) (post : str) :
  match f with Text _ => False | _ => True end ->
  piece_ok keys f = true ->
  p <= length txt ->
  skipn p txt = source f ++ post ->
  free_before p = true ->
  stops is_word post = true -> no_mark post = true ->
  exists m,
    matcher p = Some m
    /\ Macro.subst_match_end m = p + length (source f)
    /\ repl p m = replaced raw expanded f.
Proof.
  intros Hf Hok Hp H Hfree Hstop Hmark.
  destruct f as [t|sp n|n0 l|n]; [contradiction| | |];
    cbn [piece_ok source] in *.
  - apply andb_prop in Hok as [Hsp Hn].
    change (s "#") with ["#"%char] in *. cbn [app] in H.
    rewrite <- app_assoc in H.
    exists (Macro.SStringize n (p + 1 + length sp + length n)).
    split; [now apply (subst_stringize keys txt p sp n post)|].
    split; [cbn [Macro.subst_match_end app length];
            rewrite length_app; lia|reflexivity].
  - apply andb_prop in Hok as [Hok Hl].
    exists (Macro.SPaste (n0 :: map snd l) (p + length (pasted n0 l))).
    split; [|split; reflexivity].
    apply (subst_paste keys txt p n0 l post); try assumption.
    intros ->. discriminate.
  - apply str_in_In in Hok.
    exists (Macro.SParam n (p + length n)).
    split; [|split; reflexivity].
    now apply (subst_param keys txt keys_names p n post).
Qed.

Lemma source_nonempty (f : piece) :
  match f with Text _ => False | _ => True end ->
  piece_ok keys f = true ->
  exists c x, source f = c :: x.
Proof.
  intros Hf Hok. pose proof (source_first keys f keys_names Hok) as H.
  destruct f as [t|sp n|n0 l|n]; [contradiction| | |].
  - destruct H as [x ->]. now eexists _, _.
  - destruct H as (c & x & -> & _). now eexists _, _.
  - destruct H as (c & x & -> & _). now eexists _, _.
Qed.

(** The pass at a form: the form is replaced, and the pass goes on
    behind it. *)
Lemma form_step (f : piece) (done rest : str) (n : nat) :
  match f with Text _ => False | _ => True end ->
  piece_ok keys f = true ->
  txt = done ++ source f ++ rest ->
  free_before (length done) = true ->
  stops is_word rest = true -> no_mark rest = true ->
  length (source f) + length rest <= n ->
  sub_from matcher Macro.subst_match_end txt repl n (length done)
  = replaced raw expanded f
    ++ sub_from matcher Macro.subst_match_end txt repl (n - 1)
         (length (done ++ source f)).
Proof.
  intros Hf Hok Htxt Hfree Hstop Hmark Hn.
  assert (Hs : skipn (length done) txt = source f ++ rest)
    by (rewrite Htxt; apply skipn_pre).
  destruct (form_matched f (length done) rest Hf Hok)
    as (m & Hm & Hend & Hrepl);
    [rewrite Htxt, length_app; lia|exact Hs|exact Hfree|exact Hstop
    |exact Hmark|].
  destruct (source_nonempty f Hf Hok) as (c & x & Hx).
  rewrite Hx in Hs, Hn, Hend. cbn [app length] in Hs, Hn.
  destruct n as [|n]; [lia|].
  replace (S n - 1) with n by lia.
  apply skipn_cons in Hs as [E _].
  cbn [sub_from]. rewrite E, Hm, Hend.
  rewrite (proj2 (Nat.ltb_lt _ _)) by (cbn [length]; lia).
  cbn beta in Hrepl. rewrite Hrepl. f_equal.
  now rewrite length_app, Hx.
Qed.

Lemma free_after_text (done t rest : str) :
  inert t = true -> txt = done ++ t ++ rest ->
  (t = [] -> free_before (length done) = true) ->
  free_before (length (done ++ t)) = true.
Proof.
  intros Ht Htxt Hfree.
  destruct t as [|c0 t0];
    [rewrite app_nil_r; now apply Hfree|].
  rewrite length_app.
  replace (length done + length (c0 :: t0))
    with (S (length done + length t0)) by (cbn [length]; lia).
  unfold word_at. rewrite Htxt, nth_error_app2 by lia.
  replace (length done + length t0 - length done) with (length t0)
    by lia.
  rewrite nth_error_app1 by (cbn [length]; lia).
  destruct (nth_error (c0 :: t0) (length t0)) as [d|] eqn:E;
    [|reflexivity].
  destruct (inert_nth (c0 :: t0) _ d Ht E) as [_ ->]. reflexivity.
Qed.

(** The pass from the end of [done] on, over the parts [ps]. *)
Lemma sub_from_pieces (ps : list piece) (done : str) (n : nat) :
  txt = done ++ concat (map source ps) ->
  separated keys ps = true ->
  match ps with
  | [] | Text (_ :: _) :: _ => True
  | _ => free_before (length done) = true
  end ->
  length (concat (map source ps)) <= n ->
  sub_from matcher Macro.subst_match_end txt repl n (length done)
  = concat (map (replaced raw expanded) ps).
Proof.
  revert done n; induction ps as [|f r IH]; intros done n Htxt Hsep Hfree
    Hn.
  - cbn [map concat] in *. apply sub_from_end.
    rewrite Htxt, app_nil_r. apply Nat.le_refl.
  - cbn [map concat] in *. rewrite length_app in Hn.
    pose proof (separated_tail _ _ _ Hsep) as Hr.
    assert (Hok : piece_ok keys f = true).
    { cbn [separated] in Hsep. apply andb_prop in Hsep as [H _].
      now apply andb_prop in H as [H _]. }
    assert (Hnext : txt = (done ++ source f) ++ concat (map source r))
      by now rewrite <- app_assoc.
    assert (Hcases : (exists t, f = Text t)
                     \/ match f with Text _ => False | _ => True end)
      by (destruct f; [left; now eexists|now right..]).
    destruct Hcases as [[t ->]|Hform].
    + cbn [source replaced piece_ok] in *.
      assert (Hs : skipn (length done) txt = t ++ concat (map source r))
        by (rewrite Htxt; apply skipn_pre).
      rewrite (sub_from_copy _ _ txt _ t _ n (length done) Hs); [|
        |lia].
      2:{ intros i Hi.
          destruct (nth_error t i) as [d|] eqn:E;
            [|apply nth_error_None in E; lia].
          destruct (inert_nth t i d Hok E) as [H1 H2].
          apply (subst_none keys txt keys_names _ d);
            [|exact H1|exact H2].
          now rewrite <- nth_error_skipn_at, Hs, nth_error_app1. }
      f_equal. rewrite <- length_app.
      apply IH; [exact Hnext|exact Hr| |lia].
      assert (Hafter : free_before (length (done ++ t)) = true).
      { apply (free_after_text done t (concat (map source r)) Hok Htxt).
        intros ->. exact Hfree. }
      destruct r as [|[[|c t']|? ?|? ?|?] r']; (exact I || exact Hafter).
    + assert (Hfr : free_before (length done) = true)
        by (destruct f; [contradiction|exact Hfree..]).
      rewrite (form_step f done (concat (map source r)) n Hform Hok Htxt
                 Hfr (separated_stops_word keys f r Hsep Hform)
                 (separated_no_mark keys r keys_names Hr) Hn).
      f_equal.
      destruct (source_nonempty f Hform Hok) as (c & x & Hx).
      apply IH; [exact Hnext|exact Hr| |rewrite Hx in Hn;
                                        cbn [length] in Hn; lia].
      cbn [separated] in Hsep. apply andb_prop in Hsep as [H _].
      apply andb_prop in H as [_ H].
      destruct r as [|[[|c' t']|? ?|? ?|?] r']; try exact I;
        destruct f; (contradiction || discriminate H).
Qed.
End Pieces.

(** A body that is made of texts in which no match starts and of forms,
    each form followed by a text or by nothing: the pass replaces each
    form and copies the texts. *)
Lemma substitute_pieces (raw expanded : Macro.arg_dict)
    (ps : list piece) :
  forallb is_name (map fst raw) = true ->
  separated (map fst raw) ps = true ->
  Macro.substitute raw expanded (concat (map source ps))
  = concat (map (replaced raw expanded) ps).
Proof.
  intros Hk Hsep. unfold Macro.substitute, sub.
  apply (sub_from_pieces raw expanded (concat (map source ps)) Hk ps []);
    [reflexivity|exact Hsep| |apply Nat.le_refl].
  destruct ps as [|[[|c t]|? ?|? ?|?] r]; (exact I || reflexivity).
Qed.

(** *** The arguments of a call *)

Lemma expand_args_expanded_by
    (rec : str -> Macro.state -> result (str * Macro.state))
    (d : Macro.arg_dict) (st : Macro.state) (d' : Macro.arg_dict)
    (st' : Macro.state) :
  Macro.expand_args rec d st = Ok (d', st') <-> expanded_by rec d st d' st'.
Proof.
  split.
  - revert st d'; induction d as [|[k v] d IH]; intros st d';
      cbn [Macro.expand_args].
    + intros [= <- <-]. constructor.
    + destruct (rec v st) as [[v' st1]| |] eqn:E; cbn [bind];
        try discriminate.
      destruct (Macro.expand_args rec d st1) as [[r st2]| |] eqn:E2;
        cbn [bind]; try discriminate.
      intros [= <- <-]. econstructor; [exact E|]. now apply IH.
  - induction 1 as [st0|k v v' d0 d1 st0 st1 st2 Hrec _ IH];
      cbn [Macro.expand_args]; [reflexivity|].
    rewrite Hrec. cbn [bind]. rewrite IH. reflexivity.
Qed.

Lemma expand_fn_like_substitutes (atomic_calls : bool) (self : Macro.Macros)
    (rec : str -> Macro.state -> result (str * Macro.state))
    (nm whole lst : str) (st : Macro.state) (macro : Macro.MacroParts)
    (p0 : Token) (ps : list Token) (b : Token) (out : str)
    (st' : Macro.state) :
  Macro.lookup nm (Macro.macros self) = Some macro ->
  Macro.args macro = Some (p0 :: ps) ->
  Macro.body macro = Some b ->
  str_in nm (Macro.in_use st) = false ->
  length (p0 :: ps)
  <= length (Macro.parse_args (length (p0 :: ps)) (Macro.is_va_args macro)
               (xFromText atomic_calls Grammar.re_token lst) [[]]) ->
  Macro.expand_fn_like atomic_calls self rec nm whole lst st = Ok (out, st')
  <-> exists expanded st1 st2,
        expanded_by rec
          (Macro.make_args_dict (p0 :: ps)
             (Macro.parse_args (length (p0 :: ps)) (Macro.is_va_args macro)
                (xFromText atomic_calls Grammar.re_token lst) [[]]) [])
          st expanded st1
        /\ rec (Macro.substitute
                  (Macro.make_args_dict (p0 :: ps)
                     (Macro.parse_args (length (p0 :: ps))
                        (Macro.is_va_args macro)
                        (xFromText atomic_calls Grammar.re_token lst) [[]])
                     [])
                  expanded (value b))
               (Macro.enter nm st1)
           = Ok (out, st2)
        /\ Macro.leave nm st2 = Ok st'.
Proof.
  intros Hl Ha Hb Hu Hn. unfold Macro.expand_fn_like.
  rewrite Hu, Hl, Hb, Ha.
  rewrite (proj2 (Nat.ltb_ge _ _) Hn).
  set (raw := Macro.make_args_dict _ _ _).
  split.
  - destruct (Macro.expand_args rec raw st) as [[ade st1]| |] eqn:E;
      cbn [bind]; try discriminate.
    destruct (rec _ (Macro.enter nm st1)) as [[r st2]| |] eqn:E2;
      cbn [bind]; try discriminate.
    destruct (Macro.leave nm st2) as [st3| |] eqn:E3; cbn [bind];
      try discriminate.
    intros [= <- <-]. exists ade, st1, st2.
    split; [now apply expand_args_expanded_by|]. split; [exact E2|exact E3].
  - intros (ade & st1 & st2 & H1 & H2 & H3).
    apply expand_args_expanded_by in H1. rewrite H1. cbn [bind].
    rewrite H2. cbn [bind]. rewrite H3. reflexivity.
Qed.



End SubstitutionFacts.

(** ** A call with too few arguments *)

Module ArityFacts.

Import Samples Props.

(** *** The names that the pattern finds are keys of the registry *)

Lemma starts_with_firstn (x y : str) :
  starts_with x y = true -> firstn (length x) y = x.
Proof.
  revert y; induction x as [|c x IH]; intros [|d y]; simpl;
    try reflexivity; try discriminate.
  intros [H1 H2]%andb_prop. apply Ascii.eqb_eq in H1. subst d.
  now rewrite (IH _ H2).
Qed.

Lemma whole_name_in (names : list str) (txt : str) (call : nat -> list nat)
    (p e : nat) :
  In e (go txt call (Macro.whole_name names) p) -> In (slice txt p e) names.
Proof.
  unfold Macro.whole_name. cbn [Seqs].
  change (go txt call (Seq Bnd (Seq (OneOf names) Bnd)) p)
    with (flat_map (fun q => flat_map (go txt call Bnd)
                                      (go txt call (OneOf names) q))
                   (go txt call Bnd p)).
  intros (q & Hq & He)%in_flat_map.
  cbn [go] in Hq. destruct (at_boundary txt p); [|destruct Hq].
  destruct Hq as [<-|[]].
  apply in_flat_map in He as (q & Hq & He).
  cbn [go] in He. destruct (at_boundary txt q); [|destruct He].
  destruct He as [<-|[]].
  cbn [go] in Hq. apply in_flat_map in Hq as (x & Hx & Hq).
  destruct (starts_with x (skipn p txt)) eqn:E; [|destruct Hq].
  destruct Hq as [<-|[]].
  unfold slice. replace (p + length x - p) with (length x) by lia.
  now rewrite (starts_with_firstn _ _ E).
Qed.

Lemma run_whole_name_in (names : list str) (txt : str) (fuel p e : nat) :
  In e (run false Eps txt fuel (Macro.whole_name names) p) ->
  In (slice txt p e) names.
Proof. destruct fuel; apply whole_name_in. Qed.

Lemma hd_error_in {A : Type} (l : list A) (x : A) :
  hd_error l = Some x -> In x l.
Proof. destruct l; [discriminate|]. intros [= ->]. now left. Qed.

Section Names.
Variable atomic_calls : bool.
Variable objs fns : list str.
Variable txt : str.

Lemma first_call_name (p : nat) (ends : list nat) (nm : str)
    (ls le e : nat) :
  (forall e1, In e1 ends -> In (slice txt p e1) fns) ->
  Macro.first_call atomic_calls txt p ends = Some (Macro.MFn nm ls le e) ->
  In nm fns.
Proof.
  induction ends as [|e1 ends IH]; cbn [Macro.first_call]; intros Hin;
    [discriminate|].
  destruct (Macro.match_args atomic_calls txt e1) as [[[ls' le'] e']|].
  - intros [= <- _ _ _]. apply Hin. now left.
  - apply IH. intros e2 H2. apply Hin. now right.
Qed.

Lemma names_reg_match_names (p : nat) (m : Macro.name_match) :
  Macro.names_reg_match atomic_calls objs fns txt p = Some m ->
  match m with
  | Macro.MSkip _ => True
  | Macro.MObj nm _ => In nm objs
  | Macro.MFn nm _ _ _ => In nm fns
  end.
Proof.
  unfold Macro.names_reg_match.
  destruct (match_plain Macro.skipped txt p); [now intros [= <-]|].
  destruct (match objs with [] => None | _ => _ end) as [e|] eqn:Eo.
  - intros [= <-]. destruct objs as [|o0 objs']; [discriminate|].
    unfold match_plain, match_at in Eo.
    apply hd_error_in in Eo. now apply run_whole_name_in in Eo.
  - destruct fns as [|f0 fns'] eqn:Ef; [discriminate|]. rewrite <- Ef.
    intros H. destruct m as [e|nm e|nm ls le e].
    + exact I.
    + exfalso. revert H. generalize (run false Eps txt 0
                                       (Macro.whole_name fns) p).
      intros l. induction l as [|e1 l IH]; cbn [Macro.first_call];
        [discriminate|].
      destruct (Macro.match_args atomic_calls txt e1) as [[[? ?] ?]|];
        [discriminate|exact IH].
    + apply first_call_name in H; [exact H|].
      intros e1. apply run_whole_name_in.
Qed.
End Names.

(** *** With distinct keys and a function-like macro nothing is raised *)

Lemma lookup_in (k : str) (v : Macro.MacroParts) (d : Macro.macro_dict) :
  distinct (map fst d) = true -> In (k, v) d -> Macro.lookup k d = Some v.
Proof.
  induction d as [|[k' v'] d IH]; cbn [map fst distinct Macro.lookup In];
    [intros _ []|].
  intros [Hk Hd]%andb_prop [H|H].
  - injection H as -> ->. now rewrite MacroFacts.str_eqb_refl.
  - destruct (str_eqb k k') eqn:E; [|now apply IH].
    apply ExpandFacts.str_eqb_eq in E. subst k'.
    apply negb_true_iff in Hk. unfold str_in in Hk.
    assert (Hex : existsb (str_eqb k) (map fst d) = true).
    { apply existsb_exists. exists k. split.
      - apply in_map_iff. now exists (k, v).
      - apply MacroFacts.str_eqb_refl. }
    congruence.
Qed.

Section NoRaise.
Variable atomic_calls : bool.
Variable self : Macro.Macros.

Hypothesis keys_distinct :
  distinct (map fst (Macro.macros self)) = true.
Hypothesis some_function : Macro.fn_like_names self <> [].

Lemma obj_like_lookup (nm : str) :
  In nm (Macro.obj_like_names self) ->
  exists m, Macro.lookup nm (Macro.macros self) = Some m.
Proof.
  unfold Macro.obj_like_names.
  intros ([k v] & <- & Hin)%in_map_iff.
  apply List.filter_In in Hin as [Hin _].
  exists v. now apply lookup_in.
Qed.

Lemma fn_like_lookup (nm : str) :
  In nm (Macro.fn_like_names self) ->
  exists m params, Macro.lookup nm (Macro.macros self) = Some m
                   /\ Macro.args m = Some params.
Proof.
  unfold Macro.fn_like_names.
  intros ([k v] & <- & Hin)%in_map_iff.
  apply List.filter_In in Hin as [Hin Ha]. cbn [snd fst] in *.
  destruct (Macro.args v) as [params|] eqn:E; [|discriminate].
  exists v, params. split; [now apply lookup_in|exact E].
Qed.

Section Callbacks.
Variable rec : str -> Macro.state -> result (str * Macro.state).

Hypothesis rec_extends :
  forall x st r st', rec x st = Ok (r, st') -> extends st st'.
Hypothesis rec_no_raise : forall x st, no_raise (rec x st).

Lemma reexpand_no_raise (nm x : str) (st : Macro.state) :
  str_in nm (Macro.in_use st) = false ->
  no_raise (let* '(replacement, st1) := rec x (Macro.enter nm st) in
            let* st2 := Macro.leave nm st1 in
            Ok (replacement, st2)).
Proof.
  intros Hn. pose proof (rec_no_raise x (Macro.enter nm st)) as Hr.
  destruct (rec x (Macro.enter nm st)) as [[y st1]|e|] eqn:E;
    cbn [bind]; [|exact Hr|exact I].
  apply rec_extends in E. destruct E as (E1 & _).
  destruct (ExpandFacts.leave_enter nm st st1 Hn E1) as (st2 & -> & _).
  exact I.
Qed.

Lemma expand_obj_like_no_raise (nm whole : str) (st : Macro.state) :
  In nm (Macro.obj_like_names self) ->
  no_raise (Macro.expand_obj_like self rec nm whole st).
Proof.
  intros Hin. unfold Macro.expand_obj_like.
  destruct (str_in nm (Macro.in_use st)) eqn:Hn; [exact I|].
  destruct (obj_like_lookup nm Hin) as [m ->].
  destruct (Macro.body m) as [b|]; [|exact I].
  now apply reexpand_no_raise.
Qed.

Lemma expand_args_no_raise (d : Macro.arg_dict) (st : Macro.state) :
  no_raise (Macro.expand_args rec d st).
Proof.
  revert st; induction d as [|[k v] d IH]; intros st;
    cbn [Macro.expand_args]; [exact I|].
  pose proof (rec_no_raise v st) as Hr.
  destruct (rec v st) as [[v' st1]|e|]; cbn [bind]; [|exact Hr|exact I].
  specialize (IH st1).
  destruct (Macro.expand_args rec d st1) as [[r st2]|e|]; cbn [bind];
    [exact I|exact IH|exact I].
Qed.

Lemma expand_fn_like_no_raise (nm whole lst : str) (st : Macro.state) :
  In nm (Macro.fn_like_names self) ->
  no_raise (Macro.expand_fn_like atomic_calls self rec nm whole lst st).
Proof.
  intros Hin. unfold Macro.expand_fn_like.
  destruct (str_in nm (Macro.in_use st)) eqn:Hn; [exact I|].
  destruct (fn_like_lookup nm Hin) as (m & params & -> & ->).
  destruct (Macro.body m) as [b|]; [|exact I].
  destruct (_ <? _); [exact I|].
  destruct params as [|p0 params].
  - cbn [bind]. now apply reexpand_no_raise.
  - pose proof (expand_args_no_raise
                  (Macro.make_args_dict (p0 :: params)
                     (Macro.parse_args (length (p0 :: params))
                        (Macro.is_va_args m)
                        (xFromText atomic_calls Grammar.re_token lst)
                        [[]]) []) st) as Ha.
    destruct (Macro.expand_args rec _ st) as [[ade st1]|e|] eqn:E;
      cbn [bind]; [|exact Ha|exact I].
    apply reexpand_no_raise.
    apply ExpandStateFacts.expand_args_extends in E;
      [|exact rec_extends].
    destruct E as (E1 & _). now rewrite E1.
Qed.

Lemma expand_match_no_raise (txt : str) (p : nat)
    (m : Macro.name_match) (st : Macro.state) :
  Macro.names_reg_match atomic_calls (Macro.obj_like_names self)
                        (Macro.fn_like_names self) txt p = Some m ->
  no_raise (Macro.expand_match atomic_calls self rec txt p m st).
Proof.
  intros Hm. apply names_reg_match_names in Hm.
  unfold Macro.expand_match.
  destruct (Macro.fn_like_names self) as [|f0 fns] eqn:Hf;
    [contradiction|]. rewrite <- Hf in *.
  destruct m as [e|nm e|nm ls le e].
  - exact I.
  - now apply expand_obj_like_no_raise.
  - now apply expand_fn_like_no_raise.
Qed.
End Callbacks.

Lemma sub_st_from_no_raise {M : Type} (matcher : nat -> option M)
    (stop : M -> nat) (txt : str)
    (cb : nat -> M -> Macro.state -> result (str * Macro.state)) :
  (forall p m st, matcher p = Some m -> no_raise (cb p m st)) ->
  forall n p st, no_raise (sub_st_from matcher stop txt cb n p st).
Proof.
  intros Hcb. induction n as [|n IH]; intros p st; cbn [sub_st_from];
    [exact I|].
  destruct (nth_error txt p) as [c|]; [|exact I].
  destruct (matcher p) as [m|] eqn:Em.
  - pose proof (Hcb p m st Em) as Hr.
    destruct (cb p m st) as [[x st1]|e|]; cbn [bind]; [|exact Hr|exact I].
    destruct (p <? stop m).
    + specialize (IH (stop m) st1).
      destruct (sub_st_from _ _ _ _ n (stop m) st1) as [[r st2]|e|];
        cbn [bind]; [exact I|exact IH|exact I].
    + specialize (IH (S p) st1).
      destruct (sub_st_from _ _ _ _ n (S p) st1) as [[r st2]|e|];
        cbn [bind]; [exact I|exact IH|exact I].
  - specialize (IH (S p) st).
    destruct (sub_st_from _ _ _ _ n (S p) st) as [[r st2]|e|];
      cbn [bind]; [exact I|exact IH|exact I].
Qed.

Lemma expand_fragment_no_raise (fuel : nat) (txt : str)
    (st : Macro.state) :
  no_raise (Macro.expand_fragment atomic_calls self fuel txt st).
Proof.
  revert txt st; induction fuel as [|fuel IH]; intros txt st;
    cbn [Macro.expand_fragment]; [exact I|].
  unfold sub_st. apply sub_st_from_no_raise.
  intros p m st0 Hm. apply expand_match_no_raise; [|exact IH|exact Hm].
  apply ExpandStateFacts.expand_fragment_extends.
Qed.
End NoRaise.

(** *** What the scan makes of one of its matches *)

Section Split.
Context {M : Type}.
Variable matcher : nat -> option M.
Variable stop : M -> nat.
Variable txt : str.
Variable cb : nat -> M -> Macro.state -> result (str * Macro.state).

Hypothesis cb_extends :
  forall p m st x st1, cb p m st = Ok (x, st1) -> extends st st1.

(** The output of the scan has, for each match, what the function
    returned for it; the function was called in a state that differs
    from the first one by the errors recorded before, and what follows
    in the output is what the scan returns from the end of the match
    on. *)
Lemma sub_st_from_split (n p0 : nat) (st : Macro.state) (out : str)
    (st' : Macro.state) (p : nat) (m : M) :
  In (p, m) (matches_from matcher stop txt n p0) ->
  p < stop m ->
  sub_st_from matcher stop txt cb n p0 st = Ok (out, st') ->
  exists a s1 x s2 rest k,
    extends st s1 /\ cb p m s1 = Ok (x, s2)
    /\ sub_st_from matcher stop txt cb k (stop m) s2 = Ok (rest, st')
    /\ out = a ++ x ++ rest.
Proof.
  intros Hin Hlt. revert p0 st out Hin; induction n as [|n IH];
    intros p0 st out; cbn [matches_from sub_st_from]; [intros []|].
  destruct (nth_error txt p0) as [c|]; [|intros []].
  destruct (matcher p0) as [m0|].
  - intros Hin.
    destruct (cb p0 m0 st) as [[x st1]| |] eqn:E; cbn [bind];
      try discriminate.
    destruct Hin as [[= <- <-]|Hin].
    + rewrite (proj2 (Nat.ltb_lt _ _) Hlt).
      destruct (sub_st_from _ _ _ _ n (stop m0) st1)
        as [[r st2]| |] eqn:E2; cbn [bind]; try discriminate.
      intros [= <- <-].
      exists [], st, x, st1, r, n.
      split; [apply ExpandStateFacts.extends_refl|].
      split; [exact E|]. split; [exact E2|reflexivity].
    + apply cb_extends in E. intros H.
      destruct (p0 <? stop m0).
      * destruct (sub_st_from _ _ _ _ n (stop m0) st1)
          as [[r st2]| |] eqn:E2; cbn [bind] in H; try discriminate.
        injection H as <- <-.
        destruct (IH _ _ _ Hin E2) as (a & s1 & y & s2 & rest & k
                                       & H1 & H2 & H3 & ->).
        exists (x ++ a), s1, y, s2, rest, k.
        split; [exact (ExpandStateFacts.extends_trans _ _ _ E H1)|].
        split; [exact H2|]. split; [exact H3|].
        now rewrite <- app_assoc.
      * destruct (sub_st_from _ _ _ _ n (S p0) st1)
          as [[r st2]| |] eqn:E2; cbn [bind] in H; try discriminate.
        injection H as <- <-.
        destruct (IH _ _ _ Hin E2) as (a & s1 & y & s2 & rest & k
                                       & H1 & H2 & H3 & ->).
        exists (x ++ c :: a), s1, y, s2, rest, k.
        split; [exact (ExpandStateFacts.extends_trans _ _ _ E H1)|].
        split; [exact H2|]. split; [exact H3|].
        now rewrite <- app_assoc.
  - intros Hin H.
    destruct (sub_st_from _ _ _ _ n (S p0) st) as [[r st2]| |] eqn:E2;
      cbn [bind] in H; try discriminate.
    injection H as <- <-.
    destruct (IH _ _ _ Hin E2) as (a & s1 & y & s2 & rest & k
                                   & H1 & H2 & H3 & ->).
    exists (c :: a), s1, y, s2, rest, k.
    split; [exact H1|]. split; [exact H2|]. split; [exact H3|reflexivity].
Qed.
End Split.

Lemma matches_from_in {M : Type} (matcher : nat -> option M)
    (stop : M -> nat) (txt : str) (n p0 p : nat) (m : M) :
  In (p, m) (matches_from matcher stop txt n p0) ->
  p < length txt /\ matcher p = Some m.
Proof.
  revert p0; induction n as [|n IH]; intros p0; cbn [matches_from];
    [intros []|].
  destruct (nth_error txt p0) as [c|] eqn:E; [|intros []].
  destruct (matcher p0) as [m0|] eqn:Em; [|apply IH].
  intros [[= <- <-]|H]; [|exact (IH _ H)].
  split; [|exact Em]. apply nth_error_Some. congruence.
Qed.

(** The callback at a call with too few arguments. *)
Lemma expand_fn_like_too_few (atomic_calls : bool) (self : Macro.Macros)
    (rec : str -> Macro.state -> result (str * Macro.state))
    (nm whole lst : str) (st : Macro.state) (macro : Macro.MacroParts)
    (params : list Token) (b : Token) :
  Macro.lookup nm (Macro.macros self) = Some macro ->
  Macro.args macro = Some params ->
  Macro.body macro = Some b ->
  str_in nm (Macro.in_use st) = false ->
  length (Macro.parse_args (length params) (Macro.is_va_args macro)
            (xFromText atomic_calls Grammar.re_token lst) [[]])
  < length params ->
  Macro.expand_fn_like atomic_calls self rec nm whole lst st
  = Ok (whole,
        Macro.record_error
          (Macro.mkArityError nm
             (length (Macro.parse_args (length params)
                        (Macro.is_va_args macro)
                        (xFromText atomic_calls Grammar.re_token lst) [[]]))
             (length params)) st).
Proof.
  intros Hl Ha Hb Hu Hg. unfold Macro.expand_fn_like.
  rewrite Hu, Hl, Hb, Ha.
  now rewrite (proj2 (Nat.ltb_lt _ _) Hg).
Qed.



(** A call inside an argument is processed in the same way, in the
    fragment of the argument, and what becomes of its text is up to the
    macro around it.  With [#define ZERO(x) 0] the text of [G(1)] in
    [ZERO(G(1))] is dropped with the argument, and its error stays.
    With [#define F(x) x] the text of [G(1)] in [F(G(1))] is processed
    once as an argument and once more in the body that has it, and the
    error is recorded twice. *)
Lemma nested_calls_with_too_few_arguments (atomic_calls : bool)
    (fuel : nat) :
  Macro.expand_run atomic_calls
    (registry [function_like atomic_calls "ZERO" ["x"] "0";
               function_like atomic_calls "G" ["a"; "b"] "a b"])
    (3 + fuel) (s "ZERO(G(1)) y")
  = Ok (s "0 y", [Macro.mkArityError (s "G") 1 2])
  /\ Macro.expand_run atomic_calls
       (registry [function_like atomic_calls "F" ["x"] "x";
                  function_like atomic_calls "G" ["a"; "b"] "a b"])
       (3 + fuel) (s "F(G(1))")
     = Ok (s "G(1)", [Macro.mkArityError (s "G") 1 2;
                      Macro.mkArityError (s "G") 1 2]).
Proof. split; destruct atomic_calls; vm_compute; reflexivity. Qed.

End ArityFacts.
